(** * The edge plugin: query engine, upstream access and selection policy

    A shallow embedding of [plugin/edge]: [edge.go] (with its policies),
    [connect.go] (with the health probe) and [lookup.go].  Go values are
    plain data; upstream I/O, the random source and the round-robin counter
    are threaded through a state monad that logs what it does and can
    panic.

    Code the plugin calls but does not contain is collected in the class
    [Platform]; every statement below holds for any instance of it.
    Logging under the debug flags and the tracing spans do not change what
    is observed here and are left out. *)

From Stdlib Require Import ZArith Lia Ascii String List.
From Stdlib.Strings Require Import Byte.
From stdpp Require Import gmap strings list.
Import ListNotations.

Set Default Proof Using "Type".

(** ** Go values *)

(** Conversions to fixed-width unsigned integers wrap around. *)
Definition uint32 (z : Z) : Z := (z mod 2 ^ 32)%Z.
Definition uint16 (z : Z) : Z := (z mod 2 ^ 16)%Z.

(** [error] values are compared by identity; [io_EOF] is [io.EOF], the two
    sentinels are those of [lookup.go], every other error is opaque. *)
Inductive error : Type :=
| io_EOF
| errNoEdge
| errNoHealthy
| errOther (msg : string).

Definition is_EOF (err : error) : bool :=
  match err with io_EOF => true | _ => false end.

(** Run-time panics of the Go code modelled here. *)
Inductive panic : Type :=
| DivideByZero
| IndexOutOfRange.

(** ** [net.IP] *)

(** An IP is a byte slice; the nil slice is the empty list. *)
Abbreviation net_IP := (list byte).

Definition isZeros (p : list byte) : bool :=
  forallb (fun b => Byte.eqb b x00) p.

(** [IP.To4]: the 4-byte form of an IPv4 address, nil for anything else. *)
Definition To4 (ip : net_IP) : net_IP :=
  if Nat.eqb (length ip) 4 then ip
  else if Nat.eqb (length ip) 16
          && isZeros (take 10 ip)
          && Byte.eqb (nth 10 ip x00) xff
          && Byte.eqb (nth 11 ip x00) xff
       then take 4 (drop 12 ip)
       else [].

Fixpoint bytes_eqb (a b : list byte) : bool :=
  match a, b with
  | [], [] => true
  | x :: a', y :: b' => Byte.eqb x y && bytes_eqb a' b'
  | _, _ => false
  end.

Definition v4InV6Prefix : list byte :=
  [x00; x00; x00; x00; x00; x00; x00; x00; x00; x00; xff; xff].

(** [IP.Equal]: an IPv4 address and its 16-byte form are the same IP. *)
Definition IP_Equal (ip x : net_IP) : bool :=
  if Nat.eqb (length ip) (length x) then bytes_eqb ip x
  else if Nat.eqb (length ip) 4 && Nat.eqb (length x) 16
       then bytes_eqb (take 12 x) v4InV6Prefix && bytes_eqb ip (drop 12 x)
  else if Nat.eqb (length ip) 16 && Nat.eqb (length x) 4
       then bytes_eqb (take 12 ip) v4InV6Prefix && bytes_eqb (drop 12 ip) x
  else false.

(** ** [dns.Msg] (miekg/dns) *)

Module dns.

Definition TypeA : Z := 1.
Definition TypeNS : Z := 2.
Definition TypeAAAA : Z := 28.
Definition ClassINET : Z := 1.
Definition OpcodeQuery : Z := 0.
Definition RcodeSuccess : Z := 0.
Definition RcodeFormatError : Z := 1.
Definition RcodeServerFailure : Z := 2.

Record Question : Type := {
  QName_ : string;
  Qtype : Z;
  Qclass : Z
}.

Record RR_Header : Type := {
  Name : string;
  Rrtype : Z;
  Class : Z;
  Ttl : Z;
  Rdlength : Z
}.

(** Resource records: the two kinds the plugin builds, any other kind
    as opaque data, and the nil interface value. *)
Inductive RR : Type :=
| RR_A (Hdr : RR_Header) (A : net_IP)
| RR_AAAA (Hdr : RR_Header) (AAAA : net_IP)
| RR_other (Hdr : RR_Header) (rdata : list byte)
| RR_nil.

Record Msg : Type := {
  Id : Z;
  Response : bool;
  Opcode : Z;
  Authoritative : bool;
  Truncated : bool;
  RecursionDesired : bool;
  CheckingDisabled : bool;
  Rcode : Z;
  Compress : bool;
  Question_ : list Question;
  Answer : list RR;
  Ns : list RR;
  Extra : list RR
}.

(** [new(dns.Msg)] *)
Definition new_Msg : Msg :=
  {| Id := 0; Response := false; Opcode := 0; Authoritative := false;
     Truncated := false; RecursionDesired := false;
     CheckingDisabled := false; Rcode := 0; Compress := false;
     Question_ := []; Answer := []; Ns := []; Extra := [] |}.

Definition set_Rcode (m : Msg) (rc : Z) : Msg :=
  {| Id := Id m; Response := Response m; Opcode := Opcode m;
     Authoritative := Authoritative m; Truncated := Truncated m;
     RecursionDesired := RecursionDesired m;
     CheckingDisabled := CheckingDisabled m; Rcode := rc;
     Compress := Compress m; Question_ := Question_ m;
     Answer := Answer m; Ns := Ns m; Extra := Extra m |}.

Definition set_Compress (m : Msg) (c : bool) : Msg :=
  {| Id := Id m; Response := Response m; Opcode := Opcode m;
     Authoritative := Authoritative m; Truncated := Truncated m;
     RecursionDesired := RecursionDesired m;
     CheckingDisabled := CheckingDisabled m; Rcode := Rcode m;
     Compress := c; Question_ := Question_ m;
     Answer := Answer m; Ns := Ns m; Extra := Extra m |}.

Definition set_Authoritative (m : Msg) (a : bool) : Msg :=
  {| Id := Id m; Response := Response m; Opcode := Opcode m;
     Authoritative := a; Truncated := Truncated m;
     RecursionDesired := RecursionDesired m;
     CheckingDisabled := CheckingDisabled m; Rcode := Rcode m;
     Compress := Compress m; Question_ := Question_ m;
     Answer := Answer m; Ns := Ns m; Extra := Extra m |}.

Definition set_Answer (m : Msg) (a : list RR) : Msg :=
  {| Id := Id m; Response := Response m; Opcode := Opcode m;
     Authoritative := Authoritative m; Truncated := Truncated m;
     RecursionDesired := RecursionDesired m;
     CheckingDisabled := CheckingDisabled m; Rcode := Rcode m;
     Compress := Compress m; Question_ := Question_ m;
     Answer := a; Ns := Ns m; Extra := Extra m |}.

(** [Msg.SetReply]: the receiver becomes a reply to [request]. *)
Definition SetReply (m request : Msg) : Msg :=
  let isQuery := Z.eqb (Opcode request) OpcodeQuery in
  {| Id := Id request; Response := true; Opcode := Opcode request;
     Authoritative := Authoritative m; Truncated := Truncated m;
     RecursionDesired :=
       if isQuery then RecursionDesired request else RecursionDesired m;
     CheckingDisabled :=
       if isQuery then CheckingDisabled request else CheckingDisabled m;
     Rcode := RcodeSuccess; Compress := Compress m;
     Question_ :=
       match Question_ request with
       | q :: _ => [q]
       | [] => Question_ m
       end;
     Answer := Answer m; Ns := Ns m; Extra := Extra m |}.

(** [Msg.SetRcode] *)
Definition SetRcode (m request : Msg) (rcode : Z) : Msg :=
  set_Rcode (SetReply m request) rcode.

(** [Msg.SetQuestion]: a fresh id, one question of class INET, and the
    RD bit set. *)
Definition SetQuestion (m : Msg) (id : Z) (z : string) (t : Z) : Msg :=
  {| Id := id; Response := Response m; Opcode := Opcode m;
     Authoritative := Authoritative m; Truncated := Truncated m;
     RecursionDesired := true;
     CheckingDisabled := CheckingDisabled m; Rcode := Rcode m;
     Compress := Compress m;
     Question_ := [ {| QName_ := z; Qtype := t; Qclass := ClassINET |} ];
     Answer := Answer m; Ns := Ns m; Extra := Extra m |}.

End dns.
Import dns.

(** ** The client side: [dns.ResponseWriter] and [request.Request] *)

Inductive Addr : Type :=
| UDPAddr (ip : net_IP)
| TCPAddr (ip : net_IP)
| OtherAddr.

Record ResponseWriter : Type := {
  RemoteAddr : Addr
}.

(** A Request caches its lower-cased name once computed; the empty
    string means not computed yet. *)
Record Request : Type := {
  Req : Msg;
  W : ResponseWriter;
  name : string
}.

(** ** Upstream proxies *)

(** The part of a Proxy the engine reads: its address and the failure
    counter, a [uint32] updated with atomic operations. *)
Record Proxy : Type := {
  addr : string;
  fails : Z
}.

#[export] Instance Proxy_eq_dec : EqDecision Proxy.
Proof. solve_decision. Defined.

(** A pooled connection: its identity and the buffer size set on it. *)
Record Conn : Type := {
  conn_id : nat;
  UDPSize : Z
}.

(** What an exchange with an upstream yields: a reply or an error. *)
Inductive result : Type :=
| Reply (m : Msg)
| Failure (err : error).

(** ** Code outside the plugin's three files

    [Point] and its distance ([float64] with its [<]), the LOC record
    helpers, [plugin.Name.Matches], [Proxy.Down], [truncated], and the
    [request.Request] helpers [Scrub] and [Size] are used by the engine but
    defined elsewhere.  [float64_zero] is the zero value of a [float64]
    variable; [ToLower] and [sprintName] are [strings.ToLower] and the
    presentation form of a [dns.Name]. *)
Class Platform : Type := {
  Point : Type;
  float64 : Type;
  float64_zero : float64;
  flt : float64 -> float64 -> bool;
  GreatCircleDistance : Point -> Point -> float64;
  extractLocationRecord : Msg -> Msg * Point * bool;
  insertLocationRecord : Msg -> RR -> Msg;
  Matches : string -> string -> bool;
  Down : Proxy -> Z -> bool;
  truncated : result -> result;
  Scrub : Request -> Msg -> Msg;
  Size : Request -> Z;
  ToLower : string -> string;
  sprintName : string -> string
}.

(** ** The world a request runs in *)

(** What a run does, in program order: [p.Dial(proto)], [conn.WriteMsg(m)],
    [conn.Close()], [p.Yield(conn)], [p.Healthcheck()], the probe
    [p.client.Exchange(m, addr)], [w.WriteMsg(m)] to the client, and the
    outcome of the exchange with proxy [p] as the forwarding loop keeps it
    in [upstreamErr]. *)
Inductive Event : Type :=
| EvDial (p : Proxy) (proto : string)
| EvSend (c : Conn) (m : Msg)
| EvClose (c : Conn)
| EvYield (p : Proxy) (c : Conn)
| EvHealthcheck (p : Proxy)
| EvExchange (m : Msg) (a : string)
| EvWriteMsg (m : Msg)
| EvUpstream (p : Proxy) (r : result).

(** The environment answers every network operation and every random
    draw; the first argument is the number of operations (draws) made
    before.  [rand_Perm k n] stands for [rand.Perm(n)]. *)
Record Net : Type := {
  dial : nat -> Proxy -> string -> Conn + error;
  writeMsg : nat -> Conn -> Msg -> option error;
  readMsg : nat -> Conn -> Msg + error;
  exchange : nat -> Msg -> string -> option Msg * option error;
  rand_Int : nat -> Z;
  rand_Perm : nat -> nat -> list nat;
  dns_Id : nat -> Z
}.

(** The mutable part: the clocks of the two oracles and the counter of
    the round-robin policy. *)
Record World : Type := {
  now : nat;
  drawn : nat;
  robin : Z
}.

Inductive Res (A : Type) : Type :=
| Ok (a : A)
| Panic (p : panic).
Arguments Ok {A} a.
Arguments Panic {A} p.

(** A computation returns a value or panics, leaves a world, and adds
    its events to the log. *)
Definition M (A : Type) : Type := World -> Res A * World * list Event.

Definition ret {A} (a : A) : M A := fun w => (Ok a, w, []).

Definition bind {A B} (c : M A) (k : A -> M B) : M B :=
  fun w =>
    match c w with
    | (Ok a, w', evs) =>
        let '(r, w'', evs') := k a w' in (r, w'', evs ++ evs')
    | (Panic p, w', evs) => (Panic p, w', evs)
    end.

Definition throw {A} (p : panic) : M A := fun w => (Panic p, w, []).

Declare Scope go_scope.
Delimit Scope go_scope with go.
Notation "x <~ c ;; k" := (bind c (fun x : _ => k))
  (at level 20, c at level 99, k at level 200, only parsing) : go_scope.
Notation "' pat <~ c ;; k" := (bind c (fun x : _ => let ' pat := x in k))
  (at level 20, pat pattern, c at level 99, k at level 200, only parsing)
  : go_scope.
Local Open Scope go_scope.

Definition emit (ev : Event) : M unit := fun w => (Ok tt, w, [ev]).

Definition tick : M nat :=
  fun w => (Ok (now w),
            {| now := S (now w); drawn := drawn w; robin := robin w |}, []).

Definition draw : M nat :=
  fun w => (Ok (drawn w),
            {| now := now w; drawn := S (drawn w); robin := robin w |}, []).

(** [p[i]] on a slice. *)
Definition index {A} (p : list A) (i : nat) : M A :=
  match p !! i with
  | Some x => ret x
  | None => throw IndexOutOfRange
  end.

(** [atomic.AddUint32(&r.robin, delta)] returns the new value. *)
Definition atomic_AddUint32_robin (delta : Z) : M Z :=
  fun w =>
    let v := uint32 (robin w + delta) in
    (Ok v, {| now := now w; drawn := drawn w; robin := v |}, []).

(** [a % b] on unsigned integers. *)
Definition go_rem (a b : Z) : M Z :=
  if Z.eqb b 0 then throw DivideByZero else ret (a mod b)%Z.

Section Engine.
Context `{P : Platform}.
Variable net : Net.

(** ** [request.Request] accessors (coredns/request) *)

(** [Name]: the cached name if there is one, else the lower-cased name
    of the first question, ["."] without a question. *)
Definition Name (state : Request) : string :=
  if negb (String.eqb (name state) "") then name state
  else match Question_ (Req state) with
       | [] => "."
       | q :: _ => ToLower (sprintName (QName_ q))
       end.

(** The state after a call of [Name] through a pointer. *)
Definition cache_Name (state : Request) : Request :=
  {| Req := Req state; W := W state; name := Name state |}.

Definition QName (state : Request) : string :=
  match Question_ (Req state) with
  | [] => "."
  | q :: _ => sprintName (QName_ q)
  end.

Definition QClass (state : Request) : Z :=
  match Question_ (Req state) with
  | [] => 0
  | q :: _ => Qclass q
  end.

Definition QType (state : Request) : Z :=
  match Question_ (Req state) with
  | [] => 0
  | q :: _ => Qtype q
  end.

(** [Proto]: the transport of the client, udp unless it is a TCP address. *)
Definition Proto (state : Request) : string :=
  match RemoteAddr (W state) with
  | UDPAddr _ => "udp"
  | TCPAddr _ => "tcp"
  | OtherAddr => "udp"
  end.

(** [Family]: 1 when the client's address is IPv4, 2 otherwise. *)
Definition Family (state : Request) : Z :=
  let a := match RemoteAddr (W state) with
           | UDPAddr ip => ip
           | TCPAddr ip => ip
           | OtherAddr => []
           end in
  match To4 a with
  | [] => 2
  | _ :: _ => 1
  end.

(** [Match]: the reply is a response carrying exactly the question asked. *)
Definition Match (state : Request) (reply : Msg) : bool :=
  match Question_ reply with
  | [q] =>
      Response reply
      && String.eqb (ToLower (QName_ q)) (Name state)
      && Z.eqb (Qtype q) (QType state)
  | _ => false
  end.

(** [ErrorMessage]: a reply to the request with the given rcode. *)
Definition ErrorMessage (state : Request) (rcode : Z) : Msg :=
  SetRcode new_Msg (Req state) rcode.

(** [w.WriteMsg(m)]: the message goes to the client. *)
Definition WriteMsg (w : ResponseWriter) (m : Msg) : M unit :=
  emit (EvWriteMsg m).

(** ** [connect.go] *)

(** [Proxy.Dial], [Conn.WriteMsg] and [Conn.ReadMsg] are answered by the
    environment; [Close] and [Proxy.Yield] are recorded. *)
Definition Dial (p : Proxy) (proto : string) : M (Conn + error) :=
  t <~ tick ;;
  _ <~ emit (EvDial p proto) ;;
  ret (dial net t p proto).

Definition Conn_WriteMsg (conn : Conn) (m : Msg) : M (option error) :=
  t <~ tick ;;
  _ <~ emit (EvSend conn m) ;;
  ret (writeMsg net t conn m).

Definition Conn_ReadMsg (conn : Conn) : M (Msg + error) :=
  t <~ tick ;;
  ret (readMsg net t conn).

Definition Close (conn : Conn) : M unit := emit (EvClose conn).

Definition Yield (p : Proxy) (conn : Conn) : M unit := emit (EvYield p conn).

(** [Proxy.connect]; the deadlines set on the connection bound the two
    calls that follow them and leave no other trace. *)
Definition connect (p : Proxy) (state : Request) (forceTCP : bool)
  : M result :=
  let proto := if forceTCP then "tcp"%string else Proto state in
  d <~ Dial p proto ;;
  match d with
  | inr err => ret (Failure err)
  | inl conn =>
      let size := uint16 (Size state) in
      let conn := {| conn_id := conn_id conn;
                     UDPSize := if (size <? 512)%Z then 512%Z else size |} in
      werr <~ Conn_WriteMsg conn (Req state) ;;
      match werr with
      | Some err =>
          _ <~ Close conn ;;
          ret (Failure err)
      | None =>
          r <~ Conn_ReadMsg conn ;;
          match r with
          | inr err =>
              _ <~ Close conn ;;
              ret (Failure err)
          | inl m =>
              _ <~ Yield p conn ;;
              ret (Reply m)
          end
      end
  end.

(** ** The health probe *)

Definition Exchange (m : Msg) (a : string)
  : M (option Msg * option error) :=
  t <~ tick ;;
  _ <~ emit (EvExchange m a) ;;
  ret (exchange net t m a).

Definition sendHealthCheck (p : Proxy) : M (option error) :=
  t <~ draw ;;
  let hcping := SetQuestion new_Msg (dns_Id net t) "." TypeNS in
  '(m, err) <~ Exchange hcping (addr p) ;;
  ret (match err, m with
       | Some _, Some m =>
           if Response m || Z.eqb (Opcode m) OpcodeQuery then None else err
       | _, _ => err
       end).

(** [Check] returns the proxy with its counter updated, and the error. *)
Definition Check (p : Proxy) : M (Proxy * option error) :=
  err <~ sendHealthCheck p ;;
  match err with
  | Some e => ret ({| addr := addr p; fails := uint32 (fails p + 1) |}, Some e)
  | None => ret ({| addr := addr p; fails := 0 |}, None)
  end.

(** [Proxy.Healthcheck] starts a probe in the background. *)
Definition Healthcheck (p : Proxy) : M unit := emit (EvHealthcheck p).

(** ** Selection policies *)

Inductive Policy : Type :=
| random
| roundRobin.

(** [rnd[i] = p[p1]] for every entry of the permutation, in order. *)
Fixpoint permute (p : list Proxy) (perms : list nat) : M (list Proxy) :=
  match perms with
  | [] => ret []
  | p1 :: perms' =>
      x <~ index p p1 ;;
      rnd <~ permute p perms' ;;
      ret (x :: rnd)
  end.

Definition random_List (p : list Proxy) : M (list Proxy) :=
  match p with
  | [_] => ret p
  | [p0; p1] =>
      t <~ draw ;;
      if (rand_Int net t mod 2 =? 0)%Z then ret [p1; p0] else ret p
  | _ =>
      t <~ draw ;;
      permute p (rand_Perm net t (length p))
  end.

Definition roundRobin_List (p : list Proxy) : M (list Proxy) :=
  let poolLen := uint32 (Z.of_nat (length p)) in
  n <~ atomic_AddUint32_robin 1 ;;
  i <~ go_rem n poolLen ;;
  let i := Z.to_nat i in
  p_i <~ index p i ;;
  ret ([p_i] ++ take i p ++ drop (S i) p).

Definition Policy_List (pol : Policy) (p : list Proxy) : M (list Proxy) :=
  match pol with
  | random => random_List p
  | roundRobin => roundRobin_List p
  end.

(** ** [edge.go] *)

Record Site : Type := {
  IP : net_IP;
  GeoCoords : Point
}.

(** The fields of [Edge] the engine reads.  A [Set] of sites is the list
    of its members in the order a [range] over it visits them; the table
    maps a service to such a set. *)
Record Edge : Type := {
  table : gmap string (list Site);
  ip : net_IP;
  geoCoords : Point;
  locRR : RR;
  services : gset string;
  proxies : list Proxy;
  policy : Policy;
  baseDomain : string;
  ignored : list string;
  maxUpstreamFails : Z;
  forceTCP : bool
}.

(** Modelled from the spec: [ConcurrentServiceTable.Lookup] is not among
    the sources; an absent key yields the empty set and [false]. *)
Definition Lookup (t : gmap string (list Site)) (service : string)
  : list Site * bool :=
  match t !! service with
  | Some sites => (sites, true)
  | None => ([], false)
  end.

(** Modelled from the spec: [Set.Contains] is not among the sources; it
    is the membership test of the local service set. *)
Definition Contains (s : gset string) (x : string) : bool :=
  bool_decide (x ∈ s).

Definition NumUpstreams (e : Edge) : nat := length (proxies e).

Definition trimTrailingDot (s : string) : string :=
  if String.eqb s "" then s
  else match String.get (String.length s - 1) s with
       | Some c =>
           if negb (Ascii.eqb c ".") then s
           else String.substring 0 (String.length s - 1) s
       | None => s
       end.

Fixpoint allowed_by (ignored : list string) (name : string) : bool :=
  match ignored with
  | [] => true
  | ignore :: rest =>
      if Matches ignore name then false else allowed_by rest name
  end.

Definition isAllowedDomain (e : Edge) (name : string) : bool :=
  if String.eqb name (baseDomain e) then true
  else allowed_by (ignored e) name.

Definition match_ (e : Edge) (state : Request) : bool :=
  if negb (Matches (baseDomain e) (Name state))
     || negb (isAllowedDomain e (Name state))
  then false
  else true.

Definition list_ (e : Edge) : M (list Proxy) :=
  Policy_List (policy e) (proxies e).

(** The loop of [findClosestToPoint] with its three variables. *)
Fixpoint closest_from (p : Point) (edgeSiteSet : list Site)
  (closest : net_IP) (minDist : float64) (first : bool) : net_IP :=
  match edgeSiteSet with
  | [] => closest
  | edgeSite :: rest =>
      let dist := GreatCircleDistance p (GeoCoords edgeSite) in
      if first || flt dist minDist
      then closest_from p rest (IP edgeSite) dist false
      else closest_from p rest closest minDist first
  end.

Definition findClosestToPoint (edgeSiteSet : list Site) (p : Point)
  : net_IP :=
  closest_from p edgeSiteSet [] float64_zero true.

Definition writeAuthoritativeResponse (res : Msg) (state : Request)
  (ip : net_IP) : M unit :=
  let res := SetReply res (Req state) in
  let res := set_Compress (set_Authoritative res true) true in
  let rr :=
    if (Family state =? 1)%Z then
      RR_A {| dns.Name := QName state; Rrtype := TypeA; Class := QClass state;
              Ttl := 0; Rdlength := 0 |} (To4 ip)
    else if (Family state =? 2)%Z then
      RR_AAAA {| dns.Name := QName state; Rrtype := TypeAAAA;
                 Class := QClass state; Ttl := 0; Rdlength := 0 |} ip
    else RR_nil in
  let res := set_Answer res [rr] in
  WriteMsg (W state) res.

(** How [ServeDNS] ends: with a return code and an error, or by handing
    the message to [plugin.NextOrFailure]. *)
Inductive Verdict : Type :=
| Return (rcode : Z) (err : option error)
| NextOrFailure (r : Msg).

(** The statements after the forwarding loop of [ServeDNS]. *)
Definition after_loop (upstreamErr : option error) (r : Msg) : Verdict :=
  match upstreamErr with
  | Some err => Return RcodeServerFailure (Some err)
  | None => NextOrFailure r
  end.

(** The inner [for] of [ServeDNS]: [stop] is set by the first EOF, so a
    second pass always leaves the loop. *)
Definition connect_retry (proxy : Proxy) (state : Request) (forceTCP : bool)
  : M result :=
  r <~ connect proxy state forceTCP ;;
  match r with
  | Failure err =>
      if is_EOF err then connect proxy state forceTCP else ret r
  | Reply _ => ret r
  end.

(** One pass of the forwarding loop of [ServeDNS] from the first
    [connect] on; [continue_] is the rest of the loop. *)
Definition serve_attempt (e : Edge) (state : Request) (proxy : Proxy)
  (fails : nat) (continue_ : option error -> M Verdict) : M Verdict :=
  r <~ connect_retry proxy state (forceTCP e) ;;
  let r := truncated r in
  _ <~ emit (EvUpstream proxy r) ;;
  match r with
  | Failure err =>
      _ <~ (if (maxUpstreamFails e =? 0)%Z then ret tt
            else Healthcheck proxy) ;;
      if (fails <? length (proxies e))%nat then continue_ (Some err)
      else ret (after_loop (Some err) (Req state))
  | Reply res =>
      if negb (Match state res) then
        _ <~ WriteMsg (W state) (ErrorMessage state RcodeFormatError) ;;
        ret (Return RcodeSuccess None)
      else
        let res := set_Compress res true in
        let res := Scrub state res in
        _ <~ WriteMsg (W state) res ;;
        ret (Return RcodeSuccess None)
  end.

Fixpoint serve_loop (e : Edge) (state : Request) (l : list Proxy)
  (fails : nat) (upstreamErr : option error) : M Verdict :=
  match l with
  | [] => ret (after_loop upstreamErr (Req state))
  | proxy :: rest =>
      if Down proxy (maxUpstreamFails e) then
        let fails := S fails in
        if (fails <? length (proxies e))%nat
        then serve_loop e state rest fails upstreamErr
        else
          r <~ random_List (proxies e) ;;
          proxy <~ index r 0 ;;
          serve_attempt e state proxy fails (serve_loop e state rest fails)
      else serve_attempt e state proxy fails (serve_loop e state rest fails)
  end.

Definition ServeDNS (e : Edge) (w : ResponseWriter) (r : Msg) : M Verdict :=
  let state := {| Req := r; W := w; name := "" |} in
  if negb (match_ e state) then ret (NextOrFailure r)
  else
    let res := new_Msg in
    let '(r, loc, locFound) := extractLocationRecord r in
    let state := {| Req := r; W := w; name := "" |} in
    let requestedService := trimTrailingDot (Name state) in
    let state := cache_Name state in
    if negb locFound && Contains (services e) requestedService then
      _ <~ writeAuthoritativeResponse res state (ip e) ;;
      ret (Return RcodeSuccess None)
    else
      let '(edgeSites, entryFound) := Lookup (table e) requestedService in
      if entryFound && (0 <? length edgeSites)%nat then
        let closest :=
          if locFound then findClosestToPoint edgeSites loc
          else findClosestToPoint edgeSites (geoCoords e) in
        _ <~ writeAuthoritativeResponse res state closest ;;
        ret (Return RcodeSuccess None)
      else if (NumUpstreams e =? 0)%nat then ret (NextOrFailure r)
      else
        let r := insertLocationRecord r (locRR e) in
        let state := {| Req := r; W := w; name := name state |} in
        l <~ list_ e ;;
        serve_loop e state l 0 None.

(** ** [lookup.go] *)

Definition forward_attempt (e : Edge) (state : Request) (proxy : Proxy)
  (fails : nat) (continue_ : option error -> M (option Msg * option error))
  : M (option Msg * option error) :=
  r <~ connect proxy state (forceTCP e) ;;
  let r := truncated r in
  _ <~ emit (EvUpstream proxy r) ;;
  match r with
  | Failure err =>
      if (fails <? length (proxies e))%nat then continue_ (Some err)
      else ret (None, Some err)
  | Reply m =>
      if negb (Match state m)
      then ret (Some (ErrorMessage state RcodeFormatError), None)
      else ret (Some m, None)
  end.

Fixpoint forward_loop (e : Edge) (state : Request) (l : list Proxy)
  (fails : nat) (upstreamErr : option error)
  : M (option Msg * option error) :=
  match l with
  | [] =>
      match upstreamErr with
      | Some err => ret (None, Some err)
      | None => ret (None, Some errNoHealthy)
      end
  | proxy :: rest =>
      if Down proxy (maxUpstreamFails e) then
        let fails := S fails in
        if (fails <? length (proxies e))%nat
        then forward_loop e state rest fails upstreamErr
        else
          r <~ list_ e ;;
          proxy <~ index r 0 ;;
          forward_attempt e state proxy fails
            (forward_loop e state rest fails)
      else
        forward_attempt e state proxy fails (forward_loop e state rest fails)
  end.

(** A nil receiver is [None]. *)
Definition Forward (e : option Edge) (state : Request)
  : M (option Msg * option error) :=
  match e with
  | None => ret (None, Some errNoEdge)
  | Some e =>
      l <~ list_ e ;;
      forward_loop e state l 0 None
  end.

(** The record [writeAuthoritativeResponse] puts in the answer section. *)
Definition answer_for (state : Request) (ip : net_IP) : RR :=
  if (Family state =? 1)%Z then
    RR_A {| dns.Name := QName state; Rrtype := TypeA; Class := QClass state;
            Ttl := 0; Rdlength := 0 |} (To4 ip)
  else
    RR_AAAA {| dns.Name := QName state; Rrtype := TypeAAAA;
               Class := QClass state; Ttl := 0; Rdlength := 0 |} ip.

Definition distance_to (p : Point) (s : Site) : float64 :=
  GreatCircleDistance p (GeoCoords s).


(** The message [ServeDNS] writes to the client for an upstream reply. *)
Definition reply_for (state : Request) (m : Msg) : Msg :=
  if Match state m then Scrub state (set_Compress m true)
  else ErrorMessage state RcodeFormatError.

(** The proxies of a list that [Down] reports. *)
Definition downs (e : Edge) (l : list Proxy) : nat :=
  length (List.filter (fun q => Down q (maxUpstreamFails e)) l).

(** The message [Forward] returns for an upstream reply. *)
Definition forward_for (state : Request) (m : Msg) : Msg :=
  if Match state m then m else ErrorMessage state RcodeFormatError.

(** ** Which step answers a request *)

(** The request passes the filter, is no local hit, finds no site in the
    table, and there is an upstream: it reaches the forwarding loop. *)
Definition forwards (e : Edge) (w : ResponseWriter) (r : Msg) : bool :=
  let '(r1, _, locFound) := extractLocationRecord r in
  let requestedService :=
    trimTrailingDot (Name {| Req := r1; W := w; name := "" |}) in
  let '(edgeSites, entryFound) := Lookup (table e) requestedService in
  match_ e {| Req := r; W := w; name := "" |}
  && negb (negb locFound && Contains (services e) requestedService)
  && negb (entryFound && (0 <? length edgeSites)%nat)
  && negb (NumUpstreams e =? 0)%nat.

(** The request state the forwarding loop works on: the location record
    of the client removed, the one of this cluster inserted. *)
Definition forwarded (e : Edge) (w : ResponseWriter) (r : Msg) : Request :=
  let '(r1, _, _) := extractLocationRecord r in
  let state := cache_Name {| Req := r1; W := w; name := "" |} in
  {| Req := insertLocationRecord r1 (locRR e); W := w; name := name state |}.

End Engine.

(** ** Reading the log *)

Definition dialled (evs : list Event) : list Proxy :=
  omap (fun ev => match ev with EvDial p _ => Some p | _ => None end) evs.

Definition upstreams (evs : list Event) : list (Proxy * result) :=
  omap (fun ev => match ev with EvUpstream p r => Some (p, r) | _ => None end)
       evs.

Definition written (evs : list Event) : list Msg :=
  omap (fun ev => match ev with EvWriteMsg m => Some m | _ => None end) evs.

Definition probes (evs : list Event) : list Proxy :=
  omap (fun ev => match ev with EvHealthcheck p => Some p | _ => None end)
       evs.

Definition closes (c : Conn) (ev : Event) : bool :=
  match ev with
  | EvClose c' => Nat.eqb (conn_id c') (conn_id c)
  | _ => false
  end.

Definition yields (c : Conn) (ev : Event) : bool :=
  match ev with
  | EvYield _ c' => Nat.eqb (conn_id c') (conn_id c)
  | _ => false
  end.

Definition disposes (ev : Event) : bool :=
  match ev with
  | EvClose _ | EvYield _ _ => true
  | _ => false
  end.


Definition is_Failure (r : result) : bool :=
  match r with
  | Failure _ => true
  | Reply _ => false
  end.

(** The value of [upstreamErr] after the recorded outcomes, [u] being
    its value before. *)
Definition recorded (u : option error) (ups : list (Proxy * result))
  : option error :=
  match last ups with
  | Some (_, Failure err) => Some err
  | Some (_, Reply _) => None
  | None => u
  end.

(** The outcome of a traversal that started with [upstreamErr = u] and
    recorded [ups], as the two entry points present it.  [ServeDNS] writes
    to the client and returns a verdict; [Forward] returns a message or an
    error to its caller. *)
Definition serve_result `{P : Platform} (state : Request) (u : option error)
  (ups : list (Proxy * result)) : Verdict * list Msg :=
  match last ups with
  | Some (_, Reply m) => (Return RcodeSuccess None, [reply_for state m])
  | _ => (after_loop (recorded u ups) (Req state), [])
  end.

Definition forward_result `{P : Platform} (state : Request) (u : option error)
  (ups : list (Proxy * result)) : option Msg * option error :=
  match last ups with
  | Some (_, Reply m) => (Some (forward_for state m), None)
  | _ => (None, Some (match recorded u ups with
                      | Some err => err
                      | None => errNoHealthy
                      end))
  end.

(** No exchange with an upstream ends in EOF. *)
Definition no_EOF `{P : Platform} (net : Net) (state : Request)
  (forceTCP : bool) : Prop :=
  forall q w, (connect net q state forceTCP w).1.1 <> Ok (Failure io_EOF).

(** Two runs went the same way: same final world, same proxies dialled in
    the same order, same outcomes recorded, and both returned or both
    panicked alike. *)
Definition same_way {A B} (f : Res A * World * list Event)
  (s : Res B * World * list Event) : Prop :=
  f.1.2 = s.1.2
  /\ dialled f.2 = dialled s.2
  /\ upstreams f.2 = upstreams s.2
  /\ match f.1.1, s.1.1 with
     | Ok _, Ok _ => True
     | Panic a, Panic b => a = b
     | _, _ => False
     end.

(** ** The random source as a sample space *)






(** [rand.Perm(n)] returns a permutation of [0, n). *)
Definition fair_source (net : Net) : Prop :=
  forall k n, Permutation (rand_Perm net k n) (seq 0 n).

(** * A concrete platform

    An instance of [Platform] on which the engine runs by computation:
    names without escapes, points on an integer grid with the squared
    planar distance, and the helpers that are not among the sources in the
    form the specification gives them. *)

Definition lower_ascii (c : ascii) : ascii :=
  let n := nat_of_ascii c in
  if (65 <=? n)%nat && (n <=? 90)%nat then ascii_of_nat (n + 32) else c.

Fixpoint lower (s : string) : string :=
  match s with
  | EmptyString => EmptyString
  | String c s' => String (lower_ascii c) (lower s')
  end.

(** The labels of a name, the root having none. *)
Fixpoint labels_from (s cur : string) : list string :=
  match s with
  | EmptyString => if String.eqb cur "" then [] else [cur]
  | String c s' =>
      if Ascii.eqb c "." then cur :: labels_from s' ""
      else labels_from s' (cur ++ String c "")
  end.

Definition labels (s : string) : list string :=
  if String.eqb s "." then [] else labels_from s "".

Fixpoint starts_with (pre l : list string) : bool :=
  match pre, l with
  | [], _ => true
  | a :: pre', b :: l' => String.eqb a b && starts_with pre' l'
  | _ :: _, [] => false
  end.

(** [dns.IsSubDomain]: the labels of the parent end those of the child. *)
Definition IsSubDomain (parent child : string) : bool :=
  starts_with (rev (labels parent)) (rev (labels child)).

(** [plugin.Name.Matches] *)
Definition Name_Matches (n child : string) : bool :=
  String.eqb n child || IsSubDomain n child.

Definition TypeLOC : Z := 29.

Definition decode_LOC (rdata : list byte) : Z * Z :=
  match rdata with
  | [lat; lon] => (Z.of_nat (Byte.to_nat lat), Z.of_nat (Byte.to_nat lon))
  | _ => (0, 0)%Z
  end.

(** Modelled from the spec: [extractLocationRecord] is not among the
    sources; it scans the additional section for a location record,
    returns its point and removes it. *)
Fixpoint extract_LOC (extra : list RR) : list RR * (Z * Z) * bool :=
  match extra with
  | [] => ([], (0, 0)%Z, false)
  | rr :: rest =>
      match rr with
      | RR_other hdr rdata =>
          if (Rrtype hdr =? TypeLOC)%Z then (rest, decode_LOC rdata, true)
          else let '(rest', p, found) := extract_LOC rest in
               (rr :: rest', p, found)
      | _ => let '(rest', p, found) := extract_LOC rest in
             (rr :: rest', p, found)
      end
  end.

Definition set_Extra (m : Msg) (x : list RR) : Msg :=
  {| Id := Id m; Response := Response m; Opcode := Opcode m;
     Authoritative := Authoritative m; Truncated := Truncated m;
     RecursionDesired := RecursionDesired m;
     CheckingDisabled := CheckingDisabled m; Rcode := Rcode m;
     Compress := Compress m; Question_ := Question_ m;
     Answer := Answer m; Ns := Ns m; Extra := x |}.

Definition extract_location (r : Msg) : Msg * (Z * Z) * bool :=
  let '(extra, p, found) := extract_LOC (Extra r) in
  (set_Extra r extra, p, found).

(** Modelled from the spec: [insertLocationRecord] is not among the
    sources; it appends the record to the additional section. *)
Definition insert_location (r : Msg) (rr : RR) : Msg :=
  set_Extra r (Extra r ++ [rr]).

(** Modelled from the spec: [Proxy.Down] is not among the sources; it
    reports whether the failure counter has reached the threshold, and a
    threshold of zero means always up. *)
Definition Down_spec (p : Proxy) (threshold : Z) : bool :=
  if (threshold =? 0)%Z then false else (threshold <=? fails p)%Z.

Definition planar_distance (a b : Z * Z) : Z :=
  ((fst a - fst b) * (fst a - fst b) + (snd a - snd b) * (snd a - snd b))%Z.

(** [truncated] hands on every result other than the error
    [dns.ErrTruncated], and [Scrub] every reply that fits the client's
    buffer; the scenarios have no such error and only small replies, so
    both are the identity here. *)
#[export] Instance grid : Platform :=
  {| Point := Z * Z;
     float64 := Z;
     float64_zero := 0%Z;
     flt := Z.ltb;
     GreatCircleDistance := planar_distance;
     extractLocationRecord := extract_location;
     insertLocationRecord := insert_location;
     Matches := Name_Matches;
     Down := Down_spec;
     truncated := fun r => r;
     Scrub := fun _ m => m;
     Size := fun _ => 512%Z;
     ToLower := lower;
     sprintName := fun s => s |}.

(** ** Scenarios *)

Definition query (qname : string) (qtype : Z) : Msg :=
  SetQuestion new_Msg 7 qname qtype.

Definition udp_client : ResponseWriter :=
  {| RemoteAddr := UDPAddr [x0a; x00; x00; x01] |}.

Definition start : World := {| now := 0; drawn := 0; robin := 0 |}.

(** An environment in which every dial fails. *)
Definition unreachable : Net :=
  {| dial := fun _ _ _ => inr (errOther "dial timeout");
     writeMsg := fun _ _ _ => None;
     readMsg := fun _ _ => inr (errOther "i/o timeout");
     exchange := fun _ _ _ => (None, Some (errOther "i/o timeout"));
     rand_Int := fun _ => 0%Z;
     rand_Perm := fun _ n => seq 0 n;
     dns_Id := fun _ => 0%Z |}.

Definition own_LOC : RR :=
  RR_other {| dns.Name := "."; Rrtype := TypeLOC; Class := ClassINET;
              Ttl := 0; Rdlength := 2 |} [x37; x0d].

(** A cluster at (55, 13) with the default limit of two failures. *)
Definition cluster (base : string) (ign : list string) (svc : gset string)
  (tbl : gmap string (list (@Site grid))) (own : net_IP)
  (ups : list Proxy) (pol : Policy) : @Edge grid :=
  {| table := tbl; ip := own; geoCoords := (55, 13)%Z; locRR := own_LOC;
     services := svc; proxies := ups; policy := pol; baseDomain := base;
     ignored := ign; maxUpstreamFails := 2; forceTCP := false |}.

Definition ip_10_0_0_9 : net_IP := [x0a; x00; x00; x09].

Definition ip_2001_db8__1 : net_IP :=
  [x20; x01; x0d; xb8; x00; x00; x00; x00;
   x00; x00; x00; x00; x00; x00; x00; x01].

Definition site_1_1_1_1 : @Site grid :=
  {| IP := [x01; x01; x01; x01]; GeoCoords := (0, 0)%Z |}.

Definition site_2_2_2_2 : @Site grid :=
  {| IP := [x02; x02; x02; x02]; GeoCoords := (60, 15)%Z |}.

(** One local service, and the base domain also listed among the
    ignored names. *)
Definition edge_org : @Edge grid :=
  cluster "example.org." [ "example.org."%string ]
          {[ "example.org"%string ]} ∅ ip_10_0_0_9 [] random.

(** The service [foo] runs here; the cluster's own address is IPv6. *)
Definition edge_v6 : @Edge grid :=
  cluster "." [] {[ "foo"%string ]} ∅ ip_2001_db8__1 [] random.

(** The service [foo] runs here and at another site. *)
Definition edge_foo : @Edge grid :=
  cluster "." [] {[ "foo"%string ]}
          {[ "foo"%string := [site_2_2_2_2] ]} ip_10_0_0_9 [] random.



(** No service, no table, no upstream, and the round-robin policy. *)
Definition edge_rr : @Edge grid :=
  cluster "." [] ∅ ∅ ip_10_0_0_9 [] roundRobin.

Definition proxy_a : Proxy := {| addr := "10.1.0.1:53"; fails := 0 |}.
Definition proxy_b : Proxy := {| addr := "10.1.0.2:53"; fails := 5 |}.
Definition proxy_c : Proxy := {| addr := "10.1.0.3:53"; fails := 2 |}.

(** Nothing local, nothing in the table, one healthy upstream. *)
Definition edge_one : @Edge grid :=
  cluster "." [] ∅ ∅ ip_10_0_0_9 [proxy_a] random.

(** Two upstreams, the first of them down. *)
Definition edge_two : @Edge grid :=
  cluster "." [] ∅ ∅ ip_10_0_0_9 [proxy_b; proxy_a] random.


(** The reply of an upstream to the question for [bar.]. *)
Definition answer_bar : Msg :=
  set_Answer (SetReply new_Msg (query "bar." TypeA))
    [ RR_A {| dns.Name := "bar."; Rrtype := TypeA; Class := ClassINET;
              Ttl := 30; Rdlength := 4 |} [x0a; x02; x00; x07] ].

(** An upstream whose pooled connection is stale: the first read, at
    time 2, ends in EOF; every later exchange succeeds. *)
Definition stale_pool : Net :=
  {| dial := fun t _ _ => inl {| conn_id := t; UDPSize := 0 |};
     writeMsg := fun _ _ _ => None;
     readMsg := fun t _ => if (t =? 2)%nat then inr io_EOF else inl answer_bar;
     exchange := fun _ _ _ => (Some answer_bar, None);
     rand_Int := fun _ => 0%Z;
     rand_Perm := fun _ n => seq 0 n;
     dns_Id := fun _ => 0%Z |}.

(** An upstream that answers another question than the one asked. *)
Definition confused : Net :=
  {| dial := fun t _ _ => inl {| conn_id := t; UDPSize := 0 |};
     writeMsg := fun _ _ _ => None;
     readMsg := fun _ _ => inl (SetReply new_Msg (query "baz." TypeA));
     exchange := fun _ _ _ => (None, Some (errOther "i/o timeout"));
     rand_Int := fun _ => 0%Z;
     rand_Perm := fun _ n => seq 0 n;
     dns_Id := fun _ => 0%Z |}.

(** Two upstreams, both down, under the round-robin policy. *)
Definition edge_dead_rr : @Edge grid :=
  cluster "." [] ∅ ∅ ip_10_0_0_9 [proxy_b; proxy_c] roundRobin.

(** * The rest of the plugin

    The constructor [New] and [Edge.Lookup] of [lookup.go], and more ways
    to read the log of a run. *)

(** The messages a run sends upstream, each with its connection. *)
Definition sent (evs : list Event) : list (Conn * Msg) :=
  omap (fun ev => match ev with EvSend c m => Some (c, m) | _ => None end) evs.

(** The transports a run dials with. *)
Definition protos (evs : list Event) : list string :=
  omap (fun ev => match ev with EvDial _ proto => Some proto | _ => None end)
       evs.

(** The proxies whose attempt ended in an error, in order. *)
Definition failed (ups : list (Proxy * result)) : list Proxy :=
  omap (fun a : Proxy * result => if is_Failure a.2 then Some a.1 else None)
       ups.

Definition defaultMaxUpstreamFails : Z := 2.

(** [New], with the fields of [Edge] modelled here.  The fields it does
    not mention have their zero value, [origin] being the zero value of a
    [Point]; [NewConcurrentServiceTable] and [NewSet] are not among the
    sources and are taken to return the empty table and the empty set. *)
Definition New `{P : Platform} (origin : Point) : Edge :=
  {| table := ∅; ip := []; geoCoords := origin; locRR := RR_nil;
     services := ∅; proxies := []; policy := random; baseDomain := ".";
     ignored := []; maxUpstreamFails := defaultMaxUpstreamFails;
     forceTCP := false |}.

(** The edge [e] with [s] for its set of local services. *)
Definition with_services `{P : Platform} (e : Edge) (s : gset string) : Edge :=
  {| table := table e; ip := ip e; geoCoords := geoCoords e;
     locRR := locRR e; services := s; proxies := proxies e;
     policy := policy e; baseDomain := baseDomain e; ignored := ignored e;
     maxUpstreamFails := maxUpstreamFails e; forceTCP := forceTCP e |}.

Section Callers.
Context `{P : Platform}.
Variable net : Net.

(** [request.Request.SizeAndDo] (coredns/request) carries the EDNS0
    options of the request over to a message; it is defined elsewhere. *)
Variable SizeAndDo : Request -> Msg -> Msg.

(** [Edge.Lookup]; a nil receiver is [None]. *)
Definition Edge_Lookup (e : option Edge) (state : Request) (name : string)
  (typ : Z) : M (option Msg * option error) :=
  match e with
  | None => ret (None, Some errNoEdge)
  | Some _ =>
      t <~ draw ;;
      let req := SetQuestion new_Msg (dns_Id net t) name typ in
      let req := SizeAndDo state req in
      let state2 := {| Req := req; W := W state; name := "" |} in
      Forward net e state2
  end.

(** [k] calls of a policy on the same proxies, one after the other. *)
Fixpoint listings (pol : Policy) (p : list Proxy) (k : nat)
  : M (list (list Proxy)) :=
  match k with
  | 0 => ret []
  | S k' =>
      l <~ Policy_List net pol p ;;
      ls <~ listings pol p k' ;;
      ret (l :: ls)
  end.

End Callers.

(** ** More scenarios *)

(** Two clusters that ignore the same names, listed differently. *)
Definition edge_ignore_ab : @Edge grid :=
  cluster "." [ "a."%string; "b."%string ] ∅ ∅ ip_10_0_0_9 [] random.

Definition edge_ignore_ba : @Edge grid :=
  cluster "." [ "b."%string; "a."%string; "a."%string ] ∅ ∅ ip_10_0_0_9 []
          random.

(** A request as a downstream cluster forwards it, with its location
    record. *)
Definition located_query (qname : string) (qtype : Z) : Msg :=
  set_Extra (query qname qtype) [own_LOC].

(** Three upstreams. *)
Definition three_proxies : list Proxy := [proxy_a; proxy_b; proxy_c].

(** A [SizeAndDo] for a request without EDNS0 options, which leaves the
    message as it is. *)
Definition no_options : Request -> Msg -> Msg := fun _ m => m.



(** * The traversal of the proxies, told by its exchanges

    What the forwarding loops of [ServeDNS] and [Forward] do is stated
    below against what the environment answers.  An exchange is what a loop
    does with one proxy: [Proxy.connect] (in [ServeDNS] once more after an
    EOF) and [truncated].  The definitions of this part are not taken from
    the source: they name the proxies a loop turns to and the outcomes of
    the exchanges with them, for the statements to speak about. *)

(** What a traversal ends with: the reply of an upstream, or no reply and
    the error remembered, if any. *)
Inductive Outcome : Type :=
| Got (m : Msg)
| Gave_up (u : option error).

(** The error remembered after exchanges with the outcomes [rs], [u]
    being the one remembered before. *)
Definition remembered (u : option error) (rs : list result) : option error :=
  match last rs with
  | Some (Failure err) => Some err
  | Some (Reply _) => None
  | None => u
  end.

Section Traversal.
Context `{P : Platform}.
Variable net : Net.

Definition serve_exchange (e : Edge) (state : Request) (q : Proxy)
  : M result :=
  r <~ connect_retry net q state (forceTCP e) ;;
  ret (truncated r).

Definition forward_exchange (e : Edge) (state : Request) (q : Proxy)
  : M result :=
  r <~ connect net q state (forceTCP e) ;;
  ret (truncated r).

(** The exchanges with the proxies [qs], one after the other, each from
    the world the one before left, whatever their outcomes. *)
Fixpoint exchanges (x : Proxy -> M result) (qs : list Proxy)
  : M (list result) :=
  match qs with
  | [] => ret []
  | q :: qs' =>
      r <~ x q ;;
      rs <~ exchanges x qs' ;;
      ret (r :: rs)
  end.

(** The traversal in the words of the specification (4.5, step 6): turn
    to the proxies in order; on an error remember it and advance to the
    next proxy; on a reply stop. *)
Fixpoint try_each (x : Proxy -> M result) (qs : list Proxy)
  (u : option error) : M Outcome :=
  match qs with
  | [] => ret (Gave_up u)
  | q :: qs' =>
      r <~ x q ;;
      match r with
      | Reply m => ret (Got m)
      | Failure err => try_each x qs' (Some err)
      end
  end.

(** The proxies of a listing that are not down, in the order of the
    listing. *)
Definition up_proxies (e : Edge) (l : list Proxy) : list Proxy :=
  List.filter (fun q => negb (Down q (maxUpstreamFails e))) l.

Definition all_down (e : Edge) (l : list Proxy) : bool :=
  forallb (fun q => Down q (maxUpstreamFails e)) l.

(** The proxies the loop of [ServeDNS] turns to, given the listing [l] of
    the policy: the proxies of [l] that are not down; when all are down,
    the head of a listing by the random policy. *)
Definition serve_targets (e : Edge) (l : list Proxy) : M (list Proxy) :=
  if all_down e l then
    r <~ random_List net (proxies e) ;;
    pick <~ index r 0 ;;
    ret [pick]
  else ret (up_proxies e l).

(** The proxies the loop of [Forward] turns to: when all are down, the
    head of a second listing by the policy of the edge. *)
Definition forward_targets (e : Edge) (l : list Proxy) : M (list Proxy) :=
  if all_down e l then
    r <~ list_ net e ;;
    pick <~ index r 0 ;;
    ret [pick]
  else ret (up_proxies e l).

(** From world [w] on, the exchanges with all of [qs] end in an error,
    the last of them in [err], and leave the world [w'] and the events
    [xevs]. *)
Definition all_fail (x : Proxy -> M result) (qs : list Proxy) (w : World)
  (err : error) (w' : World) (xevs : list Event) : Prop :=
  exists rs,
    exchanges x qs w = (Ok rs, w', xevs)
    /\ Forall (fun r => is_Failure r = true) rs
    /\ last rs = Some (Failure err).

(** From world [w] on, the exchanges with the proxies [pre] end in an
    error and the one with [q] that follows brings the reply [m], leaving
    the world [w'] and, all together, the events [xevs]. *)
Definition first_reply (x : Proxy -> M result) (pre : list Proxy) (q : Proxy)
  (w : World) (m : Msg) (w' : World) (xevs : list Event) : Prop :=
  exists rs w3 pevs qevs,
    exchanges x pre w = (Ok rs, w3, pevs)
    /\ Forall (fun r => is_Failure r = true) rs
    /\ x q w3 = (Ok (Reply m), w', qevs)
    /\ xevs = pevs ++ qevs.

(** How [ServeDNS] ends on an outcome: the verdict and what it writes to
    the client. *)
Definition serve_end (state : Request) (o : Outcome) : Verdict * list Msg :=
  match o with
  | Got m => (Return RcodeSuccess None, [reply_for state m])
  | Gave_up u => (after_loop u (Req state), [])
  end.

(** How [Forward] ends on an outcome. *)
Definition forward_end (state : Request) (o : Outcome)
  : option Msg * option error :=
  match o with
  | Got m => (Some (forward_for state m), None)
  | Gave_up (Some err) => (None, Some err)
  | Gave_up None => (None, Some errNoHealthy)
  end.

End Traversal.

(** * Properties *)

Section EngineFacts.
Context `{P : Platform}.
Variable net : Net.
Local Open Scope go_scope.

(** ** The monad *)

Lemma bind_Ok {A B} (c : M A) (k : A -> M B) w a w1 evs :
  c w = (Ok a, w1, evs) ->
  bind c k w = let '(r, w2, evs') := k a w1 in (r, w2, evs ++ evs').
Proof. intros H. unfold bind. rewrite H. reflexivity. Qed.

Lemma bind_Panic {A B} (c : M A) (k : A -> M B) w p w1 evs :
  c w = (Panic p, w1, evs) -> bind c k w = (Panic p, w1, evs).
Proof. intros H. unfold bind. rewrite H. reflexivity. Qed.

(** ** [Proxy.connect] *)

(** C10. Every call of [connect] disposes of the connection it obtained
    from [Dial] in exactly one way, decided by what the environment answers:
    when the write fails, or the write succeeds and the read fails, the
    connection is closed and not yielded, and the error is returned; when
    both succeed it is yielded to the pool and not closed, and the reply is
    returned; when [Dial] fails there is no connection and nothing is
    disposed of.  The connection is the one dialled, with the buffer size
    set on it.  No path panics. *)
Theorem connect_disposes_once (p : Proxy) (state : Request) (forceTCP : bool)
  (w : World) :
  let proto := if forceTCP then "tcp"%string else Proto state in
  let '(r, _, evs) := connect net p state forceTCP w in
  match dial net (now w) p proto with
  | inr err => r = Ok (Failure err) /\ List.filter disposes evs = []
  | inl c =>
      let conn := {| conn_id := conn_id c;
                     UDPSize := Z.max 512 (uint16 (Size state)) |} in
      match writeMsg net (S (now w)) conn (Req state) with
      | Some err =>
          r = Ok (Failure err) /\ List.filter disposes evs = [EvClose conn]
      | None =>
          match readMsg net (S (S (now w))) conn with
          | inr err =>
              r = Ok (Failure err)
              /\ List.filter disposes evs = [EvClose conn]
          | inl m =>
              r = Ok (Reply m)
              /\ List.filter disposes evs = [EvYield p conn]
          end
      end
  end.
Proof.
  assert (forall z : Z, (if (z <? 512)%Z then 512%Z else z) = Z.max 512 z)
    as Hmax by (intros z; destruct (Z.ltb_spec z 512); lia).
  unfold connect, Dial, Conn_WriteMsg, Conn_ReadMsg, Close, Yield,
    bind, tick, emit, ret; simpl.
  destruct (dial net (now w) p _) as [conn|err]; simpl; [|by auto].
  rewrite Hmax.
  destruct (writeMsg net _ _ _) as [err|]; simpl; [by auto|].
  destruct (readMsg net _ _) as [m|err]; simpl; by auto.
Qed.

(** ** The round-robin policy *)

Lemma uint32_small (n : nat) :
  (Z.of_nat n < 2 ^ 32)%Z -> uint32 (Z.of_nat n) = Z.of_nat n.
Proof. intros H. unfold uint32. apply Z.mod_small. lia. Qed.

Lemma roundRobin_List_nonempty (p : list Proxy) (w : World) :
  p <> [] -> (Z.of_nat (length p) < 2 ^ 32)%Z ->
  let n := uint32 (robin w + 1) in
  let i := Z.to_nat (n mod Z.of_nat (length p)) in
  exists p_i, p !! i = Some p_i
    /\ roundRobin_List p w =
         (Ok (p_i :: take i p ++ drop (S i) p),
          {| now := now w; drawn := drawn w; robin := n |}, []).
Proof.
  intros Hp Hlen n i.
  assert (0 < Z.of_nat (length p))%Z as Hpos by (destruct p; simpl in *; [done|lia]).
  assert (i < length p)%nat as Hi.
  { subst i. pose proof (Z.mod_pos_bound n (Z.of_nat (length p)) Hpos). lia. }
  destruct (lookup_lt_is_Some_2 p i Hi) as [p_i Hp_i].
  exists p_i. split; [done|].
  unfold roundRobin_List, bind, atomic_AddUint32_robin, go_rem; simpl.
  rewrite uint32_small by done.
  destruct (Z.eqb_spec (Z.of_nat (length p)) 0) as [Hz|_]; [lia|].
  unfold ret at 1; simpl. fold n. fold i.
  unfold index. rewrite Hp_i. reflexivity.
Qed.

(** C9. [roundRobin.List] takes the incremented counter modulo the length
    of the list and has no guard for length zero: on the empty list it
    panics with a division by zero, the counter already incremented.
    [Forward] calls the policy without looking at the number of proxies, so
    with the round-robin policy and no proxy configured it panics too,
    whereas [ServeDNS] returns before it asks the policy.  On a non-empty
    list the head is the proxy at that index, followed by the others in
    their order. *)
Theorem roundRobin_List_no_zero_guard (e : Edge) (state : Request)
  (rw : ResponseWriter) (r : Msg) (w : World) :
  policy e = roundRobin -> proxies e = [] ->
  let n := uint32 (robin w + 1) in
  let w' := {| now := now w; drawn := drawn w; robin := n |} in
  roundRobin_List [] w = (Panic DivideByZero, w', [])
  /\ Forward net (Some e) state w = (Panic DivideByZero, w', [])
  /\ (exists v evs, ServeDNS net e rw r w = (Ok v, w, evs))
  /\ forall p : list Proxy,
       p <> [] -> (Z.of_nat (length p) < 2 ^ 32)%Z ->
       let i := Z.to_nat (n mod Z.of_nat (length p)) in
       exists p_i, p !! i = Some p_i
         /\ roundRobin_List p w =
              (Ok (p_i :: take i p ++ drop (S i) p), w', []).
Proof.
  intros Hpol Hnil n w'. split; [reflexivity|]. split; [|split].
  - unfold Forward, list_. rewrite Hpol, Hnil. reflexivity.
  - unfold ServeDNS. destruct (match_ e _); simpl; [|by eauto].
    destruct (extractLocationRecord r) as [[r1 loc] locFound].
    destruct (negb locFound && _); [by eauto|].
    destruct (Lookup _ _) as [edgeSites entryFound].
    destruct (entryFound && _); [by eauto|].
    unfold NumUpstreams. rewrite Hnil. simpl. by eauto.
  - intros p Hp Hlen. apply roundRobin_List_nonempty; done.
Qed.

(** ** The health probe *)

(** C8. [Check] sends one query, for ["."] of type NS, and that query has
    the RD bit set: [SetQuestion] sets it and nothing clears it, against the
    comment of [health.go] that announces a [+norec] message.  A transport
    error without a reply adds one to the failure counter (modulo 2^32); an
    exchange without error, or a message that is a response or has the query
    opcode, resets the counter to zero. *)
Theorem Check_probe_has_RD_set (p : Proxy) (w : World) :
  let hcping := SetQuestion new_Msg (dns_Id net (drawn w)) "." TypeNS in
  let up := {| addr := addr p; fails := 0 |} in
  let down := {| addr := addr p; fails := uint32 (fails p + 1) |} in
  let '(r, _, evs) := Check net p w in
  evs = [EvExchange hcping (addr p)]
  /\ Question_ hcping =
       [ {| QName_ := "."; Qtype := TypeNS; Qclass := ClassINET |} ]
  /\ RecursionDesired hcping = true
  /\ match exchange net (now w) hcping (addr p) with
     | (_, None) => r = Ok (up, None)
     | (None, Some err) => r = Ok (down, Some err)
     | (Some m, Some err) =>
         r = if Response m || Z.eqb (Opcode m) OpcodeQuery
             then Ok (up, None) else Ok (down, Some err)
     end.
Proof.
  unfold Check, sendHealthCheck, Exchange, bind, draw, tick, emit, ret; simpl.
  destruct (exchange net (now w) _ (addr p)) as [[m|] [err|]]; simpl;
    try done.
  destruct (Response m || Z.eqb (Opcode m) OpcodeQuery); simpl; done.
Qed.

(** ** The filter *)

Lemma allowed_by_false (l : list string) (n : string) :
  allowed_by l n = false <->
  exists ignore, ignore ∈ l /\ Matches ignore n = true.
Proof.
  induction l as [|x l IH]; simpl.
  - split; [done|]. intros (i & Hi & _). by apply elem_of_nil in Hi.
  - destruct (Matches x n) eqn:Hx.
    + split; [|done]. intros _. exists x. split; [left|done].
    + rewrite IH. split.
      * intros (i & Hi & Hm). exists i. split; [by right|done].
      * intros (i & Hi & Hm). apply elem_of_cons in Hi as [->|Hi];
          [congruence|]. by exists i.
Qed.

(** The filter rejects a name exactly when it is outside the base domain,
    or differs from the base domain and matches an ignored name. *)
Lemma match_false_iff (e : Edge) (state : Request) :
  match_ e state = false <->
  Matches (baseDomain e) (Name state) = false
  \/ (Name state <> baseDomain e
      /\ exists ignore, ignore ∈ ignored e /\ Matches ignore (Name state) = true).
Proof.
  unfold match_, isAllowedDomain.
  destruct (Matches (baseDomain e) (Name state)) eqn:Hb; simpl.
  - destruct (String.eqb_spec (Name state) (baseDomain e)) as [Heq|Hne]; simpl.
    + split; [done|]. intros [?|[? _]]; done.
    + destruct (allowed_by (ignored e) (Name state)) eqn:Ha; simpl.
      * split; [done|]. intros [?|[_ Hex]]; [done|].
        apply allowed_by_false in Hex. congruence.
      * split; [|done]. intros _. right. split; [done|].
        by apply allowed_by_false.
  - split; [by left|done].
Qed.

(** C4, amended. A request whose name does not match the base domain, or
    differs from the base domain and matches one of the ignored names, is
    handed to the next plugin: the message is passed on as it came, nothing
    is written, no upstream is contacted and the world is unchanged. *)
Theorem ServeDNS_filter_yields (e : Edge) (w : ResponseWriter) (r : Msg)
  (world : World) :
  let n := Name {| Req := r; W := w; name := "" |} in
  Matches (baseDomain e) n = false
  \/ (n <> baseDomain e
      /\ exists ignore, ignore ∈ ignored e /\ Matches ignore n = true) ->
  ServeDNS net e w r world = (Ok (NextOrFailure r), world, []).
Proof.
  intros n H. apply match_false_iff in H.
  unfold ServeDNS. rewrite H. reflexivity.
Qed.

(** ** Authoritative answers *)

Lemma bytes_eqb_refl (a : list byte) : bytes_eqb a a = true.
Proof.
  induction a as [|x a IH]; simpl; [done|].
  rewrite IH, (byte_dec_lb (eq_refl x)). done.
Qed.

(** [To4] yields nil or a form of the same address. *)
Lemma To4_Equal (a : net_IP) : To4 a <> [] -> IP_Equal (To4 a) a = true.
Proof.
  unfold To4. destruct (Nat.eqb_spec (length a) 4) as [H4|H4].
  - intros _. unfold IP_Equal. rewrite Nat.eqb_refl. apply bytes_eqb_refl.
  - destruct (Nat.eqb_spec (length a) 16) as [H16|H16]; simpl; [|done].
    do 17 (destruct a as [|? a]; simpl in H16; try lia).
    simpl.
    repeat match goal with
           | |- context [Byte.eqb ?b ?c] =>
               let E := fresh in
               destruct (Byte.eqb b c) eqn:E; simpl;
               [apply byte_dec_bl in E; subst|]
           end; try done.
    intros _. unfold IP_Equal; simpl.
    rewrite !(byte_dec_lb (eq_refl _)). done.
Qed.

Lemma Family_cases (state : Request) : Family state = 1%Z \/ Family state = 2%Z.
Proof. unfold Family. destruct (To4 _); auto. Qed.

Lemma writeAuthoritativeResponse_run (state : Request) (a : net_IP)
  (world : World) :
  exists m,
    writeAuthoritativeResponse new_Msg state a world
    = (Ok tt, world, [EvWriteMsg m])
    /\ Response m = true /\ Rcode m = RcodeSuccess
    /\ Authoritative m = true /\ Compress m = true
    /\ Answer m = [answer_for state a].
Proof.
  eexists. split; [reflexivity|]. simpl. unfold answer_for.
  destruct (Family_cases state) as [->| ->]; simpl; done.
Qed.

(** What a local hit writes.  A request that passes the filter, carries
    no location marker and asks for a service in the local service set is
    answered with success by one reply with the Authoritative and Compress
    flags and exactly one answer record: for the IPv6 family an AAAA record
    with this cluster's own IP, for the IPv4 family an A record with the
    4-byte form of the own IP, which is the same IP whenever the own IP is
    an IPv4 address. *)
Lemma ServeDNS_local_hit (e : Edge) (w : ResponseWriter) (r r1 : Msg)
  (loc : Point) (world : World) :
  let state := {| Req := r1; W := w; name := "" |} in
  match_ e {| Req := r; W := w; name := "" |} = true ->
  extractLocationRecord r = (r1, loc, false) ->
  trimTrailingDot (Name state) ∈ services e ->
  exists m,
    ServeDNS net e w r world
    = (Ok (Return RcodeSuccess None), world, [EvWriteMsg m])
    /\ Authoritative m = true /\ Compress m = true
    /\ Answer m =
         [ if (Family state =? 1)%Z
           then RR_A {| dns.Name := QName state; Rrtype := TypeA;
                        Class := QClass state; Ttl := 0; Rdlength := 0 |}
                     (To4 (ip e))
           else RR_AAAA {| dns.Name := QName state; Rrtype := TypeAAAA;
                           Class := QClass state; Ttl := 0; Rdlength := 0 |}
                        (ip e) ]
    /\ (Family state = 1%Z \/ Family state = 2%Z)
    /\ (To4 (ip e) <> [] -> IP_Equal (To4 (ip e)) (ip e) = true)
    /\ (length (ip e) = 4 -> To4 (ip e) = ip e).
Proof.
  intros state Hm He Hs.
  destruct (writeAuthoritativeResponse_run (cache_Name state) (ip e) world)
    as (m & Hrun & _ & _ & Hauth & Hcomp & Hans).
  exists m. split.
  { unfold ServeDNS. rewrite Hm, He. simpl. fold state.
    unfold Contains. rewrite bool_decide_eq_true_2 by done. simpl.
    unfold bind. rewrite Hrun. reflexivity. }
  repeat split; try done.
  - apply Family_cases.
  - apply To4_Equal.
  - intros H4. unfold To4. rewrite H4. reflexivity.
Qed.

(** ** The closest site *)

Section Closest.
Variable p : Point.
#[local] Abbreviation d := (distance_to p).



End Closest.


(** ** One attempt of the forwarding loop *)

(** [connect] never panics, touches neither the random source nor the
    round-robin counter, dials its proxy once and talks to nobody else. *)
Lemma connect_run (p : Proxy) (state : Request) (forceTCP : bool) (w : World) :
  exists r w' evs,
    connect net p state forceTCP w = (Ok r, w', evs)
    /\ dialled evs = [p] /\ upstreams evs = [] /\ written evs = []
    /\ probes evs = [].
Proof.
  unfold connect, Dial, Conn_WriteMsg, Conn_ReadMsg, Close, Yield,
    bind, tick, emit, ret; simpl.
  destruct (dial net (now w) p _) as [conn|err]; simpl; [|by eauto 10].
  destruct (writeMsg net _ _ _) as [err|]; simpl; [by eauto 10|].
  destruct (readMsg net _ _) as [m|err]; simpl; by eauto 10.
Qed.

Lemma connect_retry_run (p : Proxy) (state : Request) (forceTCP : bool)
  (w : World) :
  exists r w' evs,
    connect_retry net p state forceTCP w = (Ok r, w', evs)
    /\ dialled evs <> [] /\ (forall q, q ∈ dialled evs -> q = p)
    /\ upstreams evs = [] /\ written evs = [] /\ probes evs = [].
Proof.
  unfold connect_retry.
  destruct (connect_run p state forceTCP w)
    as (r & w1 & evs1 & H1 & Hd1 & Hu1 & Hw1 & Hp1).
  assert (forall q, q ∈ [p] -> q = p) as Hp
    by (intros q Hq; by apply list_elem_of_singleton in Hq).
  rewrite (bind_Ok _ _ _ _ _ _ H1).
  destruct r as [m|err].
  { unfold ret. exists (Reply m), w1, (evs1 ++ []). rewrite app_nil_r, Hd1.
    by eauto 10. }
  destruct (is_EOF err).
  - destruct (connect_run p state forceTCP w1)
      as (r2 & w2 & evs2 & H2 & Hd2 & Hu2 & Hw2 & Hp2).
    rewrite H2. exists r2, w2, (evs1 ++ evs2).
    unfold dialled, upstreams, written, probes in *.
    rewrite !omap_app, Hd1, Hd2, Hu1, Hu2, Hw1, Hw2, Hp1, Hp2. simpl.
    repeat split; try done.
    intros q Hq. apply elem_of_cons in Hq as [->|Hq]; [done|]. by apply Hp.
  - unfold ret. exists (Failure err), w1, (evs1 ++ []). rewrite app_nil_r, Hd1.
    by eauto 10.
Qed.

(** Without an EOF the loop around [connect] is a single [connect]. *)
Lemma connect_retry_no_EOF (p : Proxy) (state : Request) (forceTCP : bool)
  (w : World) :
  (connect net p state forceTCP w).1.1 <> Ok (Failure io_EOF) ->
  connect_retry net p state forceTCP w = connect net p state forceTCP w.
Proof.
  intros Hno. unfold connect_retry.
  destruct (connect_run p state forceTCP w) as (r & w1 & evs1 & H1 & _).
  rewrite (bind_Ok _ _ _ _ _ _ H1), H1.
  rewrite H1 in Hno. simpl in Hno.
  destruct r as [m|err]; unfold ret; [by rewrite app_nil_r|].
  destruct err; simpl; try (by rewrite app_nil_r). done.
Qed.

(** One pass of the loop of [ServeDNS], spelled out. *)
Lemma serve_attempt_run (e : Edge) (state : Request) (proxy : Proxy)
  (fails : nat) (k : option error -> M Verdict) (w : World) :
  exists r w1 evs1,
    connect_retry net proxy state (forceTCP e) w = (Ok r, w1, evs1)
    /\ dialled evs1 <> [] /\ (forall q, q ∈ dialled evs1 -> q = proxy)
    /\ upstreams evs1 = [] /\ written evs1 = [] /\ probes evs1 = []
    /\ serve_attempt net e state proxy fails k w =
       match truncated r with
       | Failure err =>
           let evs2 :=
             evs1 ++ EvUpstream proxy (Failure err)
                  :: (if (maxUpstreamFails e =? 0)%Z then []
                      else [EvHealthcheck proxy]) in
           if (fails <? length (proxies e))%nat
           then let '(v, w2, evs3) := k (Some err) w1 in (v, w2, evs2 ++ evs3)
           else (Ok (after_loop (Some err) (Req state)), w1, evs2)
       | Reply m =>
           (Ok (Return RcodeSuccess None), w1,
            evs1 ++ [EvUpstream proxy (Reply m);
                     EvWriteMsg (reply_for state m)])
       end.
Proof.
  destruct (connect_retry_run proxy state (forceTCP e) w)
    as (r & w1 & evs1 & H1 & Hd & Hq & Hu & Hw & Hp).
  exists r, w1, evs1. repeat split; try done.
  unfold serve_attempt. rewrite (bind_Ok _ _ _ _ _ _ H1).
  destruct (truncated r) as [m|err]; simpl.
  - unfold reply_for, bind, emit, WriteMsg, ret; simpl.
    destruct (Match state m); simpl; reflexivity.
  - unfold bind, emit, Healthcheck, ret; simpl.
    destruct (maxUpstreamFails e =? 0)%Z; simpl;
      destruct (fails <? length (proxies e))%nat; simpl;
      try reflexivity;
      destruct (k (Some err) w1) as [[v w2] evs3]; simpl;
      rewrite <- ?app_assoc; reflexivity.
Qed.

(** ** The policies on a list of proxies *)

Lemma omap_lookup_seq {A} (l : list A) :
  omap (fun i => l !! i) (seq 0 (length l)) = l.
Proof.
  induction l as [|x l IH]; simpl; [done|].
  f_equal. rewrite <- fmap_S_seq.
  transitivity (omap (fun i => l !! i) (seq 0 (length l))); [|done].
  generalize (seq 0 (length l)). clear IH.
  intros s. induction s as [|i s IHs]; simpl; [done|].
  destruct (l !! i); [f_equal|]; exact IHs.
Qed.

Lemma permute_run (p : list Proxy) (perms : list nat) (w : World) :
  (forall i, i ∈ perms -> i < length p) ->
  permute p perms w = (Ok (omap (fun i => p !! i) perms), w, []).
Proof.
  induction perms as [|i perms IH]; intros Hlt; simpl; [done|].
  destruct (lookup_lt_is_Some_2 p i) as [x Hx]; [apply Hlt; left|].
  unfold bind, index. rewrite Hx. unfold ret at 1.
  rewrite IH by (intros j Hj; apply Hlt; by right).
  reflexivity.
Qed.

Lemma permute_quiet (p : list Proxy) (perms : list nat) (w : World) :
  (permute p perms w).2 = [].
Proof.
  induction perms as [|i perms IH]; simpl; [done|].
  unfold bind, index. destruct (p !! i); [|done]. unfold ret at 1.
  destruct (permute p perms w) as [[[l|pn] w'] evs]; simpl in *; by subst.
Qed.

Lemma random_List_quiet (p : list Proxy) (w : World) :
  (random_List net p w).2 = [].
Proof.
  unfold random_List.
  destruct p as [|a [|b [|c p]]]; try done.
  - unfold bind, draw. simpl.
    match goal with |- context [permute ?p ?l ?w] =>
      pose proof (permute_quiet p l w) as H; destruct (permute p l w) as [[[?|?] ?] ?]
    end; simpl in *; by subst.
  - unfold bind, draw. simpl. by destruct (_ =? _)%Z.
  - unfold bind, draw.
    match goal with |- context [permute ?p ?l ?w] =>
      pose proof (permute_quiet p l w) as H; destruct (permute p l w) as [[[?|?] ?] ?]
    end; simpl in *; by subst.
Qed.

(** With a fair source the random policy returns a permutation of the
    proxies, whatever their number. *)
Lemma random_List_run (p : list Proxy) (w : World) :
  fair_source net ->
  exists l w1, random_List net p w = (Ok l, w1, []) /\ l ≡ₚ p.
Proof.
  intros Hfair.
  assert (forall (q : list Proxy) w0,
            exists l, permute q (rand_Perm net (drawn w0) (length q))
                        {| now := now w0; drawn := S (drawn w0);
                           robin := robin w0 |}
                      = (Ok l, {| now := now w0; drawn := S (drawn w0);
                                  robin := robin w0 |}, [])
                      /\ l ≡ₚ q) as Hperm.
  { intros q w0. eexists. split.
    - apply permute_run. intros i Hi.
      rewrite (Hfair (drawn w0) (length q)) in Hi.
      apply elem_of_seq in Hi. lia.
    - rewrite (Hfair (drawn w0) (length q)). by rewrite omap_lookup_seq. }
  unfold random_List.
  destruct p as [|a [|b [|c p]]].
  - destruct (Hperm [] w) as (l & Hl & Hp). unfold bind, draw. simpl in *.
    rewrite Hl. eauto.
  - unfold ret. eauto.
  - unfold bind, draw, ret. simpl. destruct (_ =? _)%Z; simpl.
    + eexists _, _. split; [done|]. apply Permutation_swap.
    + eauto.
  - destruct (Hperm (a :: b :: c :: p) w) as (l & Hl & Hp).
    unfold bind, draw. simpl in *. rewrite Hl. eauto.
Qed.



(** ** The forwarding loop of [ServeDNS] *)

Lemma ServeDNS_forwards (e : Edge) (w : ResponseWriter) (r : Msg) :
  forwards e w r = true ->
  ServeDNS net e w r =
  bind (list_ net e) (fun l => serve_loop net e (forwarded e w r) l 0 None).
Proof.
  unfold forwards, ServeDNS, forwarded.
  destruct (extractLocationRecord r) as [[r1 loc] locFound].
  destruct (Lookup _ _) as [edgeSites entryFound].
  intros H. apply andb_prop in H as [H H4]. apply andb_prop in H as [H H3].
  apply andb_prop in H as [H1 H2].
  rewrite H1. simpl.
  apply negb_true_iff in H2, H3, H4. rewrite H2, H3, H4. reflexivity.
Qed.

(** One element of the list: it is skipped, or attempted, or replaced by
    the head of a fresh random listing, which is attempted. *)
Lemma serve_loop_cons (e : Edge) (state : Request) (proxy : Proxy)
  (rest : list Proxy) (fails : nat) (u : option error) (w : World) :
  let n := length (proxies e) in
  let run := serve_loop net e state (proxy :: rest) fails u w in
  (Down proxy (maxUpstreamFails e) = true /\ S fails < n
   /\ run = serve_loop net e state rest (S fails) u w)
  \/ (Down proxy (maxUpstreamFails e) = false
      /\ run = serve_attempt net e state proxy fails
                 (serve_loop net e state rest fails) w)
  \/ (Down proxy (maxUpstreamFails e) = true /\ n <= S fails
      /\ exists r w1,
           random_List net (proxies e) w = (r, w1, [])
           /\ match r with
              | Ok (pick :: _) =>
                  run = serve_attempt net e state pick (S fails)
                          (serve_loop net e state rest (S fails)) w1
              | Ok [] => run = (Panic IndexOutOfRange, w1, [])
              | Panic pn => run = (Panic pn, w1, [])
              end).
Proof.
  intros n run. subst run. simpl.
  destruct (Down proxy (maxUpstreamFails e)); [|by auto].
  destruct (Nat.ltb_spec (S fails) (length (proxies e))) as [Hlt|Hge].
  { left. by auto. }
  right. right. repeat split; try done.
  pose proof (random_List_quiet (proxies e) w) as Hq.
  destruct (random_List net (proxies e) w) as [[r w1] evs] eqn:Hr.
  simpl in Hq. subst evs. exists r, w1. split; [done|].
  destruct r as [[|pick picks]|pn]; cbv beta iota;
    unfold bind; rewrite Hr; try done.
  unfold index; simpl.
  by destruct (serve_attempt _ _ _ _ _ _ _) as [[? ?] ?].
Qed.

Lemma upstreams_app (a b : list Event) :
  upstreams (a ++ b) = upstreams a ++ upstreams b.
Proof. apply omap_app. Qed.

Lemma dialled_app (a b : list Event) :
  dialled (a ++ b) = dialled a ++ dialled b.
Proof. apply omap_app. Qed.

Lemma written_app (a b : list Event) :
  written (a ++ b) = written a ++ written b.
Proof. apply omap_app. Qed.

Lemma probes_app (a b : list Event) :
  probes (a ++ b) = probes a ++ probes b.
Proof. apply omap_app. Qed.

(** A reply ends the pass it was received in: the client gets its
    message and nothing follows. *)
Lemma serve_attempt_reply_ends (e : Edge) (state : Request) (proxy : Proxy)
  (fails : nat) (k : option error -> M Verdict) (p : Proxy) (m : Msg) :
  (forall u w res w' evs,
     k u w = (res, w', evs) -> (p, Reply m) ∈ upstreams evs ->
     res = Ok (Return RcodeSuccess None)
     /\ exists pre, evs = pre ++ [EvUpstream p (Reply m);
                                  EvWriteMsg (reply_for state m)]) ->
  forall w res w' evs,
    serve_attempt net e state proxy fails k w = (res, w', evs) ->
    (p, Reply m) ∈ upstreams evs ->
    res = Ok (Return RcodeSuccess None)
    /\ exists pre, evs = pre ++ [EvUpstream p (Reply m);
                                 EvWriteMsg (reply_for state m)].
Proof.
  intros Hk w res w' evs Hrun Hin.
  destruct (serve_attempt_run e state proxy fails k w)
    as (r & w1 & evs1 & _ & _ & _ & Hu1 & _ & _ & Heq).
  rewrite Heq in Hrun. clear Heq.
  destruct (truncated r) as [m'|err].
  - injection Hrun as <- <- <-. split; [done|].
    rewrite upstreams_app, Hu1 in Hin. simpl in Hin.
    apply list_elem_of_singleton in Hin. injection Hin as -> ->.
    by exists evs1.
  - cbv zeta in Hrun.
    destruct (fails <? length (proxies e))%nat.
    + destruct (k (Some err) w1) as [[v w2] evs3] eqn:Hk3.
      injection Hrun as <- <- <-.
      rewrite !upstreams_app, Hu1 in Hin. simpl in Hin.
      assert ((p, Reply m) ∈ upstreams evs3) as Hin3.
      { destruct (maxUpstreamFails e =? 0)%Z; simpl in Hin;
          apply elem_of_cons in Hin as [Hin|Hin]; done. }
      destruct (Hk _ _ _ _ _ Hk3 Hin3) as [-> [pre ->]].
      split; [done|]. eexists. by rewrite app_assoc.
    + injection Hrun as <- <- <-.
      rewrite upstreams_app, Hu1 in Hin. simpl in Hin.
      destruct (maxUpstreamFails e =? 0)%Z; simpl in Hin;
        apply list_elem_of_singleton in Hin; done.
Qed.

Lemma serve_loop_reply_ends (e : Edge) (state : Request) (l : list Proxy)
  (p : Proxy) (m : Msg) :
  forall fails u w res w' evs,
    serve_loop net e state l fails u w = (res, w', evs) ->
    (p, Reply m) ∈ upstreams evs ->
    res = Ok (Return RcodeSuccess None)
    /\ exists pre, evs = pre ++ [EvUpstream p (Reply m);
                                 EvWriteMsg (reply_for state m)].
Proof.
  induction l as [|proxy rest IH]; intros fails u w res w' evs Hrun Hin.
  { injection Hrun as <- <- <-. by apply elem_of_nil in Hin. }
  destruct (serve_loop_cons e state proxy rest fails u w)
    as [(_ & _ & Heq)|[(_ & Heq)|(_ & _ & r & w1 & _ & Heq)]].
  - rewrite Heq in Hrun. by eapply IH.
  - rewrite Heq in Hrun.
    eapply serve_attempt_reply_ends; [|exact Hrun|exact Hin].
    intros. by eapply IH.
  - destruct r as [[|pick picks]|pn]; rewrite Heq in Hrun.
    + injection Hrun as <- <- <-. by apply elem_of_nil in Hin.
    + eapply serve_attempt_reply_ends; [|exact Hrun|exact Hin].
      intros. by eapply IH.
    + injection Hrun as <- <- <-. by apply elem_of_nil in Hin.
Qed.

(** ** The loop of [Forward] *)

Lemma roundRobin_List_quiet (p : list Proxy) (w : World) :
  (roundRobin_List p w).2 = [].
Proof.
  unfold roundRobin_List, bind, atomic_AddUint32_robin, go_rem, index; simpl.
  destruct (Z.eqb _ 0); [done|]. simpl.
  by destruct (p !! _).
Qed.

Lemma list_quiet (e : Edge) (w : World) : (list_ net e w).2 = [].
Proof.
  unfold list_, Policy_List. destruct (policy e).
  - apply random_List_quiet.
  - apply roundRobin_List_quiet.
Qed.

Lemma forward_attempt_run (e : Edge) (state : Request) (proxy : Proxy)
  (fails : nat) (k : option error -> M (option Msg * option error))
  (w : World) :
  exists r w1 evs1,
    connect net proxy state (forceTCP e) w = (Ok r, w1, evs1)
    /\ dialled evs1 = [proxy]
    /\ upstreams evs1 = [] /\ written evs1 = [] /\ probes evs1 = []
    /\ forward_attempt net e state proxy fails k w =
       match truncated r with
       | Failure err =>
           let evs2 := evs1 ++ [EvUpstream proxy (Failure err)] in
           if (fails <? length (proxies e))%nat
           then let '(v, w2, evs3) := k (Some err) w1 in (v, w2, evs2 ++ evs3)
           else (Ok (None, Some err), w1, evs2)
       | Reply m =>
           (Ok (Some (forward_for state m), None), w1,
            evs1 ++ [EvUpstream proxy (Reply m)])
       end.
Proof.
  destruct (connect_run proxy state (forceTCP e) w)
    as (r & w1 & evs1 & H1 & Hd & Hu & Hw & Hp).
  exists r, w1, evs1. repeat split; try done.
  unfold forward_attempt. rewrite (bind_Ok _ _ _ _ _ _ H1).
  destruct (truncated r) as [m|err]; simpl.
  - unfold forward_for, bind, emit, ret; simpl.
    destruct (Match state m); simpl; reflexivity.
  - unfold bind, emit, ret; simpl.
    destruct (fails <? length (proxies e))%nat; simpl; try reflexivity.
    destruct (k (Some err) w1) as [[v w2] evs3]; simpl.
    rewrite <- ?app_assoc; reflexivity.
Qed.

Lemma forward_loop_cons (e : Edge) (state : Request) (proxy : Proxy)
  (rest : list Proxy) (fails : nat) (u : option error) (w : World) :
  let n := length (proxies e) in
  let run := forward_loop net e state (proxy :: rest) fails u w in
  (Down proxy (maxUpstreamFails e) = true /\ S fails < n
   /\ run = forward_loop net e state rest (S fails) u w)
  \/ (Down proxy (maxUpstreamFails e) = false
      /\ run = forward_attempt net e state proxy fails
                 (forward_loop net e state rest fails) w)
  \/ (Down proxy (maxUpstreamFails e) = true /\ n <= S fails
      /\ exists r w1,
           list_ net e w = (r, w1, [])
           /\ match r with
              | Ok (pick :: _) =>
                  run = forward_attempt net e state pick (S fails)
                          (forward_loop net e state rest (S fails)) w1
              | Ok [] => run = (Panic IndexOutOfRange, w1, [])
              | Panic pn => run = (Panic pn, w1, [])
              end).
Proof.
  intros n run. subst run. simpl.
  destruct (Down proxy (maxUpstreamFails e)); [|by auto].
  destruct (Nat.ltb_spec (S fails) (length (proxies e))) as [Hlt|Hge].
  { left. by auto. }
  right. right. repeat split; try done.
  pose proof (list_quiet e w) as Hq.
  destruct (list_ net e w) as [[r w1] evs] eqn:Hr.
  simpl in Hq. subst evs. exists r, w1. split; [done|].
  destruct r as [[|pick picks]|pn]; cbv beta iota;
    unfold bind; rewrite Hr; try done.
  unfold index; simpl.
  by destruct (forward_attempt _ _ _ _ _ _ _) as [[? ?] ?].
Qed.

Lemma forward_attempt_reply_ends (e : Edge) (state : Request) (proxy : Proxy)
  (fails : nat) (k : option error -> M (option Msg * option error))
  (p : Proxy) (m : Msg) :
  (forall u w res w' evs,
     k u w = (res, w', evs) -> (p, Reply m) ∈ upstreams evs ->
     res = Ok (Some (forward_for state m), None)
     /\ exists pre, evs = pre ++ [EvUpstream p (Reply m)]) ->
  forall w res w' evs,
    forward_attempt net e state proxy fails k w = (res, w', evs) ->
    (p, Reply m) ∈ upstreams evs ->
    res = Ok (Some (forward_for state m), None)
    /\ exists pre, evs = pre ++ [EvUpstream p (Reply m)].
Proof.
  intros Hk w res w' evs Hrun Hin.
  destruct (forward_attempt_run e state proxy fails k w)
    as (r & w1 & evs1 & _ & _ & Hu1 & _ & _ & Heq).
  rewrite Heq in Hrun. clear Heq.
  destruct (truncated r) as [m'|err].
  - injection Hrun as <- <- <-.
    rewrite upstreams_app, Hu1 in Hin. simpl in Hin.
    apply list_elem_of_singleton in Hin. injection Hin as -> ->.
    split; [done|]. by exists evs1.
  - cbv zeta in Hrun.
    destruct (fails <? length (proxies e))%nat.
    + destruct (k (Some err) w1) as [[v w2] evs3] eqn:Hk3.
      injection Hrun as <- <- <-.
      rewrite !upstreams_app, Hu1 in Hin. simpl in Hin.
      apply elem_of_cons in Hin as [Hin|Hin]; [done|].
      destruct (Hk _ _ _ _ _ Hk3 Hin) as [-> [pre ->]].
      split; [done|]. eexists. by rewrite app_assoc.
    + injection Hrun as <- <- <-.
      rewrite upstreams_app, Hu1 in Hin. simpl in Hin.
      apply list_elem_of_singleton in Hin; done.
Qed.

Lemma forward_loop_reply_ends (e : Edge) (state : Request) (l : list Proxy)
  (p : Proxy) (m : Msg) :
  forall fails u w res w' evs,
    forward_loop net e state l fails u w = (res, w', evs) ->
    (p, Reply m) ∈ upstreams evs ->
    res = Ok (Some (forward_for state m), None)
    /\ exists pre, evs = pre ++ [EvUpstream p (Reply m)].
Proof.
  induction l as [|proxy rest IH]; intros fails u w res w' evs Hrun Hin.
  { simpl in Hrun. destruct u; injection Hrun as <- <- <-;
      by apply elem_of_nil in Hin. }
  destruct (forward_loop_cons e state proxy rest fails u w)
    as [(_ & _ & Heq)|[(_ & Heq)|(_ & _ & r & w1 & _ & Heq)]].
  - rewrite Heq in Hrun. by eapply IH.
  - rewrite Heq in Hrun.
    eapply forward_attempt_reply_ends; [|exact Hrun|exact Hin].
    intros. by eapply IH.
  - destruct r as [[|pick picks]|pn]; rewrite Heq in Hrun.
    + injection Hrun as <- <- <-. by apply elem_of_nil in Hin.
    + eapply forward_attempt_reply_ends; [|exact Hrun|exact Hin].
      intros. by eapply IH.
    + injection Hrun as <- <- <-. by apply elem_of_nil in Hin.
Qed.

(** Events of a bind whose first part is silent. *)
Lemma bind_quiet {A B} (c : M A) (k : A -> M B) (w : World) res w' evs :
  (c w).2 = [] ->
  bind c k w = (res, w', evs) ->
  (exists pn, (c w).1.1 = Panic pn /\ res = Panic pn /\ evs = [])
  \/ (exists a w1, c w = (Ok a, w1, []) /\ k a w1 = (res, w', evs)).
Proof.
  unfold bind. destruct (c w) as [[[a|pn] w1] evs1]; simpl; intros -> Hrun.
  - right. exists a, w1. split; [done|].
    destruct (k a w1) as [[? ?] ?]. simpl in Hrun. done.
  - left. exists pn. injection Hrun as <- <- <-. done.
Qed.

(** ** When every attempt fails *)

Lemma recorded_cons_Failure (u : option error) (q : Proxy) (err : error)
  (ups : list (Proxy * result)) :
  recorded u ((q, Failure err) :: ups) = recorded (Some err) ups.
Proof.
  unfold recorded. destruct ups as [|x ups]; [done|].
  change (last ((q, Failure err) :: x :: ups)) with (last (x :: ups)).
  destruct (last (x :: ups)) eqn:Hl; [done|].
  by apply last_None in Hl.
Qed.


Lemma serve_attempt_all_fail (e : Edge) (state : Request) (proxy : Proxy)
  (fails : nat) (k : option error -> M Verdict) :
  (forall u w v w' evs,
     k u w = (Ok v, w', evs) ->
     (forall q r, (q, r) ∈ upstreams evs -> is_Failure r = true) ->
     v = after_loop (recorded u (upstreams evs)) (Req state)
     /\ written evs = []) ->
  forall u w v w' evs,
    serve_attempt net e state proxy fails k w = (Ok v, w', evs) ->
    (forall q r, (q, r) ∈ upstreams evs -> is_Failure r = true) ->
    v = after_loop (recorded u (upstreams evs)) (Req state)
    /\ written evs = [].
Proof.
  intros Hk u w v w' evs Hrun Hall.
  destruct (serve_attempt_run e state proxy fails k w)
    as (r & w1 & evs1 & _ & _ & _ & Hu1 & Hw1 & _ & Heq).
  rewrite Heq in Hrun. clear Heq.
  assert (forall x, upstreams (if (maxUpstreamFails e =? 0)%Z then []
                               else [EvHealthcheck x]) = []
                    /\ written (if (maxUpstreamFails e =? 0)%Z then []
                                else [EvHealthcheck x]) = []) as Hhc
    by (intros x; by destruct (_ =? _)%Z).
  destruct (truncated r) as [m|err].
  - injection Hrun as <- <- <-.
    rewrite upstreams_app, Hu1 in Hall. simpl in Hall.
    specialize (Hall proxy (Reply m)). simpl in Hall.
    discriminate Hall. left.
  - cbv zeta in Hrun. destruct (fails <? length (proxies e))%nat.
    + destruct (k (Some err) w1) as [[v3 w2] evs3] eqn:Hk3.
      injection Hrun as -> <- <-.
      change (EvUpstream proxy (Failure err) :: ?l)
        with ([EvUpstream proxy (Failure err)] ++ l) in *.
      rewrite !upstreams_app, !written_app, Hu1, Hw1 in *.
      rewrite (proj1 (Hhc proxy)), (proj2 (Hhc proxy)) in *.
      simpl in *. rewrite recorded_cons_Failure.
      apply (Hk _ _ _ _ _ Hk3). intros q r' Hq. apply (Hall q r'). by right.
    + injection Hrun as <- <- <-.
      change (EvUpstream proxy (Failure err) :: ?l)
        with ([EvUpstream proxy (Failure err)] ++ l) in *.
      rewrite !upstreams_app, !written_app, Hu1, Hw1 in *.
      rewrite (proj1 (Hhc proxy)), (proj2 (Hhc proxy)) in *.
      simpl. done.
Qed.

Lemma serve_loop_all_fail (e : Edge) (state : Request) (l : list Proxy) :
  forall fails u w v w' evs,
    serve_loop net e state l fails u w = (Ok v, w', evs) ->
    (forall q r, (q, r) ∈ upstreams evs -> is_Failure r = true) ->
    v = after_loop (recorded u (upstreams evs)) (Req state)
    /\ written evs = [].
Proof.
  induction l as [|proxy rest IH]; intros fails u w v w' evs Hrun Hall.
  { injection Hrun as <- <- <-. done. }
  destruct (serve_loop_cons e state proxy rest fails u w)
    as [(_ & _ & Heq)|[(_ & Heq)|(_ & _ & r & w1 & _ & Heq)]].
  - rewrite Heq in Hrun. by eapply IH.
  - rewrite Heq in Hrun.
    eapply serve_attempt_all_fail; [|exact Hrun|exact Hall].
    intros. by eapply IH.
  - destruct r as [[|pick picks]|pn]; rewrite Heq in Hrun; [done| |done].
    eapply serve_attempt_all_fail; [|exact Hrun|exact Hall].
    intros. by eapply IH.
Qed.



(** ** Counting the permutations by their head *)













(** ** Proxies that are down *)

Lemma downs_cons (e : Edge) (q : Proxy) (l : list Proxy) :
  downs e (q :: l) =
  (if Down q (maxUpstreamFails e) then 1 else 0) + downs e l.
Proof. unfold downs. simpl. by destruct (Down q (maxUpstreamFails e)). Qed.

Lemma downs_le (e : Edge) (l : list Proxy) : downs e l <= length l.
Proof.
  induction l as [|q l IH]; [done|]. rewrite downs_cons. simpl.
  destruct (Down q (maxUpstreamFails e)); lia.
Qed.

Lemma downs_lt (e : Edge) (l : list Proxy) (q : Proxy) :
  q ∈ l -> Down q (maxUpstreamFails e) = false -> downs e l < length l.
Proof.
  induction l as [|x l IH]; intros Hq Hd; [by apply elem_of_nil in Hq|].
  rewrite downs_cons. simpl. apply elem_of_cons in Hq as [<-|Hq].
  - rewrite Hd. pose proof (downs_le e l). lia.
  - specialize (IH Hq Hd). destruct (Down x (maxUpstreamFails e)); lia.
Qed.

(** While fewer proxies are down than are configured, the loop dials no
    proxy that is down. *)
Lemma serve_loop_skips_down (e : Edge) (state : Request) (l : list Proxy) :
  forall fails u w res w' evs,
    fails + downs e l < length (proxies e) ->
    serve_loop net e state l fails u w = (res, w', evs) ->
    forall q, q ∈ dialled evs -> Down q (maxUpstreamFails e) = false.
Proof.
  induction l as [|proxy rest IH]; intros fails u w res w' evs Hn Hrun q Hq.
  { injection Hrun as <- <- <-. by apply elem_of_nil in Hq. }
  rewrite downs_cons in Hn.
  destruct (serve_loop_cons e state proxy rest fails u w)
    as [(Hd & _ & Heq)|[(Hd & Heq)|(Hd & Hge & _)]]; rewrite Hd in Hn.
  - rewrite Heq in Hrun. eapply IH; [|exact Hrun|exact Hq]. lia.
  - rewrite Heq in Hrun.
    destruct (serve_attempt_run e state proxy fails
                (serve_loop net e state rest fails) w)
      as (r & w1 & evs1 & _ & _ & Hd1 & _ & _ & _ & Heq').
    rewrite Heq' in Hrun. clear Heq'.
    assert (forall x, dialled (if (maxUpstreamFails e =? 0)%Z then []
                               else [EvHealthcheck x]) = []) as Hhc
      by (intros x; by destruct (_ =? _)%Z).
    destruct (truncated r) as [m|err].
    + injection Hrun as <- <- <-. rewrite dialled_app in Hq. simpl in Hq.
      rewrite app_nil_r in Hq. by rewrite (Hd1 q Hq).
    + cbv zeta in Hrun.
      destruct (fails <? length (proxies e))%nat.
      * destruct (serve_loop net e state rest fails (Some err) w1)
          as [[v3 w2] evs3] eqn:Hk3.
        injection Hrun as <- <- <-.
        change (EvUpstream proxy (Failure err) :: ?l)
          with ([EvUpstream proxy (Failure err)] ++ l) in Hq.
        rewrite !dialled_app, Hhc in Hq. simpl in Hq.
        rewrite app_nil_r in Hq.
        apply elem_of_app in Hq as [Hq|Hq]; [by rewrite (Hd1 q Hq)|].
        eapply IH; [|exact Hk3|exact Hq]. lia.
      * injection Hrun as <- <- <-.
        change (EvUpstream proxy (Failure err) :: ?l)
          with ([EvUpstream proxy (Failure err)] ++ l) in Hq.
        rewrite !dialled_app, Hhc in Hq. simpl in Hq.
        rewrite app_nil_r in Hq. by rewrite (Hd1 q Hq).
  - simpl in *. lia.
Qed.

(** When all the proxies ahead are down and they are all there are, the
    loop makes one attempt: at the head of a fresh random listing. *)
Lemma serve_loop_last_resort (e : Edge) (state : Request) (l : list Proxy) :
  forall fails u w pick picks w1,
    Forall (fun q => Down q (maxUpstreamFails e) = true) l ->
    fails + length l = length (proxies e) -> l <> [] ->
    random_List net (proxies e) w = (Ok (pick :: picks), w1, []) ->
    exists v w' evs res,
      serve_loop net e state l fails u w = (Ok v, w', evs)
      /\ upstreams evs = [(pick, res)]
      /\ dialled evs <> []
      /\ forall q, q ∈ dialled evs -> q = pick.
Proof.
  induction l as [|proxy rest IH];
    intros fails u w pick picks w1 Hall Hn Hl Hpick; [done|].
  simpl in Hn. apply Forall_cons in Hall as [Hd Hall].
  destruct (serve_loop_cons e state proxy rest fails u w)
    as [(_ & Hlt & Heq)|[(Hd' & _)|(_ & Hge & r & w2 & Hr & Heq)]].
  - rewrite Heq. eapply IH; [done|lia| |exact Hpick].
    destruct rest; [simpl in *; lia|done].
  - congruence.
  - rewrite Hpick in Hr. injection Hr as <- <-. rewrite Heq. clear Heq.
    destruct (serve_attempt_run e state pick (S fails)
                (serve_loop net e state rest (S fails)) w1)
      as (r & w3 & evs1 & _ & Hne & Hd1 & Hu1 & _ & _ & Heq').
    rewrite Heq'. clear Heq'.
    assert (forall x, dialled (if (maxUpstreamFails e =? 0)%Z then []
                               else [EvHealthcheck x]) = []
                      /\ upstreams (if (maxUpstreamFails e =? 0)%Z then []
                                    else [EvHealthcheck x]) = []) as Hhc
      by (intros x; by destruct (_ =? _)%Z).
    destruct (truncated r) as [m|err].
    + eexists _, _, _, _. split; [done|].
      rewrite upstreams_app, dialled_app, Hu1. simpl. rewrite app_nil_r.
      done.
    + cbv zeta.
      destruct (Nat.ltb_spec (S fails) (length (proxies e))); [lia|].
      change (EvUpstream pick (Failure err) :: ?l)
        with ([EvUpstream pick (Failure err)] ++ l).
      eexists _, _, _, _. split; [done|].
      rewrite !upstreams_app, !dialled_app, Hu1.
      rewrite (proj1 (Hhc pick)), (proj2 (Hhc pick)). simpl.
      rewrite app_nil_r. done.
Qed.


(** ** [Forward] and the loop of [ServeDNS] side by side *)

Lemma serve_result_cons_Failure (state : Request) (u : option error)
  (q : Proxy) (err : error) (ups : list (Proxy * result)) :
  serve_result state u ((q, Failure err) :: ups)
  = serve_result state (Some err) ups.
Proof.
  unfold serve_result. rewrite recorded_cons_Failure.
  destruct ups as [|x ups]; [done|].
  change (last ((q, Failure err) :: x :: ups)) with (last (x :: ups)). done.
Qed.

Lemma forward_result_cons_Failure (state : Request) (u : option error)
  (q : Proxy) (err : error) (ups : list (Proxy * result)) :
  forward_result state u ((q, Failure err) :: ups)
  = forward_result state (Some err) ups.
Proof.
  unfold forward_result. rewrite recorded_cons_Failure.
  destruct ups as [|x ups]; [done|].
  change (last ((q, Failure err) :: x :: ups)) with (last (x :: ups)). done.
Qed.

Lemma healthcheck_silent (e : Edge) (x : Proxy) :
  let hc := if (maxUpstreamFails e =? 0)%Z then [] else [EvHealthcheck x] in
  dialled hc = [] /\ upstreams hc = [] /\ written hc = [].
Proof. by destruct (_ =? _)%Z. Qed.

(** What [ServeDNS] returns and writes is determined by the outcomes its
    loop recorded. *)
Lemma serve_loop_result (e : Edge) (state : Request) (l : list Proxy) :
  forall fails u w v w' evs,
    serve_loop net e state l fails u w = (Ok v, w', evs) ->
    (v, written evs) = serve_result state u (upstreams evs).
Proof.
  assert (forall proxy fails (k : option error -> M Verdict),
            (forall u w v w' evs,
               k u w = (Ok v, w', evs) ->
               (v, written evs) = serve_result state u (upstreams evs)) ->
            forall u w v w' evs,
              serve_attempt net e state proxy fails k w = (Ok v, w', evs) ->
              (v, written evs) = serve_result state u (upstreams evs))
    as Hattempt.
  { intros proxy fails k Hk u w v w' evs Hrun.
    destruct (serve_attempt_run e state proxy fails k w)
      as (r & w1 & evs1 & _ & _ & _ & Hu1 & Hw1 & _ & Heq).
    rewrite Heq in Hrun. clear Heq.
    destruct (healthcheck_silent e proxy) as (_ & Hhu & Hhw).
    destruct (truncated r) as [m|err].
    - injection Hrun as <- <- <-.
      rewrite upstreams_app, written_app, Hu1, Hw1. done.
    - cbv zeta in Hrun. destruct (fails <? length (proxies e))%nat.
      + destruct (k (Some err) w1) as [[v3 w2] evs3] eqn:Hk3.
        injection Hrun as -> <- <-.
        change (EvUpstream proxy (Failure err) :: ?l)
          with ([EvUpstream proxy (Failure err)] ++ l).
        rewrite !upstreams_app, !written_app, Hu1, Hw1, Hhu, Hhw. simpl.
        rewrite serve_result_cons_Failure. by apply Hk in Hk3.
      + injection Hrun as <- <- <-.
        change (EvUpstream proxy (Failure err) :: ?l)
          with ([EvUpstream proxy (Failure err)] ++ l).
        rewrite !upstreams_app, !written_app, Hu1, Hw1, Hhu, Hhw. done. }
  induction l as [|proxy rest IH]; intros fails u w v w' evs Hrun.
  { injection Hrun as <- <- <-. done. }
  destruct (serve_loop_cons e state proxy rest fails u w)
    as [(_ & _ & Heq)|[(_ & Heq)|(_ & _ & r & w1 & _ & Heq)]].
  - rewrite Heq in Hrun. by eapply IH.
  - rewrite Heq in Hrun. eapply Hattempt; [|exact Hrun]. intros. by eapply IH.
  - destruct r as [[|pick picks]|pn]; rewrite Heq in Hrun; [done| |done].
    eapply Hattempt; [|exact Hrun]. intros. by eapply IH.
Qed.

(** What [Forward] returns is determined by the same outcomes. *)
Lemma forward_loop_result (e : Edge) (state : Request) (l : list Proxy) :
  forall fails u w fr w' evs,
    forward_loop net e state l fails u w = (Ok fr, w', evs) ->
    fr = forward_result state u (upstreams evs).
Proof.
  assert (forall proxy fails
            (k : option error -> M (option Msg * option error)),
            (forall u w fr w' evs,
               k u w = (Ok fr, w', evs) ->
               fr = forward_result state u (upstreams evs)) ->
            forall u w fr w' evs,
              forward_attempt net e state proxy fails k w = (Ok fr, w', evs) ->
              fr = forward_result state u (upstreams evs))
    as Hattempt.
  { intros proxy fails k Hk u w fr w' evs Hrun.
    destruct (forward_attempt_run e state proxy fails k w)
      as (r & w1 & evs1 & _ & _ & Hu1 & _ & _ & Heq).
    rewrite Heq in Hrun. clear Heq.
    destruct (truncated r) as [m|err].
    - injection Hrun as <- <- <-. rewrite upstreams_app, Hu1. done.
    - cbv zeta in Hrun. destruct (fails <? length (proxies e))%nat.
      + destruct (k (Some err) w1) as [[v3 w2] evs3] eqn:Hk3.
        injection Hrun as -> <- <-.
        rewrite !upstreams_app, Hu1. simpl.
        rewrite forward_result_cons_Failure. by apply Hk in Hk3.
      + injection Hrun as <- <- <-. rewrite !upstreams_app, Hu1. done. }
  induction l as [|proxy rest IH]; intros fails u w fr w' evs Hrun.
  { simpl in Hrun. unfold forward_result, recorded. simpl.
    destruct u; by injection Hrun as <- <- <-. }
  destruct (forward_loop_cons e state proxy rest fails u w)
    as [(_ & _ & Heq)|[(_ & Heq)|(_ & _ & r & w1 & _ & Heq)]].
  - rewrite Heq in Hrun. by eapply IH.
  - rewrite Heq in Hrun. eapply Hattempt; [|exact Hrun]. intros. by eapply IH.
  - destruct r as [[|pick picks]|pn]; rewrite Heq in Hrun; [done| |done].
    eapply Hattempt; [|exact Hrun]. intros. by eapply IH.
Qed.

Lemma roundRobin_List_Ok (p l : list Proxy) (w w1 : World) evs :
  roundRobin_List p w = (Ok l, w1, evs) -> l ≡ₚ p.
Proof.
  unfold roundRobin_List, bind, atomic_AddUint32_robin, go_rem, index; simpl.
  destruct (Z.eqb _ 0); [done|]. simpl.
  destruct (p !! _) as [p_i|] eqn:Hi; [|done]. simpl.
  intros [= <- _ _].
  etransitivity; [apply Permutation_middle|].
  by rewrite take_drop_middle.
Qed.

(** Without EOF, and as long as the last resort is not taken under the
    round-robin policy, the loop of [Forward] goes the way of the loop of
    [ServeDNS]. *)
Lemma loops_same_way (e : Edge) (state : Request) (l : list Proxy) :
  no_EOF net state (forceTCP e) ->
  forall fails u w,
    policy e = random \/ fails + downs e l < length (proxies e) ->
    same_way (forward_loop net e state l fails u w)
             (serve_loop net e state l fails u w).
Proof.
  intros Hno.
  assert (forall proxy fails kf ks w,
            (forall u w, same_way (kf u w) (ks u w)) ->
            same_way (forward_attempt net e state proxy fails kf w)
                     (serve_attempt net e state proxy fails ks w))
    as Hattempt.
  { intros proxy fails kf ks w Hk.
    destruct (forward_attempt_run e state proxy fails kf w)
      as (r & w1 & evs1 & Hc & Hd1 & Hu1 & _ & _ & Heqf).
    destruct (serve_attempt_run e state proxy fails ks w)
      as (r' & w1' & evs1' & Hc' & _ & _ & _ & _ & _ & Heqs).
    rewrite connect_retry_no_EOF, Hc in Hc' by apply Hno.
    injection Hc' as <- <- <-.
    rewrite Heqf, Heqs. clear Heqf Heqs.
    destruct (healthcheck_silent e proxy) as (Hhd & Hhu & _).
    destruct (truncated r) as [m|err].
    - unfold same_way. simpl. rewrite !dialled_app, !upstreams_app. done.
    - cbv zeta. destruct (fails <? length (proxies e))%nat.
      + specialize (Hk (Some err) w1).
        destruct (kf (Some err) w1) as [[vf wf] evsf].
        destruct (ks (Some err) w1) as [[vs ws] evss].
        destruct Hk as (Hw & Hd & Hu & Hres). simpl in *.
        unfold same_way. simpl.
        change (EvUpstream proxy (Failure err) :: ?l)
          with ([EvUpstream proxy (Failure err)] ++ l).
        rewrite !dialled_app, !upstreams_app, Hhd, Hhu, Hd, Hu. done.
      + unfold same_way. simpl.
        change (EvUpstream proxy (Failure err) :: ?l)
          with ([EvUpstream proxy (Failure err)] ++ l).
        rewrite !dialled_app, !upstreams_app, Hhd, Hhu. done. }
  induction l as [|proxy rest IH]; intros fails u w Hcase.
  { simpl. unfold same_way. by destruct u. }
  rewrite downs_cons in Hcase.
  destruct (forward_loop_cons e state proxy rest fails u w)
    as [(Hd & Hlt & Heqf)|[(Hd & Heqf)|(Hd & Hge & rf & wf & Hrf & Heqf)]];
  destruct (serve_loop_cons e state proxy rest fails u w)
    as [(Hd' & Hlt' & Heqs)|[(Hd' & Heqs)|(Hd' & Hge' & rs & ws & Hrs & Heqs)]];
  try congruence; try (simpl in *; lia).
  - rewrite Heqf, Heqs. apply IH.
    destruct Hcase as [?|Hcase]; [by left|right].
    rewrite Hd in Hcase. lia.
  - rewrite Heqf, Heqs. apply Hattempt. intros. apply IH.
    destruct Hcase as [?|Hcase]; [by left|right].
    rewrite Hd in Hcase. lia.
  - destruct Hcase as [Hpol|Hcase]; [|rewrite Hd in Hcase; simpl in *; lia].
    unfold list_, Policy_List in Hrf. rewrite Hpol, Hrs in Hrf.
    injection Hrf as <- <-.
    destruct rs as [[|pick picks]|pn]; rewrite Heqf, Heqs;
      [by unfold same_way| |by unfold same_way].
    apply Hattempt. intros. apply IH. by left.
Qed.

End EngineFacts.

(** * Scenarios *)

(** C4 as stated fails: the base domain itself passes the filter although
    it matches an ignored name, and the request is answered. *)
Lemma filter_admits_ignored_base_domain :
  let r := query "example.org." TypeA in
  let n := @Name grid {| Req := r; W := udp_client; name := "" |} in
  (exists ignore, ignore ∈ ignored edge_org /\ Name_Matches ignore n = true)
  /\ exists m,
       @ServeDNS grid unreachable edge_org udp_client r start
       = (Ok (Return RcodeSuccess None), start, [EvWriteMsg m])
       /\ Answer m <> [].
Proof.
  split.
  - exists "example.org."%string. split; [|reflexivity].
    apply list_elem_of_In. left. reflexivity.
  - eexists. split; [vm_compute; reflexivity|]. discriminate.
Qed.

Lemma ServeDNS_filter_yields_witness :
  @ServeDNS grid unreachable edge_org udp_client (query "example.com." TypeA)
    start
  = (Ok (NextOrFailure (query "example.com." TypeA)), start, []).
Proof.
  apply (@ServeDNS_filter_yields grid unreachable edge_org udp_client
           (query "example.com." TypeA) start).
  left. vm_compute. reflexivity.
Defined.

Lemma roundRobin_List_no_zero_guard_witness :
  roundRobin_List [] start
  = (Panic DivideByZero, {| now := 0; drawn := 0; robin := 1 |}, [])
  /\ @Forward grid unreachable (Some edge_rr)
       {| Req := query "foo." TypeA; W := udp_client; name := "" |} start
     = (Panic DivideByZero, {| now := 0; drawn := 0; robin := 1 |}, []).
Proof.
  destruct (@roundRobin_List_no_zero_guard grid unreachable edge_rr
              {| Req := query "foo." TypeA; W := udp_client; name := "" |}
              udp_client (query "foo." TypeA) start eq_refl eq_refl)
    as (H1 & H2 & _).
  split; [exact H1|exact H2].
Defined.

(** C2. A client on IPv4 asks a cluster whose own address is IPv6 for a
    service that runs there.  The request passes the filter, carries no
    location marker and its service is in the local service set; the reply
    holds one A record, and the address in it is nil: it is not the own IP of
    the cluster, and no form of it. *)
Theorem local_hit_IPv4_client_IPv6_cluster :
  let r := query "foo." TypeA in
  let state := {| Req := r; W := udp_client; name := "" |} in
  @match_ grid edge_v6 state = true
  /\ @extractLocationRecord grid r = (r, (0, 0)%Z, false)
  /\ trimTrailingDot (@Name grid state) ∈ services edge_v6
  /\ @Family state = 1%Z
  /\ ip edge_v6 = ip_2001_db8__1
  /\ exists m hdr,
       @ServeDNS grid unreachable edge_v6 udp_client r start
       = (Ok (Return RcodeSuccess None), start, [EvWriteMsg m])
       /\ Answer m = [RR_A hdr []]
       /\ IP_Equal [] (ip edge_v6) = false.
Proof.
  split; [reflexivity|]. split; [reflexivity|].
  split; [by apply elem_of_singleton|].
  split; [reflexivity|]. split; [reflexivity|].
  eexists _, _. split; [vm_compute; reflexivity|]. split; reflexivity.
Qed.

Lemma ServeDNS_local_hit_witness :
  exists m,
    @ServeDNS grid unreachable edge_foo udp_client (query "foo." TypeA) start
    = (Ok (Return RcodeSuccess None), start, [EvWriteMsg m])
    /\ Authoritative m = true /\ Compress m = true
    /\ Answer m =
         [ RR_A {| dns.Name := "foo."; Rrtype := TypeA; Class := ClassINET;
                   Ttl := 0; Rdlength := 0 |} ip_10_0_0_9 ].
Proof.
  destruct (@ServeDNS_local_hit grid unreachable edge_foo udp_client
              (query "foo." TypeA) (query "foo." TypeA) (0, 0)%Z start)
    as (m & Hrun & Ha & Hc & Hans & _).
  - reflexivity.
  - reflexivity.
  - by apply elem_of_singleton.
  - exists m. repeat split; try done.
Defined.





(** * Further properties *)

(** ** [trimTrailingDot] *)

Lemma get_append_dot (s : string) :
  String.get (String.length s) (s ++ ".") = Some "."%char.
Proof. induction s as [|c s IH]; simpl; [reflexivity|exact IH]. Qed.

Lemma substring_append_dot (s : string) :
  String.substring 0 (String.length s) (s ++ ".") = s.
Proof. induction s as [|c s IH]; simpl; [reflexivity|by rewrite IH]. Qed.

Lemma length_append_dot (s : string) :
  String.length (s ++ ".") = S (String.length s).
Proof. induction s as [|c s IH]; simpl; [reflexivity|by rewrite IH]. Qed.

Lemma append_dot_nonempty (s : string) : (s ++ ".")%string <> ""%string.
Proof. destruct s; discriminate. Qed.

Lemma substring_last_at (s : string) (n : nat) (c : ascii) :
  String.length s = S n -> String.get n s = Some c ->
  s = (String.substring 0 n s ++ String c "")%string.
Proof.
  revert n. induction s as [|a s IH]; intros n Hl Hg; [discriminate|].
  simpl in Hl. injection Hl as Hl. destruct n as [|n].
  - destruct s; [|discriminate]. simpl in *. by injection Hg as ->.
  - simpl in Hg. simpl. rewrite (IH n Hl Hg) at 1. reflexivity.
Qed.

(** A string whose last character is [c] is its prefix followed by [c]. *)
Lemma substring_last (s : string) (c : ascii) :
  String.get (String.length s - 1) s = Some c ->
  s = (String.substring 0 (String.length s - 1) s ++ String c "")%string.
Proof.
  destruct s as [|a s]; [discriminate|].
  change (String.length (String a s) - 1) with (String.length s - 0).
  rewrite Nat.sub_0_r. by apply substring_last_at.
Qed.

Lemma trimTrailingDot_dot (t : string) : trimTrailingDot (t ++ ".") = t.
Proof.
  unfold trimTrailingDot.
  rewrite (proj2 (String.eqb_neq _ _) (append_dot_nonempty t)).
  rewrite length_append_dot. simpl. rewrite Nat.sub_0_r.
  rewrite get_append_dot. simpl. apply substring_append_dot.
Qed.

(** X1. Trimming undoes the appending of one dot: [trimTrailingDot]
    removes the final dot and nothing else, so a name with two final dots
    keeps one. *)
Theorem trimTrailingDot_append_dot (s : string) :
  trimTrailingDot (s ++ ".") = s
  /\ trimTrailingDot ((s ++ ".") ++ ".") = (s ++ ".")%string.
Proof. split; apply trimTrailingDot_dot. Qed.

(** X2. [trimTrailingDot] returns its argument unchanged exactly when the
    argument does not end in a dot, the empty string included. *)
Theorem trimTrailingDot_unchanged_iff (s : string) :
  trimTrailingDot s = s <-> forall t, s <> (t ++ ".")%string.
Proof.
  split.
  - intros H t ->. rewrite trimTrailingDot_dot in H.
    apply (f_equal String.length) in H.
    rewrite length_append_dot in H. lia.
  - intros H. unfold trimTrailingDot.
    destruct (String.eqb s "") eqn:He; [reflexivity|].
    destruct (String.get (String.length s - 1) s) as [c|] eqn:Hg;
      [|reflexivity].
    destruct (Ascii.eqb_spec c ".") as [->|Hc]; simpl; [|reflexivity].
    exfalso. apply (H (String.substring 0 (String.length s - 1) s)).
    by apply substring_last.
Qed.

Section MoreFacts.
Context `{P : Platform}.
Variable net : Net.
Local Open Scope go_scope.

(** ** [findClosestToPoint] *)

Lemma closest_from_member (p : Point) (l : list Site) :
  forall c m f,
    closest_from p l c m f = c
    \/ exists s, s ∈ l /\ closest_from p l c m f = IP s.
Proof.
  induction l as [|s l IH]; intros c m f; simpl; [by left|].
  destruct (f || flt _ m).
  - right.
    destruct (IH (IP s) (GreatCircleDistance p (GeoCoords s)) false)
      as [H|(s' & Hs & H)].
    + exists s. split; [left|done].
    + exists s'. split; [by right|done].
  - destruct (IH c m f) as [H|(s' & Hs & H)]; [by left|].
    right. exists s'. split; [by right|done].
Qed.

(** X3. [findClosestToPoint] returns nil for the empty set and otherwise
    the IP of a member of the set, whatever the distances are and however
    they compare. *)
Theorem findClosestToPoint_member (sites : list Site) (p : Point) :
  match sites with
  | [] => findClosestToPoint sites p = []
  | _ :: _ =>
      exists site, site ∈ sites /\ findClosestToPoint sites p = IP site
  end.
Proof.
  destruct sites as [|s l]; [reflexivity|].
  unfold findClosestToPoint. simpl.
  destruct (closest_from_member p l (IP s)
              (GreatCircleDistance p (GeoCoords s)) false)
    as [H|(s' & Hs & H)].
  - exists s. split; [left|done].
  - exists s'. split; [by right|done].
Qed.

(** X4. A later site replaces the choice only when its distance compares
    strictly below the current minimum: when no site compares below the
    first one, as with equal distances or with a distance that compares
    below nothing, the first site is returned. *)
Theorem findClosestToPoint_keeps_first (s0 : Site) (rest : list Site)
  (p : Point) :
  (forall s, s ∈ rest -> flt (distance_to p s) (distance_to p s0) = false) ->
  findClosestToPoint (s0 :: rest) p = IP s0.
Proof.
  intros H. unfold findClosestToPoint. simpl.
  change (GreatCircleDistance p (GeoCoords s0)) with (distance_to p s0).
  induction rest as [|s rest IH]; simpl; [reflexivity|].
  change (GreatCircleDistance p (GeoCoords s)) with (distance_to p s).
  rewrite (H s) by left. apply IH. intros s' Hs'. apply H. by right.
Qed.

(** ** The filter *)

(** X5. The filter looks at the ignored names as a set: their order and
    repetitions in the configuration make no difference. *)
Theorem match_ignored_as_set (e e' : Edge) (state : Request) :
  baseDomain e = baseDomain e' ->
  (forall x, x ∈ ignored e <-> x ∈ ignored e') ->
  match_ e state = match_ e' state.
Proof.
  intros Hb Hi. unfold match_, isAllowedDomain. rewrite <- Hb.
  assert (allowed_by (ignored e) (Name state)
          = allowed_by (ignored e') (Name state)) as ->; [|reflexivity].
  destruct (allowed_by (ignored e) (Name state)) eqn:H1;
    destruct (allowed_by (ignored e') (Name state)) eqn:H2; try reflexivity.
  - apply allowed_by_false in H2 as (x & Hx & Hm).
    apply Hi in Hx.
    assert (allowed_by (ignored e) (Name state) = false) as H3
      by (apply allowed_by_false; eauto).
    congruence.
  - apply allowed_by_false in H1 as (x & Hx & Hm).
    apply Hi in Hx.
    assert (allowed_by (ignored e') (Name state) = false) as H3
      by (apply allowed_by_false; eauto).
    congruence.
Qed.

(** ** Authoritative answers *)

(** X6. The answer [writeAuthoritativeResponse] writes is a reply to the
    request it was given: it carries the id and the first question of the
    request, and it passes the test [Match] that the engine applies to the
    replies of its upstreams.  The request has a question, and [Name]
    reports the lower-cased name of that question. *)
Theorem authoritative_reply_matches (state : Request) (a : net_IP)
  (q : Question) (qs : list Question) (world : World) :
  Question_ (Req state) = q :: qs ->
  Name state = ToLower (QName_ q) ->
  exists m,
    writeAuthoritativeResponse new_Msg state a world
    = (Ok tt, world, [EvWriteMsg m])
    /\ Id m = Id (Req state) /\ Response m = true /\ Question_ m = [q]
    /\ Match state m = true.
Proof.
  intros Hq Hn. eexists. split; [reflexivity|].
  unfold Match, QType. simpl. rewrite Hq, Hn. simpl.
  rewrite String.eqb_refl, Z.eqb_refl. done.
Qed.

(** ** What [ServeDNS] writes and returns *)

Lemma forwards_proxies (e : Edge) (w : ResponseWriter) (r : Msg) :
  forwards e w r = true -> proxies e <> [].
Proof.
  unfold forwards. intros Hf.
  destruct (extractLocationRecord r) as [[? ?] ?].
  destruct (Lookup _ _) as [? ?].
  apply andb_prop in Hf as [_ Hf]. apply negb_true_iff in Hf.
  unfold NumUpstreams in Hf. by destruct (proxies e).
Qed.

Lemma serve_attempt_written_le (e : Edge) (state : Request) (proxy : Proxy)
  (fails : nat) (k : option error -> M Verdict) (w : World) :
  (forall u w, length (written (k u w).2) <= 1) ->
  length (written (serve_attempt net e state proxy fails k w).2) <= 1.
Proof.
  intros Hk.
  destruct (serve_attempt_run net e state proxy fails k w)
    as (r & w1 & evs1 & _ & _ & _ & _ & Hw1 & _ & Heq).
  rewrite Heq. destruct (truncated r) as [m|err].
  { simpl. rewrite written_app, Hw1. simpl. lia. }
  cbv zeta.
  assert (written (evs1 ++ EvUpstream proxy (Failure err)
                     :: (if (maxUpstreamFails e =? 0)%Z then []
                         else [EvHealthcheck proxy])) = []) as Hpre.
  { rewrite written_app, Hw1.
    destruct (maxUpstreamFails e =? 0)%Z; reflexivity. }
  destruct (fails <? length (proxies e))%nat.
  - pose proof (Hk (Some err) w1) as Hle.
    destruct (k (Some err) w1) as [[v w2] evs3]. simpl in *.
    by rewrite written_app, Hpre.
  - simpl. rewrite Hpre. simpl. lia.
Qed.

Lemma serve_loop_written_le (e : Edge) (state : Request) (l : list Proxy) :
  forall fails u w,
    length (written (serve_loop net e state l fails u w).2) <= 1.
Proof.
  induction l as [|proxy rest IH]; intros fails u w; [simpl; lia|].
  destruct (serve_loop_cons net e state proxy rest fails u w)
    as [(_ & _ & Heq)|[(_ & Heq)|(_ & _ & r & w1 & _ & Heq)]].
  - rewrite Heq. apply IH.
  - rewrite Heq. apply serve_attempt_written_le. intros. apply IH.
  - destruct r as [[|pick picks]|pn]; rewrite Heq; [simpl; lia| |simpl; lia].
    apply serve_attempt_written_le. intros. apply IH.
Qed.

(** X7. [ServeDNS] writes at most one message to the client on any run,
    and when it returns it has written one exactly when it returns success
    without an error: a request handed to the next plugin or failed with
    ServerFailure has been written nothing. *)
Theorem ServeDNS_writes_at_most_once (e : Edge) (w : ResponseWriter)
  (r : Msg) (world : World) :
  let '(res, _, evs) := ServeDNS net e w r world in
  length (written evs) <= 1
  /\ forall v, res = Ok v ->
       (v = Return RcodeSuccess None <-> length (written evs) = 1).
Proof.
  unfold ServeDNS. destruct (match_ e _); simpl.
  2: { split; [lia|]. intros v [= <-]. split; [discriminate|simpl; lia]. }
  destruct (extractLocationRecord r) as [[r1 loc] locFound].
  destruct (negb locFound && _).
  { split; [simpl; lia|]. intros v [= <-]. done. }
  destruct (Lookup _ _) as [edgeSites entryFound].
  destruct (entryFound && _).
  { split; [simpl; lia|]. intros v [= <-]. done. }
  destruct (NumUpstreams e =? 0)%nat.
  { split; [simpl; lia|]. intros v [= <-]. split; [discriminate|simpl; lia]. }
  unfold bind. pose proof (list_quiet net e world) as Hq.
  destruct (list_ net e world) as [[[l|pn] w1] evl]; simpl in Hq; subst evl.
  2: { split; [simpl; lia|]. intros v [=]. }
  match goal with
  | |- context [serve_loop net e ?st l 0 None w1] =>
      pose proof (serve_loop_written_le e st l 0 None w1) as Hle;
      pose proof (serve_loop_result net e st l 0 None w1) as Hres;
      destruct (serve_loop net e st l 0 None w1) as [[res w2] evs]
  end.
  simpl in *. split; [exact Hle|].
  intros v ->. specialize (Hres v w2 evs eq_refl).
  unfold serve_result in Hres.
  destruct (last (upstreams evs)) as [[q [m|err]]|].
  - injection Hres as -> ->. done.
  - injection Hres as -> ->. unfold after_loop.
    destruct (recorded None _); split; simpl; (discriminate || lia).
  - injection Hres as -> ->. unfold after_loop.
    destruct (recorded None _); split; simpl; (discriminate || lia).
Qed.

(** X8. Without upstream proxies [ServeDNS] is a lookup and nothing more:
    it never panics, leaves the world as it is, dials nothing and starts no
    health check.  A request the filter rejects goes to the next plugin as
    it came; one that passes the filter is answered with one message, or
    goes to the next plugin with its location record already removed. *)
Theorem ServeDNS_without_upstreams (e : Edge) (w : ResponseWriter) (r : Msg)
  (world : World) :
  proxies e = [] ->
  exists v evs,
    ServeDNS net e w r world = (Ok v, world, evs)
    /\ if match_ e {| Req := r; W := w; name := "" |} then
         (v = Return RcodeSuccess None /\ exists m, evs = [EvWriteMsg m])
         \/ (v = NextOrFailure (extractLocationRecord r).1.1 /\ evs = [])
       else v = NextOrFailure r /\ evs = [].
Proof.
  intros Hnil. unfold ServeDNS. destruct (match_ e _); simpl; [|by eauto].
  destruct (extractLocationRecord r) as [[r1 loc] locFound]. simpl.
  destruct (negb locFound && _).
  { eexists _, _. split; [reflexivity|]. left. by eauto. }
  destruct (Lookup _ _) as [edgeSites entryFound].
  destruct (entryFound && _).
  { eexists _, _. split; [reflexivity|]. left. by eauto. }
  unfold NumUpstreams. rewrite Hnil. simpl.
  eexists _, _. split; [reflexivity|]. by right.
Qed.


(** ** What [Forward] returns *)




(** X10. [Forward] returns to its caller either a message or an error,
    never both and never neither, also on a nil receiver. *)
Theorem Forward_message_xor_error (e : option Edge) (state : Request)
  (world : World) :
  match (Forward net e state world).1.1 with
  | Ok (Some _, None) | Ok (None, Some _) | Panic _ => True
  | Ok (Some _, Some _) | Ok (None, None) => False
  end.
Proof.
  destruct e as [e|]; [|done]. unfold Forward, bind.
  pose proof (list_quiet net e world) as Hq.
  destruct (list_ net e world) as [[[l|pn] w1] evl]; simpl in Hq; subst evl;
    [|done].
  pose proof (forward_loop_result net e state l 0 None w1) as Hres.
  destruct (forward_loop net e state l 0 None w1) as [[[fr|pn] w2] evs];
    [|done].
  simpl. rewrite (Hres fr w2 evs eq_refl). unfold forward_result.
  by destruct (last (upstreams evs)) as [[q [m|err]]|].
Qed.


(** ** What reaches the upstreams *)

Lemma sent_app (a b : list Event) : sent (a ++ b) = sent a ++ sent b.
Proof. apply omap_app. Qed.

Lemma protos_app (a b : list Event) : protos (a ++ b) = protos a ++ protos b.
Proof. apply omap_app. Qed.

Lemma clamp_max (z : Z) :
  (if (z <? 512)%Z then 512%Z else z) = Z.max 512 z.
Proof. destruct (Z.ltb_spec z 512); lia. Qed.

(** X12. [connect] dials the proxy once, over TCP when [forceTCP] is set
    and over the transport of the client otherwise.  If the dial succeeds it
    sends one message, the request as it is, on a connection whose buffer
    size is the size the client announced, taken as a [uint16] and raised to
    512 if lower: a size between 512 and 65535 whatever was announced.  If
    the dial fails nothing is sent. *)
Theorem connect_sends_request_as_is (p : Proxy) (state : Request)
  (forceTCP : bool) (w : World) :
  let proto := if forceTCP then "tcp"%string else Proto state in
  let evs := (connect net p state forceTCP w).2 in
  let size := Z.max 512 (uint16 (Size state)) in
  dialled evs = [p] /\ protos evs = [proto]
  /\ (512 <= size < 65536)%Z
  /\ sent evs =
     match dial net (now w) p proto with
     | inl conn => [({| conn_id := conn_id conn; UDPSize := size |}, Req state)]
     | inr _ => []
     end.
Proof.
  intros proto evs size.
  assert (512 <= size < 65536)%Z as Hsize.
  { subst size. unfold uint16.
    pose proof (Z.mod_pos_bound (Size state) (2 ^ 16)). lia. }
  subst evs.
  unfold connect, Dial, Conn_WriteMsg, Conn_ReadMsg, Close, Yield,
    bind, tick, emit, ret; simpl. fold proto. rewrite clamp_max. fold size.
  destruct (dial net (now w) p proto) as [conn|err]; simpl; [|done].
  destruct (writeMsg net _ _ _) as [err|]; simpl; [done|].
  destruct (readMsg net _ _) as [m|err]; simpl; done.
Qed.

Lemma connect_log (p : Proxy) (state : Request) (forceTCP : bool)
  (w : World) :
  let evs := (connect net p state forceTCP w).2 in
  Forall (fun a => a.2 = Req state) (sent evs)
  /\ Forall (fun t => t = if forceTCP then "tcp"%string else Proto state)
            (protos evs).
Proof.
  unfold connect, Dial, Conn_WriteMsg, Conn_ReadMsg, Close, Yield,
    bind, tick, emit, ret; simpl.
  destruct (dial net (now w) p _) as [conn|err]; simpl;
    [|split; repeat constructor].
  destruct (writeMsg net _ _ _) as [err|]; simpl;
    [split; repeat constructor|].
  destruct (readMsg net _ _) as [m|err]; simpl; split; repeat constructor.
Qed.

(** A property of logs that holds of the empty log and of two logs put
    together holds of the log of [ServeDNS]'s loop around [connect] if it
    holds of every [connect]. *)
Lemma connect_retry_log (Q : list Event -> Prop) (p : Proxy)
  (state : Request) (forceTCP : bool) :
  Q [] -> (forall a b, Q a -> Q b -> Q (a ++ b)) ->
  (forall w, Q (connect net p state forceTCP w).2) ->
  forall w, Q (connect_retry net p state forceTCP w).2.
Proof.
  intros Hnil Happ Hc w. unfold connect_retry, bind.
  pose proof (Hc w) as H1.
  destruct (connect net p state forceTCP w) as [[[r|pn] w1] evs1];
    simpl in *; [|done].
  destruct r as [m|err]; simpl; [by rewrite app_nil_r|].
  destruct (is_EOF err); [|simpl; by rewrite app_nil_r].
  pose proof (Hc w1) as H2.
  destruct (connect net p state forceTCP w1) as [[r2 w2] evs2]. simpl in *.
  by apply Happ.
Qed.

Lemma serve_loop_log (Q : list Event -> Prop) (e : Edge) (state : Request) :
  Q [] -> (forall a b, Q a -> Q b -> Q (a ++ b)) ->
  (forall p w, Q (connect net p state (forceTCP e) w).2) ->
  (forall p r, Q [EvUpstream p r]) -> (forall p, Q [EvHealthcheck p]) ->
  (forall m, Q [EvWriteMsg m]) ->
  forall l fails u w, Q (serve_loop net e state l fails u w).2.
Proof.
  intros Hnil Happ Hc Hu Hh Hw.
  assert (forall proxy fails k w,
            (forall u w, Q (k u w).2) ->
            Q (serve_attempt net e state proxy fails k w).2) as Hattempt.
  { intros proxy fails k w Hk.
    pose proof (connect_retry_log Q proxy state (forceTCP e) Hnil Happ
                  (Hc proxy) w) as H1.
    destruct (serve_attempt_run net e state proxy fails k w)
      as (r & w1 & evs1 & Hrun & _ & _ & _ & _ & _ & Heq).
    rewrite Hrun in H1. simpl in H1.
    rewrite Heq. destruct (truncated r) as [m|err].
    { simpl. apply Happ; [done|].
      apply (Happ [_] [_]); [apply Hu|apply Hw]. }
    cbv zeta.
    assert (Q (evs1 ++ EvUpstream proxy (Failure err)
                 :: (if (maxUpstreamFails e =? 0)%Z then []
                     else [EvHealthcheck proxy]))) as Hpre.
    { apply Happ; [done|].
      destruct (maxUpstreamFails e =? 0)%Z; [apply Hu|].
      apply (Happ [_] [_]); [apply Hu|apply Hh]. }
    destruct (fails <? length (proxies e))%nat; [|done].
    pose proof (Hk (Some err) w1) as H3.
    destruct (k (Some err) w1) as [[v w2] evs3]. simpl in *.
    by apply Happ. }
  induction l as [|proxy rest IH]; intros fails u w; [done|].
  destruct (serve_loop_cons net e state proxy rest fails u w)
    as [(_ & _ & Heq)|[(_ & Heq)|(_ & _ & r & w1 & _ & Heq)]].
  - rewrite Heq. apply IH.
  - rewrite Heq. apply Hattempt. intros. apply IH.
  - destruct r as [[|pick picks]|pn]; rewrite Heq; [done| |done].
    apply Hattempt. intros. apply IH.
Qed.

Lemma forward_loop_log (Q : list Event -> Prop) (e : Edge)
  (state : Request) :
  Q [] -> (forall a b, Q a -> Q b -> Q (a ++ b)) ->
  (forall p w, Q (connect net p state (forceTCP e) w).2) ->
  (forall p r, Q [EvUpstream p r]) ->
  forall l fails u w, Q (forward_loop net e state l fails u w).2.
Proof.
  intros Hnil Happ Hc Hu.
  assert (forall proxy fails k w,
            (forall u w, Q (k u w).2) ->
            Q (forward_attempt net e state proxy fails k w).2) as Hattempt.
  { intros proxy fails k w Hk.
    pose proof (Hc proxy w) as H1.
    destruct (forward_attempt_run net e state proxy fails k w)
      as (r & w1 & evs1 & Hrun & _ & _ & _ & _ & Heq).
    rewrite Hrun in H1. simpl in H1.
    rewrite Heq. destruct (truncated r) as [m|err].
    { simpl. apply Happ; [done|apply Hu]. }
    cbv zeta.
    assert (Q (evs1 ++ [EvUpstream proxy (Failure err)])) as Hpre
      by (apply Happ; [done|apply Hu]).
    destruct (fails <? length (proxies e))%nat; [|done].
    pose proof (Hk (Some err) w1) as H3.
    destruct (k (Some err) w1) as [[v w2] evs3]. simpl in *.
    by apply Happ. }
  induction l as [|proxy rest IH]; intros fails u w.
  { simpl. by destruct u. }
  destruct (forward_loop_cons net e state proxy rest fails u w)
    as [(_ & _ & Heq)|[(_ & Heq)|(_ & _ & r & w1 & _ & Heq)]].
  - rewrite Heq. apply IH.
  - rewrite Heq. apply Hattempt. intros. apply IH.
  - destruct r as [[|pick picks]|pn]; rewrite Heq; [done| |done].
    apply Hattempt. intros. apply IH.
Qed.

Lemma ServeDNS_log (Q : list Event -> Prop) (e : Edge) (w : ResponseWriter)
  (r : Msg) (world : World) :
  Q [] -> (forall m, Q [EvWriteMsg m]) ->
  (forall l w1,
     list_ net e world = (Ok l, w1, []) ->
     Q (serve_loop net e (forwarded e w r) l 0 None w1).2) ->
  Q (ServeDNS net e w r world).2.
Proof.
  intros Hnil Hw Hloop.
  destruct (forwards e w r) eqn:Hf.
  - rewrite (ServeDNS_forwards net _ _ _ Hf). unfold bind.
    pose proof (list_quiet net e world) as Hq.
    destruct (list_ net e world) as [[[l|pn] w1] evl]; simpl in Hq;
      subst evl; [|done].
    pose proof (Hloop l w1 eq_refl) as H1.
    by destruct (serve_loop net e _ l 0 None w1) as [[res w2] evs].
  - revert Hf. unfold forwards, ServeDNS.
    destruct (match_ e _); simpl; [|done].
    destruct (extractLocationRecord r) as [[r1 loc] locFound].
    destruct (negb locFound && _); simpl; [intros _; apply Hw|].
    destruct (Lookup _ _) as [edgeSites entryFound].
    destruct (entryFound && _); simpl; [intros _; apply Hw|].
    destruct (NumUpstreams e =? 0)%nat; simpl; done.
Qed.

(** X13. Every message [ServeDNS] sends to an upstream is the request
    with the location record of the client taken out and the one of this
    cluster put in, on every attempt alike, and every dial uses TCP when
    [forceTCP] is set and the transport of the client otherwise. *)
Theorem ServeDNS_sends_request_with_own_location (e : Edge)
  (w : ResponseWriter) (r : Msg) (world : World) :
  let evs := (ServeDNS net e w r world).2 in
  let r1 := (extractLocationRecord r).1.1 in
  Forall (fun a => a.2 = insertLocationRecord r1 (locRR e)) (sent evs)
  /\ Forall (fun t => t = if forceTCP e then "tcp"%string
                          else Proto {| Req := r; W := w; name := "" |})
            (protos evs).
Proof.
  intros evs r1. subst evs.
  assert (Req (forwarded e w r) = insertLocationRecord r1 (locRR e)
          /\ Proto (forwarded e w r)
             = Proto {| Req := r; W := w; name := "" |}) as [HR HP].
  { subst r1. unfold forwarded.
    by destruct (extractLocationRecord r) as [[? ?] ?]. }
  rewrite <- HR, <- HP.
  apply ServeDNS_log.
  - split; constructor.
  - intros m. split; constructor.
  - intros l w1 _. apply serve_loop_log.
    + split; constructor.
    + intros a b [Ha1 Ha2] [Hb1 Hb2]. rewrite sent_app, protos_app.
      split; by apply Forall_app.
    + intros p w2. apply connect_log.
    + intros. split; constructor.
    + intros. split; constructor.
    + intros. split; constructor.
Qed.

Lemma Forward_log (e : option Edge) (state : Request) (world : World) :
  let evs := (Forward net e state world).2 in
  Forall (fun a => a.2 = Req state) (sent evs)
  /\ written evs = [] /\ probes evs = [].
Proof.
  intros evs. subst evs. destruct e as [e|]; [|by repeat constructor].
  unfold Forward, bind.
  pose proof (list_quiet net e world) as Hq.
  destruct (list_ net e world) as [[[l|pn] w1] evl]; simpl in Hq; subst evl;
    [|by repeat constructor].
  pose proof (forward_loop_log
                (fun evs => Forall (fun a => a.2 = Req state) (sent evs)
                            /\ written evs = [] /\ probes evs = [])
                e state) as H.
  destruct (forward_loop net e state l 0 None w1) as [[res w2] evs] eqn:Hl.
  simpl. specialize (H ltac:(by repeat constructor)).
  change evs with (res, w2, evs).2. rewrite <- Hl. apply H.
  - intros a b (Ha1 & Ha2 & Ha3) (Hb1 & Hb2 & Hb3).
    rewrite sent_app, written_app, probes_app, Ha2, Ha3, Hb2, Hb3.
    split; [by apply Forall_app|done].
  - intros p w3. split; [apply connect_log|].
    destruct (connect_run net p state (forceTCP e) w3)
      as (r & w' & evs' & -> & _ & _ & Hw & Hp). done.
  - intros. by repeat constructor.
Qed.

(** X14. [Forward] forwards the request as it is: every message it sends
    to an upstream is the request of the state it was given.  It writes
    nothing to the client and starts no health check, whatever the
    outcome. *)
Theorem Forward_forwards_as_is (e : option Edge) (state : Request)
  (world : World) :
  let evs := (Forward net e state world).2 in
  Forall (fun a => a.2 = Req state) (sent evs)
  /\ written evs = [] /\ probes evs = [].
Proof. apply Forward_log. Qed.

(** ** Health checks and dials *)

Lemma failed_app (a b : list (Proxy * result)) :
  failed (a ++ b) = failed a ++ failed b.
Proof. apply omap_app. Qed.



Lemma connect_retry_dials_le (p : Proxy) (state : Request) (forceTCP : bool)
  (w : World) :
  length (dialled (connect_retry net p state forceTCP w).2) <= 2.
Proof.
  unfold connect_retry, bind.
  destruct (connect_run net p state forceTCP w)
    as (r & w1 & evs1 & -> & Hd1 & _).
  destruct r as [m|err]; simpl; [rewrite app_nil_r, Hd1; simpl; lia|].
  destruct (is_EOF err); [|simpl; rewrite app_nil_r, Hd1; simpl; lia].
  destruct (connect_run net p state forceTCP w1)
    as (r2 & w2 & evs2 & -> & Hd2 & _).
  simpl. rewrite dialled_app, Hd1, Hd2. simpl. lia.
Qed.

Lemma serve_loop_dials (e : Edge) (state : Request) (l : list Proxy) :
  forall fails u w,
    length (dialled (serve_loop net e state l fails u w).2) <= 2 * length l.
Proof.
  assert (forall proxy fails k w n,
            (forall u w, length (dialled (k u w).2) <= n) ->
            length (dialled (serve_attempt net e state proxy fails k w).2)
            <= 2 + n) as Hattempt.
  { intros proxy fails k w n Hk.
    pose proof (connect_retry_dials_le proxy state (forceTCP e) w) as H1.
    destruct (serve_attempt_run net e state proxy fails k w)
      as (r & w1 & evs1 & Hrun & _ & _ & _ & _ & _ & Heq).
    rewrite Hrun in H1. simpl in H1.
    rewrite Heq. destruct (truncated r) as [m|err].
    { simpl. rewrite dialled_app. simpl. rewrite app_nil_r. lia. }
    cbv zeta.
    assert (dialled (evs1 ++ EvUpstream proxy (Failure err)
                       :: (if (maxUpstreamFails e =? 0)%Z then []
                           else [EvHealthcheck proxy])) = dialled evs1)
      as Hpre.
    { rewrite dialled_app.
      destruct (maxUpstreamFails e =? 0)%Z; simpl; by rewrite app_nil_r. }
    destruct (fails <? length (proxies e))%nat.
    - pose proof (Hk (Some err) w1) as H3.
      destruct (k (Some err) w1) as [[v w2] evs3]. simpl in *.
      rewrite dialled_app, Hpre, length_app. lia.
    - simpl. rewrite Hpre. lia. }
  induction l as [|proxy rest IH]; intros fails u w; [simpl; lia|].
  destruct (serve_loop_cons net e state proxy rest fails u w)
    as [(_ & _ & Heq)|[(_ & Heq)|(_ & _ & r & w1 & _ & Heq)]].
  - rewrite Heq. specialize (IH (S fails) u w). simpl. lia.
  - rewrite Heq.
    pose proof (Hattempt proxy fails (serve_loop net e state rest fails) w
                  (2 * length rest)
                  (fun u w => IH fails u w)).
    simpl. lia.
  - destruct r as [[|pick picks]|pn]; rewrite Heq;
      [simpl; lia| |simpl; lia].
    pose proof (Hattempt pick (S fails)
                  (serve_loop net e state rest (S fails)) w1
                  (2 * length rest)
                  (fun u w => IH (S fails) u w)).
    simpl. lia.
Qed.

Lemma forward_loop_dials (e : Edge) (state : Request) (l : list Proxy) :
  forall fails u w,
    length (dialled (forward_loop net e state l fails u w).2) <= length l.
Proof.
  assert (forall proxy fails k w n,
            (forall u w, length (dialled (k u w).2) <= n) ->
            length (dialled (forward_attempt net e state proxy fails k w).2)
            <= 1 + n) as Hattempt.
  { intros proxy fails k w n Hk.
    destruct (forward_attempt_run net e state proxy fails k w)
      as (r & w1 & evs1 & _ & Hd1 & _ & _ & _ & Heq).
    rewrite Heq. destruct (truncated r) as [m|err].
    { simpl. rewrite dialled_app, Hd1. simpl. lia. }
    cbv zeta.
    destruct (fails <? length (proxies e))%nat.
    - pose proof (Hk (Some err) w1) as H3.
      destruct (k (Some err) w1) as [[v w2] evs3]. simpl in *.
      rewrite !dialled_app, Hd1, !length_app. simpl. lia.
    - simpl. rewrite dialled_app, Hd1. simpl. lia. }
  induction l as [|proxy rest IH]; intros fails u w.
  { simpl. destruct u; simpl; lia. }
  destruct (forward_loop_cons net e state proxy rest fails u w)
    as [(_ & _ & Heq)|[(_ & Heq)|(_ & _ & r & w1 & _ & Heq)]].
  - rewrite Heq. specialize (IH (S fails) u w). simpl. lia.
  - rewrite Heq.
    pose proof (Hattempt proxy fails (forward_loop net e state rest fails) w
                  (length rest) (fun u w => IH fails u w)).
    simpl. lia.
  - destruct r as [[|pick picks]|pn]; rewrite Heq;
      [simpl; lia| |simpl; lia].
    pose proof (Hattempt pick (S fails)
                  (forward_loop net e state rest (S fails)) w1
                  (length rest) (fun u w => IH (S fails) u w)).
    simpl. lia.
Qed.

Lemma list_length (e : Edge) (w : World) l w1 evs :
  fair_source net ->
  list_ net e w = (Ok l, w1, evs) -> length l = length (proxies e).
Proof.
  intros Hfair. unfold list_, Policy_List. destruct (policy e).
  - destruct (random_List_run net (proxies e) w Hfair)
      as (l' & w' & -> & Hp).
    intros [= <- <- <-]. by rewrite Hp.
  - intros H. apply roundRobin_List_Ok in H. by rewrite H.
Qed.

(** X16. The number of dials is bounded by the number of proxies:
    [ServeDNS] dials at most twice per configured proxy (the second time
    after an EOF) and [Forward] at most once per configured proxy, when
    [rand.Perm] returns permutations. *)
Theorem dials_are_bounded (e : Edge) (w : ResponseWriter) (r : Msg)
  (state : Request) (world : World) :
  fair_source net ->
  length (dialled (ServeDNS net e w r world).2) <= 2 * length (proxies e)
  /\ length (dialled (Forward net (Some e) state world).2)
     <= length (proxies e).
Proof.
  intros Hfair. split.
  - apply (ServeDNS_log
             (fun evs => length (dialled evs) <= 2 * length (proxies e))).
    + simpl. lia.
    + intros m. simpl. lia.
    + intros l w1 Hl. rewrite <- (list_length _ _ _ _ _ Hfair Hl).
      apply serve_loop_dials.
  - unfold Forward, bind.
    pose proof (list_quiet net e world) as Hq.
    destruct (list_ net e world) as [[[l|pn] w1] evl] eqn:Hl; simpl in Hq;
      subst evl; [|simpl; lia].
    pose proof (forward_loop_dials e state l 0 None w1) as H.
    destruct (forward_loop net e state l 0 None w1) as [[res w2] evs].
    simpl in *. by rewrite <- (list_length _ _ _ _ _ Hfair Hl).
Qed.

(** ** The policies *)

Lemma permute_world (p : list Proxy) (perms : list nat) (w : World) :
  (permute p perms w).1.2 = w.
Proof.
  induction perms as [|i perms IH]; [done|]. simpl. unfold bind, index.
  destruct (p !! i); simpl; [|done].
  destruct (permute p perms w) as [[[l|pn] w1] evs]; simpl in *; done.
Qed.

(** X17. When [rand.Perm] returns permutations, [random.List] returns the
    proxies it was given in some order: the same proxies as often as they
    were given.  It uses the random source once, and not at all for a
    single proxy, and it leaves the round-robin counter alone. *)
Theorem random_List_permutes (p : list Proxy) (w : World) :
  fair_source net ->
  exists l w1,
    random_List net p w = (Ok l, w1, []) /\ l ≡ₚ p
    /\ now w1 = now w /\ robin w1 = robin w
    /\ drawn w1 = if (length p =? 1)%nat then drawn w else S (drawn w).
Proof.
  intros Hfair.
  destruct (random_List_run net p w Hfair) as (l & w1 & Hrun & Hp).
  exists l, w1. split; [done|]. split; [done|].
  assert (bind draw (fun t => permute p (rand_Perm net t (length p))) w
          = (Ok l, w1, []) ->
          now w1 = now w /\ robin w1 = robin w /\ drawn w1 = S (drawn w))
    as Hperm.
  { unfold bind, draw.
    match goal with
    | |- context [permute p ?s ?w0] =>
        pose proof (permute_world p s w0) as Hw;
        destruct (permute p s w0) as [[[l'|pn] w'] evs']
    end; simpl in Hw; subst w'; simpl; intros H; inversion H; subst; done. }
  destruct p as [|a [|b [|c p]]].
  - by apply Hperm.
  - injection Hrun as <- <-. done.
  - revert Hrun. unfold random_List, bind, draw.
    destruct (_ =? 0)%Z; intros [= <- <-]; done.
  - by apply Hperm.
Qed.

Lemma omap_seq_S {A} (f : nat -> option A) (k a : nat) :
  omap f (seq (S a) k) = omap (fun j => f (S j)) (seq a k).
Proof.
  revert a. induction k as [|k IH]; intros a; [done|]. simpl.
  destruct (f (S a)); [f_equal|]; apply IH.
Qed.

Lemma omap_pointwise {A B} (f g : A -> option B) (l : list A) :
  (forall x, f x = g x) -> omap f l = omap g l.
Proof.
  intros H. induction l as [|x l IH]; [done|]. simpl. rewrite H.
  destruct (g x); [f_equal|]; exact IH.
Qed.

Lemma omap_after_fmap {A B C} (f : B -> option C) (g : A -> B) (l : list A) :
  omap f (g <$> l) = omap (fun x => f (g x)) l.
Proof.
  induction l as [|x l IH]; [done|]. simpl.
  destruct (f (g x)); [f_equal|]; exact IH.
Qed.

(** The indices [(c + j) mod n] for [j] in [0, n) are the numbers below
    [n], each once. *)
Lemma turns_permutation (n : nat) (c : Z) :
  0 < n ->
  (fun j => Z.to_nat ((c + Z.of_nat j) mod Z.of_nat n)) <$> seq 0 n
  ≡ₚ seq 0 n.
Proof.
  intros Hn.
  assert (forall z, 0 <= z mod Z.of_nat n < Z.of_nat n)%Z as Hmod
    by (intros; apply Z.mod_pos_bound; lia).
  apply NoDup_Permutation.
  - apply NoDup_fmap_2_strong; [|apply NoDup_seq].
    intros x y Hx Hy Heq. apply elem_of_seq in Hx, Hy.
    apply Z2Nat.inj in Heq; [|apply Hmod|apply Hmod].
    pose proof (Z.div_mod (c + Z.of_nat x) (Z.of_nat n) ltac:(lia)) as Ex.
    pose proof (Z.div_mod (c + Z.of_nat y) (Z.of_nat n) ltac:(lia)) as Ey.
    rewrite Heq in Ex.
    set (q1 := ((c + Z.of_nat x) `div` Z.of_nat n)%Z) in *.
    set (q2 := ((c + Z.of_nat y) `div` Z.of_nat n)%Z) in *.
    assert (q1 = q2) as Hq by nia.
    rewrite Hq in Ex. lia.
  - apply NoDup_seq.
  - intros x. rewrite list_elem_of_fmap, elem_of_seq. split.
    + intros (j & -> & _). pose proof (Hmod (c + Z.of_nat j)%Z). lia.
    + intros Hx.
      exists (Z.to_nat ((Z.of_nat x - c) mod Z.of_nat n)). split.
      * rewrite Z2Nat.id by apply Hmod.
        rewrite Zplus_mod_idemp_r.
        replace (c + (Z.of_nat x - c))%Z with (Z.of_nat x) by lia.
        rewrite Z.mod_small by lia. lia.
      * apply elem_of_seq. pose proof (Hmod (Z.of_nat x - c)%Z). lia.
Qed.

(** X18. The round-robin policy takes turns.  As long as the counter does
    not wrap around, the [j]-th of [k] calls in a row puts the proxy at
    index [(counter + 1 + j) mod n] at the head, the counter has advanced
    by [k] afterwards, and the heads of [n] calls in a row are the [n]
    proxies, each once. *)
Theorem roundRobin_takes_turns (p : list Proxy) (k : nat) (w : World) :
  p <> [] -> (Z.of_nat (length p) < 2 ^ 32)%Z ->
  (0 <= robin w)%Z -> (robin w + Z.of_nat k < 2 ^ 32)%Z ->
  exists ls w',
    listings net roundRobin p k w = (Ok ls, w', [])
    /\ robin w' = (robin w + Z.of_nat k)%Z
    /\ omap head ls
       = omap (fun j => p !! Z.to_nat ((robin w + 1 + Z.of_nat j)
                                        mod Z.of_nat (length p)))
              (seq 0 k)
    /\ (k = length p -> omap head ls ≡ₚ p).
Proof.
  intros Hp Hlen.
  assert (forall k w, (0 <= robin w)%Z -> (robin w + Z.of_nat k < 2 ^ 32)%Z ->
            exists ls w',
              listings net roundRobin p k w = (Ok ls, w', [])
              /\ robin w' = (robin w + Z.of_nat k)%Z
              /\ omap head ls
                 = omap (fun j => p !! Z.to_nat ((robin w + 1 + Z.of_nat j)
                                                  mod Z.of_nat (length p)))
                        (seq 0 k)) as Hturns.
  { clear k w. intros k. induction k as [|k IH]; intros w H0 Hk.
    { exists [], w. split; [done|]. split; [lia|done]. }
    destruct (roundRobin_List_nonempty p w Hp Hlen) as (p_i & Hi & Hrun).
    cbv zeta in Hi, Hrun.
    assert (uint32 (robin w + 1) = (robin w + 1)%Z) as Hu
      by (unfold uint32; apply Z.mod_small; lia).
    rewrite Hu in Hi, Hrun.
    destruct (IH {| now := now w; drawn := drawn w;
                    robin := (robin w + 1)%Z |})
      as (ls & w' & Hls & Hr & Hh); [simpl; lia|simpl; lia|].
    simpl in Hr, Hh.
    eexists (_ :: ls), w'. split; [|split].
    - change (listings net roundRobin p (S k) w)
        with (bind (roundRobin_List p)
                (fun l => bind (listings net roundRobin p k)
                            (fun ls => ret (l :: ls))) w).
      unfold bind at 1. rewrite Hrun. unfold bind. rewrite Hls. reflexivity.
    - lia.
    - change (seq 0 (S k)) with (0 :: seq 1 k).
      cbn [omap list_omap head]. rewrite Z.add_0_r, Hi. cbn [head].
      f_equal. rewrite Hh, omap_seq_S. apply omap_pointwise.
      intros j. do 3 f_equal. lia. }
  intros H0 Hk.
  destruct (Hturns k w H0 Hk) as (ls & w' & Hls & Hr & Hh).
  exists ls, w'. split; [done|]. split; [done|]. split; [done|].
  intros ->. rewrite Hh.
  rewrite <- (omap_after_fmap (fun i => p !! i)
                (fun j => Z.to_nat ((robin w + 1 + Z.of_nat j)
                                    mod Z.of_nat (length p)))).
  rewrite turns_permutation by (destruct p; simpl; [done|lia]).
  by rewrite omap_lookup_seq.
Qed.

(** ** Which proxies are contacted *)

Lemma permute_elems (p : list Proxy) (perms : list nat) :
  forall w l w1 evs,
    permute p perms w = (Ok l, w1, evs) -> forall x, x ∈ l -> x ∈ p.
Proof.
  induction perms as [|i perms IH]; intros w l w1 evs.
  { intros [= <- <- <-] x Hx. by apply elem_of_nil in Hx. }
  simpl. unfold bind, index.
  destruct (p !! i) as [y|] eqn:Hy; simpl; [|discriminate].
  destruct (permute p perms w) as [[[l'|pn] w'] evs'] eqn:Hrun;
    simpl; [|discriminate].
  intros [= <- <- <-] x Hx. apply elem_of_cons in Hx as [->|Hx].
  - by eapply list_elem_of_lookup_2.
  - by eapply IH.
Qed.

Lemma random_List_elems (p : list Proxy) (w : World) l w1 evs :
  random_List net p w = (Ok l, w1, evs) -> forall x, x ∈ l -> x ∈ p.
Proof.
  assert (bind draw (fun t => permute p (rand_Perm net t (length p))) w
          = (Ok l, w1, evs) -> forall x, x ∈ l -> x ∈ p) as Hperm.
  { unfold bind, draw.
    match goal with
    | |- context [permute p ?s ?w0] =>
        pose proof (permute_elems p s w0) as He;
        destruct (permute p s w0) as [[[l'|pn] w'] evs']
    end; simpl; [|discriminate].
    intros [= <- <- <-]. by eapply He. }
  destruct p as [|a [|b [|c p]]]; try exact Hperm.
  - by intros [= <- <- <-].
  - unfold random_List, bind, draw.
    destruct (_ =? 0)%Z; intros [= <- <- <-] x Hx; [|done].
    rewrite !elem_of_cons in *. tauto.
Qed.

Lemma list_elems (e : Edge) (w : World) l w1 evs :
  list_ net e w = (Ok l, w1, evs) -> forall x, x ∈ l -> x ∈ proxies e.
Proof.
  unfold list_, Policy_List. destruct (policy e).
  - apply random_List_elems.
  - intros H x Hx. apply roundRobin_List_Ok in H. by rewrite <- H.
Qed.

Lemma connect_retry_dials_same (p : Proxy) (state : Request)
  (forceTCP : bool) (w : World) :
  Forall (fun q => q = p) (dialled (connect_retry net p state forceTCP w).2).
Proof.
  apply (connect_retry_log (fun evs => Forall (fun q => q = p) (dialled evs))).
  - constructor.
  - intros a b Ha Hb. rewrite dialled_app. by apply Forall_app.
  - intros w0. destruct (connect_run net p state forceTCP w0)
      as (r & w' & evs & -> & Hd & _).
    simpl. rewrite Hd. by repeat constructor.
Qed.

Lemma serve_loop_dials_in (e : Edge) (state : Request) (l : list Proxy) :
  (forall x, x ∈ l -> x ∈ proxies e) ->
  forall fails u w,
    Forall (fun q => q ∈ proxies e)
           (dialled (serve_loop net e state l fails u w).2).
Proof.
  assert (forall proxy fails k w,
            proxy ∈ proxies e ->
            (forall u w, Forall (fun q => q ∈ proxies e) (dialled (k u w).2)) ->
            Forall (fun q => q ∈ proxies e)
              (dialled (serve_attempt net e state proxy fails k w).2))
    as Hattempt.
  { intros proxy fails k w Hin Hk.
    pose proof (connect_retry_dials_same proxy state (forceTCP e) w) as H1.
    destruct (serve_attempt_run net e state proxy fails k w)
      as (r & w1 & evs1 & Hrun & _ & _ & _ & _ & _ & Heq).
    rewrite Hrun in H1. simpl in H1.
    assert (Forall (fun q => q ∈ proxies e) (dialled evs1)) as H2.
    { eapply Forall_impl; [exact H1|]. by intros q ->. }
    rewrite Heq. destruct (truncated r) as [m|err].
    { simpl. rewrite dialled_app. simpl. by rewrite app_nil_r. }
    cbv zeta.
    assert (dialled (evs1 ++ EvUpstream proxy (Failure err)
                       :: (if (maxUpstreamFails e =? 0)%Z then []
                           else [EvHealthcheck proxy])) = dialled evs1)
      as Hpre.
    { rewrite dialled_app.
      destruct (maxUpstreamFails e =? 0)%Z; simpl; by rewrite app_nil_r. }
    destruct (fails <? length (proxies e))%nat.
    - pose proof (Hk (Some err) w1) as H3.
      destruct (k (Some err) w1) as [[v w2] evs3]. simpl in *.
      rewrite dialled_app, Hpre. by apply Forall_app.
    - simpl. by rewrite Hpre. }
  induction l as [|proxy rest IH]; intros Hl fails u w; [constructor|].
  assert (forall x, x ∈ rest -> x ∈ proxies e) as Hrest
    by (intros x Hx; apply Hl; by right).
  destruct (serve_loop_cons net e state proxy rest fails u w)
    as [(_ & _ & Heq)|[(_ & Heq)|(_ & _ & r & w1 & Hr & Heq)]].
  - rewrite Heq. by apply IH.
  - rewrite Heq. apply Hattempt; [apply Hl; left|]. intros. by apply IH.
  - destruct r as [[|pick picks]|pn]; rewrite Heq; [constructor| |constructor].
    apply Hattempt; [|intros; by apply IH].
    eapply random_List_elems; [exact Hr|left].
Qed.

Lemma forward_loop_dials_in (e : Edge) (state : Request) (l : list Proxy) :
  (forall x, x ∈ l -> x ∈ proxies e) ->
  forall fails u w,
    Forall (fun q => q ∈ proxies e)
           (dialled (forward_loop net e state l fails u w).2).
Proof.
  assert (forall proxy fails k w,
            proxy ∈ proxies e ->
            (forall u w, Forall (fun q => q ∈ proxies e) (dialled (k u w).2)) ->
            Forall (fun q => q ∈ proxies e)
              (dialled (forward_attempt net e state proxy fails k w).2))
    as Hattempt.
  { intros proxy fails k w Hin Hk.
    destruct (forward_attempt_run net e state proxy fails k w)
      as (r & w1 & evs1 & _ & Hd1 & _ & _ & _ & Heq).
    rewrite Heq. destruct (truncated r) as [m|err].
    { simpl. rewrite dialled_app, Hd1. simpl. by repeat constructor. }
    cbv zeta.
    destruct (fails <? length (proxies e))%nat.
    - pose proof (Hk (Some err) w1) as H3.
      destruct (k (Some err) w1) as [[v w2] evs3]. simpl in *.
      rewrite !dialled_app, Hd1. simpl. by constructor.
    - simpl. rewrite dialled_app, Hd1. simpl. by repeat constructor. }
  induction l as [|proxy rest IH]; intros Hl fails u w.
  { simpl. destruct u; constructor. }
  assert (forall x, x ∈ rest -> x ∈ proxies e) as Hrest
    by (intros x Hx; apply Hl; by right).
  destruct (forward_loop_cons net e state proxy rest fails u w)
    as [(_ & _ & Heq)|[(_ & Heq)|(_ & _ & r & w1 & Hr & Heq)]].
  - rewrite Heq. by apply IH.
  - rewrite Heq. apply Hattempt; [apply Hl; left|]. intros. by apply IH.
  - destruct r as [[|pick picks]|pn]; rewrite Heq; [constructor| |constructor].
    apply Hattempt; [|intros; by apply IH].
    eapply list_elems; [exact Hr|left].
Qed.

(** X19. [ServeDNS] and [Forward] dial configured proxies only, also in
    the last resort and whatever the random source returns. *)
Theorem only_configured_proxies_are_dialled (e : Edge) (w : ResponseWriter)
  (r : Msg) (state : Request) (world : World) :
  Forall (fun q => q ∈ proxies e) (dialled (ServeDNS net e w r world).2)
  /\ Forall (fun q => q ∈ proxies e)
            (dialled (Forward net (Some e) state world).2).
Proof.
  split.
  - apply (ServeDNS_log
             (fun evs => Forall (fun q => q ∈ proxies e) (dialled evs)));
      [constructor|constructor|].
    intros l w1 Hl. apply serve_loop_dials_in. by eapply list_elems.
  - unfold Forward, bind.
    pose proof (list_quiet net e world) as Hq.
    destruct (list_ net e world) as [[[l|pn] w1] evl] eqn:Hl; simpl in Hq;
      subst evl; [|constructor].
    pose proof (forward_loop_dials_in e state l (list_elems _ _ _ _ _ Hl)
                  0 None w1) as H.
    by destruct (forward_loop net e state l 0 None w1) as [[res w2] evs].
Qed.

(** ** The round-robin counter *)

Lemma connect_robin (p : Proxy) (state : Request) (forceTCP : bool)
  (w : World) :
  robin (connect net p state forceTCP w).1.2 = robin w.
Proof.
  unfold connect, Dial, Conn_WriteMsg, Conn_ReadMsg, Close, Yield,
    bind, tick, emit, ret; simpl.
  destruct (dial net (now w) p _) as [conn|err]; simpl; [|done].
  destruct (writeMsg net _ _ _) as [err|]; simpl; [done|].
  destruct (readMsg net _ _) as [m|err]; simpl; done.
Qed.

Lemma connect_retry_robin (p : Proxy) (state : Request) (forceTCP : bool)
  (w : World) :
  robin (connect_retry net p state forceTCP w).1.2 = robin w.
Proof.
  unfold connect_retry, bind.
  pose proof (connect_robin p state forceTCP w) as H1.
  destruct (connect net p state forceTCP w) as [[[r|pn] w1] evs1];
    simpl in *; [|done].
  destruct r as [m|err]; simpl; [done|].
  destruct (is_EOF err); [|done].
  pose proof (connect_robin p state forceTCP w1) as H2.
  destruct (connect net p state forceTCP w1) as [[r2 w2] evs2].
  simpl in *. congruence.
Qed.

Lemma random_List_robin (p : list Proxy) (w : World) :
  robin (random_List net p w).1.2 = robin w.
Proof.
  assert (robin (bind draw
                   (fun t => permute p (rand_Perm net t (length p))) w).1.2
          = robin w) as Hperm.
  { unfold bind, draw.
    match goal with
    | |- context [permute p ?s ?w0] =>
        pose proof (permute_world p s w0) as Hw;
        destruct (permute p s w0) as [[[l'|pn] w'] evs']
    end; simpl in *; by subst w'. }
  destruct p as [|a [|b [|c p]]]; try exact Hperm; [done|].
  unfold random_List, bind, draw. by destruct (_ =? 0)%Z.
Qed.

Lemma serve_loop_robin (e : Edge) (state : Request) (l : list Proxy) :
  forall fails u w, robin (serve_loop net e state l fails u w).1.2 = robin w.
Proof.
  assert (forall proxy fails k w,
            (forall u w, robin (k u w).1.2 = robin w) ->
            robin (serve_attempt net e state proxy fails k w).1.2 = robin w)
    as Hattempt.
  { intros proxy fails k w Hk.
    pose proof (connect_retry_robin proxy state (forceTCP e) w) as H1.
    destruct (serve_attempt_run net e state proxy fails k w)
      as (r & w1 & evs1 & Hrun & _ & _ & _ & _ & _ & Heq).
    rewrite Hrun in H1. simpl in H1.
    rewrite Heq. destruct (truncated r) as [m|err]; [done|].
    cbv zeta. destruct (fails <? length (proxies e))%nat; [|done].
    pose proof (Hk (Some err) w1) as H3.
    destruct (k (Some err) w1) as [[v w2] evs3]. simpl in *. congruence. }
  induction l as [|proxy rest IH]; intros fails u w; [done|].
  destruct (serve_loop_cons net e state proxy rest fails u w)
    as [(_ & _ & Heq)|[(_ & Heq)|(_ & _ & r & w1 & Hr & Heq)]].
  - rewrite Heq. apply IH.
  - rewrite Heq. apply Hattempt. intros. apply IH.
  - pose proof (random_List_robin (proxies e) w) as H1.
    rewrite Hr in H1. simpl in H1.
    destruct r as [[|pick picks]|pn]; rewrite Heq; [done| |done].
    rewrite Hattempt; [done|]. intros. apply IH.
Qed.

(** X20. [ServeDNS] moves the round-robin counter by one turn for a
    request that reaches the forwarding loop under the round-robin policy,
    and not at all otherwise: requests answered here or handed on take no
    turn, and neither do retries, further attempts or the last resort,
    which asks the random policy. *)
Theorem ServeDNS_takes_one_turn (e : Edge) (w : ResponseWriter) (r : Msg)
  (world : World) :
  robin (ServeDNS net e w r world).1.2
  = match policy e with
    | roundRobin =>
        if forwards e w r then uint32 (robin world + 1) else robin world
    | random => robin world
    end.
Proof.
  destruct (forwards e w r) eqn:Hf.
  - rewrite (ServeDNS_forwards net _ _ _ Hf). unfold bind.
    assert (robin (list_ net e world).1.2
            = match policy e with
              | roundRobin => uint32 (robin world + 1)
              | random => robin world
              end) as Hl.
    { unfold list_, Policy_List. destruct (policy e).
      - apply random_List_robin.
      - unfold roundRobin_List, bind, atomic_AddUint32_robin, go_rem.
        destruct (Z.eqb _ 0); [done|]. simpl.
        unfold index. by destruct (proxies e !! _). }
    destruct (list_ net e world) as [[[l|pn] w1] evl]; simpl in Hl; [|done].
    pose proof (serve_loop_robin e (forwarded e w r) l 0 None w1) as H1.
    destruct (serve_loop net e _ l 0 None w1) as [[res w2] evs].
    simpl in *. congruence.
  - assert (robin (ServeDNS net e w r world).1.2 = robin world) as ->;
      [|by destruct (policy e)].
    revert Hf. unfold forwards, ServeDNS.
    destruct (match_ e _); simpl; [|done].
    destruct (extractLocationRecord r) as [[r1 loc] locFound].
    destruct (negb locFound && _); simpl; [done|].
    destruct (Lookup _ _) as [edgeSites entryFound].
    destruct (entryFound && _); simpl; [done|].
    destruct (NumUpstreams e =? 0)%nat; simpl; done.
Qed.

Lemma forward_attempt_robin (e : Edge) (state : Request) (proxy : Proxy)
  (fails : nat) (k : option error -> M (option Msg * option error))
  (w : World) (c : Z) :
  robin w = c ->
  ((fails <? length (proxies e))%nat = true ->
   forall u w, robin w = c -> robin (k u w).1.2 = c) ->
  robin (forward_attempt net e state proxy fails k w).1.2 = c.
Proof.
  intros Hw Hk.
  pose proof (connect_robin proxy state (forceTCP e) w) as H1.
  destruct (forward_attempt_run net e state proxy fails k w)
    as (r & w1 & evs1 & Hrun & _ & _ & _ & _ & Heq).
  rewrite Hrun in H1. simpl in H1.
  rewrite Heq. destruct (truncated r) as [m|err]; [simpl; congruence|].
  cbv zeta. destruct (fails <? length (proxies e))%nat; [|simpl; congruence].
  pose proof (Hk eq_refl (Some err) w1 ltac:(congruence)) as H3.
  by destruct (k (Some err) w1) as [[v w2] evs3].
Qed.

Lemma forward_loop_robin_up (e : Edge) (state : Request) (l : list Proxy) :
  forall fails u w,
    fails + downs e l < length (proxies e) ->
    robin (forward_loop net e state l fails u w).1.2 = robin w.
Proof.
  induction l as [|proxy rest IH]; intros fails u w Hlt.
  { simpl. by destruct u. }
  rewrite downs_cons in Hlt.
  destruct (forward_loop_cons net e state proxy rest fails u w)
    as [(Hd & _ & Heq)|[(Hd & Heq)|(Hd & Hge & _)]]; rewrite Hd in Hlt.
  - rewrite Heq. apply IH. lia.
  - rewrite Heq. apply forward_attempt_robin; [done|].
    intros _ u' w' <-. apply IH. lia.
  - lia.
Qed.

Lemma forward_loop_robin_dead (e : Edge) (state : Request) (l : list Proxy) :
  policy e = roundRobin -> proxies e <> [] ->
  (Z.of_nat (length (proxies e)) < 2 ^ 32)%Z ->
  Forall (fun q => Down q (maxUpstreamFails e) = true) l ->
  forall fails u w,
    fails + length l = length (proxies e) -> l <> [] ->
    robin (forward_loop net e state l fails u w).1.2 = uint32 (robin w + 1).
Proof.
  intros Hpol Hne Hlen.
  induction l as [|proxy rest IH]; intros Hall fails u w Hn Hl; [done|].
  apply Forall_cons in Hall as [Hd Hall]. simpl in Hn.
  destruct (forward_loop_cons net e state proxy rest fails u w)
    as [(_ & Hlt & Heq)|[(Hd' & _)|(_ & Hge & r & w1 & Hr & Heq)]].
  - rewrite Heq. apply IH; [done|lia|].
    destruct rest; [simpl in *; lia|done].
  - congruence.
  - destruct (roundRobin_List_nonempty (proxies e) w Hne Hlen)
      as (p_i & _ & Hrun). cbv zeta in Hrun.
    unfold list_, Policy_List in Hr. rewrite Hpol, Hrun in Hr.
    injection Hr as <- <-. rewrite Heq.
    apply forward_attempt_robin; [done|].
    intros Hlt. apply Nat.ltb_lt in Hlt. lia.
Qed.

(** X21. Under the round-robin policy, with at least one and fewer than
    2^32 proxies, [Forward] moves the counter by one turn when some proxy
    is up and by two when all proxies are down: its last resort asks the
    policy a second time. *)
Theorem Forward_takes_a_second_turn_in_the_last_resort (e : Edge)
  (state : Request) (world : World) :
  policy e = roundRobin -> proxies e <> [] ->
  (Z.of_nat (length (proxies e)) < 2 ^ 32)%Z ->
  robin (Forward net (Some e) state world).1.2
  = if forallb (fun q => Down q (maxUpstreamFails e)) (proxies e)
    then uint32 (uint32 (robin world + 1) + 1)
    else uint32 (robin world + 1).
Proof.
  intros Hpol Hne Hlen. unfold Forward, bind.
  destruct (roundRobin_List_nonempty (proxies e) world Hne Hlen)
    as (p_i & Hi & Hrun). cbv zeta in Hi, Hrun.
  pose proof (roundRobin_List_Ok _ _ _ _ _ Hrun) as Hperm.
  unfold list_ at 1. unfold Policy_List. rewrite Hpol, Hrun.
  match goal with
  | |- context [forward_loop net e state ?l0 0 None ?w0] =>
      set (l := l0) in *; set (w1 := w0) in *
  end.
  assert (robin w1 = uint32 (robin world + 1)) as Hw1 by reflexivity.
  assert (l <> []) as Hl by done.
  clearbody l w1.
  assert (robin (forward_loop net e state l 0 None w1).1.2
          = if forallb (fun q => Down q (maxUpstreamFails e)) (proxies e)
            then uint32 (robin w1 + 1) else robin w1) as H.
  { destruct (forallb _ (proxies e)) eqn:Hall.
    - apply forward_loop_robin_dead; try done.
      + rewrite forallb_forall in Hall. apply Forall_forall.
        intros q Hq. apply Hall. apply list_elem_of_In. by rewrite <- Hperm.
      + simpl. by rewrite Hperm.
    - apply forward_loop_robin_up. simpl.
      assert (downs e l < length l) as Hlt; [|by rewrite <- Hperm].
      apply not_true_iff_false in Hall.
      destruct (decide (downs e l < length l)) as [|Hge]; [done|].
      exfalso. apply Hall. apply forallb_forall. intros q Hq.
      destruct (Down q (maxUpstreamFails e)) eqn:Hd; [done|].
      exfalso. apply Hge. eapply downs_lt; [|exact Hd].
      rewrite Hperm. by apply list_elem_of_In. }
  destruct (forward_loop net e state l 0 None w1) as [[res w2] evs].
  simpl in *. by rewrite <- Hw1.
Qed.

(** ** Requests that carry a location record *)

Lemma serve_attempt_same_fields (e e' : Edge) (state : Request)
  (proxy : Proxy) (fails : nat) (k k' : option error -> M Verdict)
  (w : World) :
  proxies e = proxies e' -> maxUpstreamFails e = maxUpstreamFails e' ->
  forceTCP e = forceTCP e' ->
  (forall u w, k u w = k' u w) ->
  serve_attempt net e state proxy fails k w
  = serve_attempt net e' state proxy fails k' w.
Proof.
  intros Hp Hm Hf Hk. unfold serve_attempt, bind.
  rewrite <- Hp, <- Hm, <- Hf.
  destruct (connect_retry net proxy state (forceTCP e) w)
    as [[[r|pn] w1] evs1]; [|done].
  destruct (truncated r) as [m|err]; simpl; [done|].
  destruct (_ =? 0)%Z; simpl;
    destruct (fails <? length (proxies e))%nat; simpl; by rewrite ?Hk.
Qed.

Lemma serve_loop_same_fields (e e' : Edge) (state : Request)
  (l : list Proxy) :
  proxies e = proxies e' -> maxUpstreamFails e = maxUpstreamFails e' ->
  forceTCP e = forceTCP e' ->
  forall fails u w,
    serve_loop net e state l fails u w = serve_loop net e' state l fails u w.
Proof.
  intros Hp Hm Hf. induction l as [|proxy rest IH]; intros fails u w;
    [done|].
  cbn [serve_loop]. rewrite <- Hp, <- Hm.
  destruct (Down proxy (maxUpstreamFails e)).
  - destruct (S fails <? length (proxies e))%nat; [apply IH|].
    unfold bind. destruct (random_List net (proxies e) w)
      as [[[picks|pn] w1] evs1]; [|done].
    unfold index. destruct (picks !! 0); simpl; [|done].
    by rewrite (serve_attempt_same_fields e e' state _ _ _
                  (serve_loop net e' state rest (S fails)) w1 Hp Hm Hf
                  (IH (S fails))).
  - by apply serve_attempt_same_fields.
Qed.

(** X22. A request that carries a location record is never answered from
    the set of local services: for such a request [ServeDNS] does the same
    whatever services run here.  Only the table can answer it. *)
Theorem located_request_bypasses_local_services (e : Edge)
  (s : gset string) (w : ResponseWriter) (r : Msg) (world : World) :
  (extractLocationRecord r).2 = true ->
  ServeDNS net (with_services e s) w r world = ServeDNS net e w r world.
Proof.
  intros Hloc. unfold ServeDNS.
  change (match_ (with_services e s)) with (match_ e).
  destruct (match_ e _); simpl; [|done].
  destruct (extractLocationRecord r) as [[r1 loc] locFound].
  simpl in Hloc. subst locFound. simpl.
  destruct (Lookup _ _) as [edgeSites entryFound].
  destruct (entryFound && _); [done|].
  change (NumUpstreams (with_services e s)) with (NumUpstreams e).
  destruct (NumUpstreams e =? 0)%nat; [done|].
  change (list_ net (with_services e s)) with (list_ net e).
  unfold bind. destruct (list_ net e world) as [[[l|pn] w1] evl]; [|done].
  by rewrite (serve_loop_same_fields (with_services e s) e).
Qed.

(** ** [New] *)

(** X23. An [Edge] as [New] returns it, with nothing configured, answers
    no request and contacts nobody: every request whose name the default
    base domain, the root, matches goes to the next plugin, with its
    location record removed. *)
Theorem New_hands_on_every_request (origin : Point) (w : ResponseWriter)
  (r : Msg) (world : World) :
  Matches "." (Name {| Req := r; W := w; name := "" |}) = true ->
  ServeDNS net (New origin) w r world
  = (Ok (NextOrFailure (extractLocationRecord r).1.1), world, []).
Proof.
  intros Hm. unfold ServeDNS, match_, isAllowedDomain. simpl.
  rewrite Hm. simpl.
  destruct (String.eqb _ "."); simpl;
    destruct (extractLocationRecord r) as [[r1 loc] locFound]; simpl;
    unfold Contains, Lookup;
    rewrite bool_decide_eq_false_2 by apply not_elem_of_empty;
    rewrite andb_false_r, lookup_empty; reflexivity.
Qed.

(** ** [Edge.Lookup] *)

Section LookupFacts.
Variable SizeAndDo : Request -> Msg -> Msg.

(** X24. [Lookup] forges its own request: what it sends upstream is a
    fresh query for the given name and type, of class INET and with the RD
    bit set, as [SizeAndDo] leaves it, and the same on every attempt; the
    request of the state it was given reaches the upstream through
    [SizeAndDo] only.  It writes nothing to the client and starts no health
    check, and on a nil receiver it does nothing and returns [errNoEdge]. *)
Theorem Lookup_forges_its_request (e : option Edge) (state : Request)
  (qname : string) (typ : Z) (world : World) :
  let query :=
    {| Id := dns_Id net (drawn world); Response := false; Opcode := 0;
       Authoritative := false; Truncated := false; RecursionDesired := true;
       CheckingDisabled := false; Rcode := 0; Compress := false;
       Question_ :=
         [ {| QName_ := qname; Qtype := typ; Qclass := ClassINET |} ];
       Answer := []; Ns := []; Extra := [] |} in
  let run := Edge_Lookup net SizeAndDo e state qname typ world in
  Forall (fun a => a.2 = SizeAndDo state query) (sent run.2)
  /\ written run.2 = [] /\ probes run.2 = []
  /\ (e = None -> run = (Ok (None, Some errNoEdge), world, [])).
Proof.
  intros query run. subst run.
  destruct e as [e|]; [|by repeat constructor].
  unfold Edge_Lookup, bind, draw.
  match goal with
  | |- context [Forward net (Some e) ?st ?w0] =>
      pose proof (Forward_log (Some e) st w0) as H;
      destruct (Forward net (Some e) st w0) as [[res w1] evs]
  end.
  simpl in *. destruct H as (Hs & Hw & Hp). done.
Qed.

(** X25. Whatever the upstreams reply, a message that [Lookup] returns is
    a response to the question asked: it carries one question, of the type
    asked for, whose name is the name asked for up to case (in its
    presentation form), or is the name itself when the message is the
    FormErr reply made for a reply that did not match.  [SizeAndDo] leaves
    the question section alone. *)
Theorem Lookup_answers_the_question (e : Edge) (state : Request)
  (qname : string) (typ : Z) (world : World) (m : Msg) (w' : World)
  (evs : list Event) :
  (forall st msg, Question_ (SizeAndDo st msg) = Question_ msg) ->
  Edge_Lookup net SizeAndDo (Some e) state qname typ world
  = (Ok (Some m, None), w', evs) ->
  Response m = true
  /\ exists q,
       Question_ m = [q] /\ Qtype q = typ
       /\ (ToLower (QName_ q) = ToLower (sprintName qname)
           \/ (QName_ q = qname /\ Rcode m = RcodeFormatError)).
Proof.
  intros Hq. unfold Edge_Lookup, Forward, bind, draw. cbn beta iota.
  match goal with
  | |- context [list_ net e ?w0] =>
      pose proof (list_quiet net e w0) as Hl;
      destruct (list_ net e w0) as [[[l|pn] w1] evl]
  end; simpl in Hl; subst evl; [|discriminate].
  match goal with
  | |- context [forward_loop net e ?st l 0 None w1] =>
      set (state2 := st)
  end.
  assert (Question_ (Req state2)
          = [ {| QName_ := qname; Qtype := typ; Qclass := ClassINET |} ])
    as HQ by (subst state2; simpl; by rewrite Hq).
  assert (name state2 = ""%string) as Hnm by reflexivity.
  clearbody state2.
  pose proof (forward_loop_result net e state2 l 0 None w1) as Hres.
  destruct (forward_loop net e state2 l 0 None w1) as [[[fr|pn] w2] evs2];
    [|simpl; discriminate].
  simpl. intros [= -> <- <-].
  specialize (Hres _ _ _ eq_refl). unfold forward_result in Hres.
  destruct (last (upstreams evs2)) as [[p [m0|err]]|]; try discriminate.
  injection Hres as ->.
  unfold forward_for. destruct (Match state2 m0) eqn:Hmatch.
  - unfold Match in Hmatch.
    destruct (Question_ m0) as [|q [|q' qs]]; try discriminate.
    apply andb_prop in Hmatch as [Hmatch Ht].
    apply andb_prop in Hmatch as [Hresp Hn].
    split; [done|]. exists q. split; [done|].
    apply String.eqb_eq in Hn. apply Z.eqb_eq in Ht.
    unfold QType in Ht. unfold Name in Hn. rewrite HQ in Ht.
    rewrite HQ, Hnm in Hn.
    simpl in Ht, Hn. split; [done|]. by left.
  - unfold ErrorMessage, SetRcode, SetReply. simpl. rewrite HQ.
    split; [done|]. eexists. split; [reflexivity|]. split; [done|].
    by right.
Qed.

End LookupFacts.

End MoreFacts.

(** * More scenarios *)

Lemma findClosestToPoint_keeps_first_witness :
  @findClosestToPoint grid [site_1_1_1_1; site_2_2_2_2] (0, 0)%Z
  = [x01; x01; x01; x01].
Proof.
  apply (@findClosestToPoint_keeps_first grid site_1_1_1_1 [site_2_2_2_2]
           (0, 0)%Z).
  intros s Hs. apply list_elem_of_singleton in Hs as ->. reflexivity.
Defined.

Lemma match_ignored_as_set_witness :
  let state := {| Req := query "x.a." TypeA; W := udp_client; name := "" |} in
  @match_ grid edge_ignore_ab state = @match_ grid edge_ignore_ba state.
Proof.
  apply (@match_ignored_as_set grid edge_ignore_ab edge_ignore_ba).
  - reflexivity.
  - intros x. simpl. rewrite !elem_of_cons. tauto.
Defined.

Lemma authoritative_reply_matches_witness :
  let state := {| Req := query "Foo." TypeA; W := udp_client; name := "" |} in
  exists m,
    @writeAuthoritativeResponse grid new_Msg state ip_10_0_0_9 start
    = (Ok tt, start, [EvWriteMsg m])
    /\ Id m = 7%Z /\ Response m = true
    /\ Question_ m
       = [ {| QName_ := "Foo."; Qtype := TypeA; Qclass := ClassINET |} ]
    /\ @Match grid state m = true.
Proof.
  apply (@authoritative_reply_matches grid
           {| Req := query "Foo." TypeA; W := udp_client; name := "" |}
           ip_10_0_0_9
           {| QName_ := "Foo."; Qtype := TypeA; Qclass := ClassINET |} []
           start); reflexivity.
Defined.

Lemma ServeDNS_without_upstreams_witness :
  exists v evs,
    @ServeDNS grid unreachable edge_rr udp_client (located_query "foo." TypeA)
      start
    = (Ok v, start, evs)
    /\ v = NextOrFailure (query "foo." TypeA) /\ evs = [].
Proof.
  destruct (@ServeDNS_without_upstreams grid unreachable edge_rr udp_client
              (located_query "foo." TypeA) start eq_refl)
    as (v & evs & Hrun & H).
  exists v, evs. split; [exact Hrun|].
  vm_compute in Hrun. by injection Hrun as <- <-.
Defined.



Lemma dials_are_bounded_witness :
  length (dialled (@ServeDNS grid stale_pool edge_one udp_client
                     (query "bar." TypeA) start).2) <= 2
  /\ length (dialled (@Forward grid stale_pool (Some edge_one)
                        {| Req := query "bar." TypeA; W := udp_client;
                           name := "" |} start).2) <= 1.
Proof.
  apply (@dials_are_bounded grid stale_pool edge_one udp_client
           (query "bar." TypeA)
           {| Req := query "bar." TypeA; W := udp_client; name := "" |}
           start).
  intros k n. reflexivity.
Defined.

Lemma random_List_permutes_witness :
  exists l w1,
    random_List unreachable three_proxies start = (Ok l, w1, [])
    /\ l ≡ₚ three_proxies /\ robin w1 = 0%Z /\ drawn w1 = 1.
Proof.
  destruct (@random_List_permutes unreachable three_proxies start)
    as (l & w1 & Hrun & Hp & _ & Hr & Hd).
  - intros k n. reflexivity.
  - exists l, w1. done.
Defined.

Lemma roundRobin_takes_turns_witness :
  exists ls w',
    listings unreachable roundRobin three_proxies 3 start = (Ok ls, w', [])
    /\ robin w' = 3%Z
    /\ omap head ls = [proxy_b; proxy_c; proxy_a].
Proof.
  destruct (@roundRobin_takes_turns unreachable three_proxies 3 start)
    as (ls & w' & Hrun & Hr & Hh & _).
  - discriminate.
  - reflexivity.
  - reflexivity.
  - reflexivity.
  - exists ls, w'. done.
Defined.

Lemma New_hands_on_every_request_witness :
  @ServeDNS grid unreachable (@New grid (0, 0)%Z) udp_client
    (located_query "foo." TypeA) start
  = (Ok (NextOrFailure (query "foo." TypeA)), start, []).
Proof.
  apply (@New_hands_on_every_request grid unreachable (0, 0)%Z udp_client
           (located_query "foo." TypeA) start).
  reflexivity.
Defined.

Lemma Lookup_answers_the_question_witness :
  let m := SetReply new_Msg (query "baz." TypeA) in
  Response m = true
  /\ exists q,
       Question_ m = [q] /\ Qtype q = TypeA
       /\ (lower (QName_ q) = lower "BAZ."
           \/ (QName_ q = "BAZ."%string /\ Rcode m = RcodeFormatError)).
Proof.
  apply (@Lookup_answers_the_question grid confused no_options edge_one
           {| Req := query "foo." TypeA; W := udp_client; name := "" |}
           "BAZ." TypeA start
           (SetReply new_Msg (query "baz." TypeA))
           {| now := 3; drawn := 1; robin := 0 |}
           [EvDial proxy_a "udp";
            EvSend {| conn_id := 0; UDPSize := 512 |}
              (SetQuestion new_Msg 0 "BAZ." TypeA);
            EvYield proxy_a {| conn_id := 0; UDPSize := 512 |};
            EvUpstream proxy_a (Reply (SetReply new_Msg (query "baz." TypeA)))]).
  - reflexivity.
  - vm_compute. reflexivity.
Defined.

Lemma located_request_bypasses_local_services_witness :
  exists m hdr,
    @ServeDNS grid unreachable (with_services edge_foo ∅) udp_client
      (located_query "foo." TypeA) start
    = @ServeDNS grid unreachable edge_foo udp_client
        (located_query "foo." TypeA) start
    /\ @ServeDNS grid unreachable edge_foo udp_client
         (located_query "foo." TypeA) start
       = (Ok (Return RcodeSuccess None), start, [EvWriteMsg m])
    /\ Answer m = [RR_A hdr (IP site_2_2_2_2)].
Proof.
  eexists _, _. split; [|split].
  - apply (@located_request_bypasses_local_services grid unreachable
             edge_foo ∅ udp_client (located_query "foo." TypeA) start).
    reflexivity.
  - vm_compute. reflexivity.
  - reflexivity.
Defined.

Lemma Forward_takes_a_second_turn_in_the_last_resort_witness :
  robin (@Forward grid unreachable (Some edge_dead_rr)
           {| Req := query "bar." TypeA; W := udp_client; name := "" |}
           start).1.2
  = 2%Z.
Proof.
  rewrite (@Forward_takes_a_second_turn_in_the_last_resort grid unreachable
             edge_dead_rr
             {| Req := query "bar." TypeA; W := udp_client; name := "" |}
             start eq_refl); [reflexivity|discriminate|reflexivity].
Defined.

(** * The traversal against the environment *)

Section TraversalFacts.
Context `{P : Platform}.
Variable net : Net.
Local Open Scope go_scope.

(** ** Exchanges *)

Lemma serve_exchange_run (e : Edge) (state : Request) (q : Proxy)
  (w : World) :
  exists r1 w1 evs1,
    connect_retry net q state (forceTCP e) w = (Ok r1, w1, evs1)
    /\ serve_exchange net e state q w = (Ok (truncated r1), w1, evs1)
    /\ dialled evs1 <> [] /\ (forall q', q' ∈ dialled evs1 -> q' = q).
Proof.
  destruct (connect_retry_run net q state (forceTCP e) w)
    as (r1 & w1 & evs1 & Hrun & Hne & Hall & _).
  exists r1, w1, evs1. split; [done|]. split; [|done].
  unfold serve_exchange, bind. rewrite Hrun. simpl. by rewrite app_nil_r.
Qed.

Lemma forward_exchange_run (e : Edge) (state : Request) (q : Proxy)
  (w : World) :
  exists r1 w1 evs1,
    connect net q state (forceTCP e) w = (Ok r1, w1, evs1)
    /\ forward_exchange net e state q w = (Ok (truncated r1), w1, evs1)
    /\ dialled evs1 = [q].
Proof.
  destruct (connect_run net q state (forceTCP e) w)
    as (r1 & w1 & evs1 & Hrun & Hd & _).
  exists r1, w1, evs1. split; [done|]. split; [|done].
  unfold forward_exchange, bind. rewrite Hrun. simpl. by rewrite app_nil_r.
Qed.

Lemma exchanges_cons (x : Proxy -> M result) (q : Proxy) (qs : list Proxy)
  (w : World) rs w' xevs :
  exchanges x (q :: qs) w = (Ok rs, w', xevs) ->
  exists r w1 evs1 rs' evs',
    x q w = (Ok r, w1, evs1)
    /\ exchanges x qs w1 = (Ok rs', w', evs')
    /\ rs = r :: rs' /\ xevs = evs1 ++ evs'.
Proof.
  simpl. unfold bind.
  destruct (x q w) as [[[r|pn] w1] evs1] eqn:Hq; [|discriminate].
  destruct (exchanges x qs w1) as [[[rs'|pn] w2] evs'] eqn:Hqs;
    [|discriminate].
  simpl. rewrite app_nil_r. intros [= <- <- <-].
  by eexists _, _, _, _, _.
Qed.

Lemma remembered_cons_Failure (u : option error) (err : error)
  (rs : list result) :
  remembered u (Failure err :: rs) = remembered (Some err) rs.
Proof.
  unfold remembered. destruct rs as [|r rs]; [done|].
  change (last (Failure err :: r :: rs)) with (last (r :: rs)).
  destruct (last (r :: rs)) eqn:Hl; [done|].
  by apply last_None in Hl.
Qed.

(** When all exchanges fail, the traversal gives up with the last error. *)
Lemma try_each_all_fail (x : Proxy -> M result) (qs : list Proxy) :
  forall u w rs w' xevs,
    exchanges x qs w = (Ok rs, w', xevs) ->
    Forall (fun r => is_Failure r = true) rs ->
    try_each x qs u w = (Ok (Gave_up (remembered u rs)), w', xevs).
Proof.
  induction qs as [|q qs IH]; intros u w rs w' xevs Hx Hall.
  { injection Hx as <- <- <-. reflexivity. }
  apply exchanges_cons in Hx
    as (r & w1 & evs1 & rs' & evs' & Hq & Hqs & -> & ->).
  apply Forall_cons in Hall as [Hr Hall].
  destruct r as [m|err]; [discriminate|].
  simpl. unfold bind. rewrite Hq.
  rewrite (IH (Some err) w1 rs' w' evs' Hqs Hall).
  by rewrite remembered_cons_Failure.
Qed.

(** The traversal stops at the first reply. *)
Lemma try_each_first_reply (x : Proxy -> M result) (pre : list Proxy)
  (q : Proxy) (rest : list Proxy) (u : option error) (w : World) m w' xevs :
  first_reply x pre q w m w' xevs ->
  try_each x (pre ++ q :: rest) u w = (Ok (Got m), w', xevs).
Proof.
  intros (rs & w3 & pevs & qevs & Hpre & Hall & Hq & ->).
  revert u w rs pevs Hpre Hall.
  induction pre as [|p pre IH]; intros u w rs pevs Hpre Hall.
  { injection Hpre as <- <- <-. simpl. unfold bind. rewrite Hq.
    simpl. by rewrite app_nil_r. }
  apply exchanges_cons in Hpre
    as (r & w1 & evs1 & rs' & evs' & Hp & Hqs & -> & ->).
  apply Forall_cons in Hall as [Hr Hall].
  destruct r as [m'|err]; [discriminate|].
  simpl. unfold bind. rewrite Hp.
  rewrite (IH (Some err) w1 rs' evs' Hqs Hall). by rewrite app_assoc.
Qed.

Lemma try_each_ext (x y : Proxy -> M result) (qs : list Proxy) :
  (forall q w, x q w = y q w) ->
  forall u w, try_each x qs u w = try_each y qs u w.
Proof.
  intros Hxy. induction qs as [|q qs IH]; intros u w; [done|].
  simpl. unfold bind. rewrite Hxy.
  destruct (y q w) as [[[[m|err]|pn] w1] evs1]; [done| |done].
  by rewrite IH.
Qed.

(** ** The loops follow the traversal *)

Lemma up_proxies_cons (e : Edge) (q : Proxy) (l : list Proxy) :
  up_proxies e (q :: l)
  = if Down q (maxUpstreamFails e) then up_proxies e l
    else q :: up_proxies e l.
Proof. unfold up_proxies. simpl. by destruct (Down q _). Qed.

Lemma serve_loop_try (e : Edge) (state : Request) (l : list Proxy) :
  forall fails u w,
    fails + downs e l < length (proxies e) ->
    exists o w' xevs evs,
      try_each (serve_exchange net e state) (up_proxies e l) u w
      = (Ok o, w', xevs)
      /\ serve_loop net e state l fails u w
         = (Ok (serve_end state o).1, w', evs)
      /\ written evs = (serve_end state o).2
      /\ dialled evs = dialled xevs.
Proof.
  induction l as [|proxy rest IH]; intros fails u w Hn.
  { by exists (Gave_up u), w, [], []. }
  rewrite downs_cons in Hn. rewrite up_proxies_cons.
  destruct (serve_loop_cons net e state proxy rest fails u w)
    as [(Hd & _ & Heq)|[(Hd & Heq)|(Hd & Hge & _)]]; rewrite Hd in *.
  - rewrite Heq. apply IH. lia.
  - rewrite Heq.
    destruct (serve_exchange_run e state proxy w)
      as (r1 & w1 & evs1 & Hc & Hx & _).
    destruct (serve_attempt_run net e state proxy fails
                (serve_loop net e state rest fails) w)
      as (r & w1' & evs1' & Hrun & _ & _ & _ & Hw1 & _ & Heq').
    rewrite Hc in Hrun. injection Hrun as <- <- <-.
    rewrite Heq'. clear Heq'. simpl. unfold bind. rewrite Hx.
    destruct (truncated r1) as [m|err].
    + eexists _, _, _, _. split; [reflexivity|]. simpl.
      split; [reflexivity|].
      rewrite written_app, dialled_app, Hw1. simpl.
      by rewrite !app_nil_r.
    + cbv zeta.
      destruct (Nat.ltb_spec fails (length (proxies e))); [|lia].
      destruct (IH fails (Some err) w1 ltac:(lia))
        as (o & w' & xevs & evs & -> & -> & Hw & Hd').
      eexists _, _, _, _. split; [reflexivity|].
      split; [reflexivity|].
      change (EvUpstream proxy (Failure err) :: ?t)
        with ([EvUpstream proxy (Failure err)] ++ t).
      rewrite !written_app, !dialled_app, Hw1, Hw, Hd'.
      destruct (maxUpstreamFails e =? 0)%Z; simpl; by rewrite ?app_nil_r.
  - simpl in Hn. lia.
Qed.

Lemma serve_loop_last_try (e : Edge) (state : Request) (l : list Proxy) :
  forall fails u w pick picks w2,
    Forall (fun q => Down q (maxUpstreamFails e) = true) l ->
    fails + length l = length (proxies e) -> l <> [] ->
    random_List net (proxies e) w = (Ok (pick :: picks), w2, []) ->
    exists o w' xevs evs,
      try_each (serve_exchange net e state) [pick] None w2 = (Ok o, w', xevs)
      /\ serve_loop net e state l fails u w
         = (Ok (serve_end state o).1, w', evs)
      /\ written evs = (serve_end state o).2
      /\ dialled evs = dialled xevs.
Proof.
  induction l as [|proxy rest IH];
    intros fails u w pick picks w2 Hall Hn Hl Hr; [done|].
  apply Forall_cons in Hall as [Hd Hall]. simpl in Hn.
  destruct (serve_loop_cons net e state proxy rest fails u w)
    as [(_ & Hlt & Heq)|[(Hd' & _)|(_ & Hge & r & w1 & Hr' & Heq)]].
  - rewrite Heq. eapply IH; [done|lia| |exact Hr].
    destruct rest; [simpl in *; lia|done].
  - congruence.
  - rewrite Hr in Hr'. injection Hr' as <- <-. rewrite Heq.
    destruct (serve_exchange_run e state pick w2)
      as (r1 & w1 & evs1 & Hc & Hx & _).
    destruct (serve_attempt_run net e state pick (S fails)
                (serve_loop net e state rest (S fails)) w2)
      as (r & w1' & evs1' & Hrun & _ & _ & _ & Hw1 & _ & Heq').
    rewrite Hc in Hrun. injection Hrun as <- <- <-.
    rewrite Heq'. clear Heq'. simpl. unfold bind. rewrite Hx.
    destruct (truncated r1) as [m|err].
    + eexists _, _, _, _. split; [reflexivity|]. simpl.
      split; [reflexivity|].
      rewrite written_app, dialled_app, Hw1. simpl.
      by rewrite !app_nil_r.
    + cbv zeta.
      destruct (Nat.ltb_spec (S fails) (length (proxies e))); [lia|].
      eexists _, _, _, _. split; [reflexivity|]. simpl.
      split; [reflexivity|].
      change (EvUpstream pick (Failure err) :: ?t)
        with ([EvUpstream pick (Failure err)] ++ t).
      rewrite !written_app, !dialled_app, Hw1.
      destruct (maxUpstreamFails e =? 0)%Z; simpl; by rewrite !app_nil_r.
Qed.

Lemma forward_loop_try (e : Edge) (state : Request) (l : list Proxy) :
  forall fails u w,
    fails + downs e l < length (proxies e) ->
    exists o w' xevs evs,
      try_each (forward_exchange net e state) (up_proxies e l) u w
      = (Ok o, w', xevs)
      /\ forward_loop net e state l fails u w
         = (Ok (forward_end state o), w', evs)
      /\ dialled evs = dialled xevs.
Proof.
  induction l as [|proxy rest IH]; intros fails u w Hn.
  { exists (Gave_up u), w, [], []. simpl. by destruct u. }
  rewrite downs_cons in Hn. rewrite up_proxies_cons.
  destruct (forward_loop_cons net e state proxy rest fails u w)
    as [(Hd & _ & Heq)|[(Hd & Heq)|(Hd & Hge & _)]]; rewrite Hd in *.
  - rewrite Heq. apply IH. lia.
  - rewrite Heq.
    destruct (forward_exchange_run e state proxy w)
      as (r1 & w1 & evs1 & Hc & Hx & _).
    destruct (forward_attempt_run net e state proxy fails
                (forward_loop net e state rest fails) w)
      as (r & w1' & evs1' & Hrun & _ & _ & _ & _ & Heq').
    rewrite Hc in Hrun. injection Hrun as <- <- <-.
    rewrite Heq'. clear Heq'. simpl. unfold bind. rewrite Hx.
    destruct (truncated r1) as [m|err].
    + eexists _, _, _, _. split; [reflexivity|]. simpl.
      split; [reflexivity|].
      rewrite dialled_app. simpl. by rewrite !app_nil_r.
    + cbv zeta.
      destruct (Nat.ltb_spec fails (length (proxies e))); [|lia].
      destruct (IH fails (Some err) w1 ltac:(lia))
        as (o & w' & xevs & evs & -> & -> & Hd').
      eexists _, _, _, _. split; [reflexivity|].
      split; [reflexivity|].
      rewrite !dialled_app, Hd'. simpl. by rewrite ?app_nil_r.
  - simpl in Hn. lia.
Qed.

Lemma forward_loop_last_try (e : Edge) (state : Request) (l : list Proxy) :
  forall fails u w pick picks w2,
    Forall (fun q => Down q (maxUpstreamFails e) = true) l ->
    fails + length l = length (proxies e) -> l <> [] ->
    list_ net e w = (Ok (pick :: picks), w2, []) ->
    exists o w' xevs evs,
      try_each (forward_exchange net e state) [pick] None w2
      = (Ok o, w', xevs)
      /\ forward_loop net e state l fails u w
         = (Ok (forward_end state o), w', evs)
      /\ dialled evs = dialled xevs.
Proof.
  induction l as [|proxy rest IH];
    intros fails u w pick picks w2 Hall Hn Hl Hr; [done|].
  apply Forall_cons in Hall as [Hd Hall]. simpl in Hn.
  destruct (forward_loop_cons net e state proxy rest fails u w)
    as [(_ & Hlt & Heq)|[(Hd' & _)|(_ & Hge & r & w1 & Hr' & Heq)]].
  - rewrite Heq. eapply IH; [done|lia| |exact Hr].
    destruct rest; [simpl in *; lia|done].
  - congruence.
  - rewrite Hr in Hr'. injection Hr' as <- <-. rewrite Heq.
    destruct (forward_exchange_run e state pick w2)
      as (r1 & w1 & evs1 & Hc & Hx & _).
    destruct (forward_attempt_run net e state pick (S fails)
                (forward_loop net e state rest (S fails)) w2)
      as (r & w1' & evs1' & Hrun & _ & _ & _ & _ & Heq').
    rewrite Hc in Hrun. injection Hrun as <- <- <-.
    rewrite Heq'. clear Heq'. simpl. unfold bind. rewrite Hx.
    destruct (truncated r1) as [m|err].
    + eexists _, _, _, _. split; [reflexivity|]. simpl.
      split; [reflexivity|].
      rewrite dialled_app. simpl. by rewrite !app_nil_r.
    + cbv zeta.
      destruct (Nat.ltb_spec (S fails) (length (proxies e))); [lia|].
      eexists _, _, _, _. split; [reflexivity|]. simpl.
      split; [reflexivity|].
      rewrite !dialled_app. simpl. by rewrite !app_nil_r.
Qed.

(** ** The entry points follow the traversal *)

Lemma all_down_Forall (e : Edge) (l : list Proxy) :
  all_down e l = true ->
  Forall (fun q => Down q (maxUpstreamFails e) = true) l.
Proof.
  unfold all_down. rewrite forallb_forall. intros H.
  apply Forall_forall. intros q Hq. apply H. by apply list_elem_of_In.
Qed.

Lemma not_all_down (e : Edge) (l : list Proxy) :
  all_down e l = false ->
  exists q, q ∈ l /\ Down q (maxUpstreamFails e) = false.
Proof.
  unfold all_down. induction l as [|p l IH]; simpl; [discriminate|].
  destruct (Down p (maxUpstreamFails e)) eqn:Hp; simpl.
  - intros H. destruct (IH H) as (q & Hq & Hd). exists q. split; [by right|done].
  - intros _. exists p. split; [left|done].
Qed.

Lemma up_proxies_nonempty (e : Edge) (l : list Proxy) (q : Proxy) :
  q ∈ l -> Down q (maxUpstreamFails e) = false -> up_proxies e l <> [].
Proof.
  induction l as [|p l IH]; intros Hq Hd; [by apply elem_of_nil in Hq|].
  rewrite up_proxies_cons.
  destruct (Down p (maxUpstreamFails e)) eqn:Hp; [|done].
  apply elem_of_cons in Hq as [->|Hq]; [congruence|]. by apply IH.
Qed.

Lemma serve_targets_run (e : Edge) (l : list Proxy) (w1 : World) qs w2 tevs :
  serve_targets net e l w1 = (Ok qs, w2, tevs) ->
  tevs = []
  /\ if all_down e l
     then exists pick picks,
            random_List net (proxies e) w1 = (Ok (pick :: picks), w2, [])
            /\ qs = [pick]
     else qs = up_proxies e l /\ w2 = w1.
Proof.
  unfold serve_targets. destruct (all_down e l).
  - unfold bind. pose proof (random_List_quiet net (proxies e) w1) as Hq.
    destruct (random_List net (proxies e) w1) as [[[picks|pn] w] evs];
      simpl in Hq; subst evs; [|discriminate].
    unfold index. destruct picks as [|pick picks]; simpl; [discriminate|].
    intros [= <- <- <-]. split; [done|]. by exists pick, picks.
  - by intros [= <- <- <-].
Qed.

Lemma forward_targets_run (e : Edge) (l : list Proxy) (w1 : World)
  qs w2 tevs :
  forward_targets net e l w1 = (Ok qs, w2, tevs) ->
  tevs = []
  /\ if all_down e l
     then exists pick picks,
            list_ net e w1 = (Ok (pick :: picks), w2, []) /\ qs = [pick]
     else qs = up_proxies e l /\ w2 = w1.
Proof.
  unfold forward_targets. destruct (all_down e l).
  - unfold bind. pose proof (list_quiet net e w1) as Hq.
    destruct (list_ net e w1) as [[[picks|pn] w] evs];
      simpl in Hq; subst evs; [|discriminate].
    unfold index. destruct picks as [|pick picks]; simpl; [discriminate|].
    intros [= <- <- <-]. split; [done|]. by exists pick, picks.
  - by intros [= <- <- <-].
Qed.

(** [ServeDNS] on a request that reaches the forwarding loop is the
    traversal of its targets, followed by the write to the client. *)
Lemma ServeDNS_try (e : Edge) (w : ResponseWriter) (r : Msg) (world : World)
  l w1 qs w2 :
  fair_source net -> forwards e w r = true ->
  list_ net e world = (Ok l, w1, []) ->
  serve_targets net e l w1 = (Ok qs, w2, []) ->
  exists o w' xevs evs,
    qs <> []
    /\ try_each (serve_exchange net e (forwarded e w r)) qs None w2
       = (Ok o, w', xevs)
    /\ ServeDNS net e w r world = (Ok (serve_end (forwarded e w r) o).1, w', evs)
    /\ written evs = (serve_end (forwarded e w r) o).2
    /\ dialled evs = dialled xevs.
Proof.
  intros Hfair Hf Hl Ht.
  pose proof (forwards_proxies _ _ _ Hf) as Hne.
  pose proof (list_length net _ _ _ _ _ Hfair Hl) as Hlen.
  assert (l <> []) as Hlne by (intros ->; by destruct (proxies e)).
  rewrite (ServeDNS_forwards net _ _ _ Hf). unfold bind. rewrite Hl.
  apply serve_targets_run in Ht as [_ Ht].
  destruct (all_down e l) eqn:Hall.
  - destruct Ht as (pick & picks & Hr & ->).
    destruct (serve_loop_last_try e (forwarded e w r) l 0 None w1
                pick picks w2 (all_down_Forall _ _ Hall) Hlen Hlne Hr)
      as (o & w' & xevs & evs & Htry & -> & Hw & Hd).
    by exists o, w', xevs, evs.
  - destruct Ht as [-> ->].
    destruct (not_all_down _ _ Hall) as (q & Hq & Hup).
    destruct (serve_loop_try e (forwarded e w r) l 0 None w1)
      as (o & w' & xevs & evs & Htry & -> & Hw & Hd).
    { simpl. rewrite <- Hlen. by eapply downs_lt. }
    exists o, w', xevs, evs. split; [by eapply up_proxies_nonempty|done].
Qed.

(** [Forward] is the traversal of its targets. *)
Lemma Forward_try (e : Edge) (state : Request) (world : World) l w1 qs w2 :
  fair_source net ->
  list_ net e world = (Ok l, w1, []) ->
  forward_targets net e l w1 = (Ok qs, w2, []) ->
  exists o w' xevs evs,
    qs <> []
    /\ try_each (forward_exchange net e state) qs None w2 = (Ok o, w', xevs)
    /\ Forward net (Some e) state world = (Ok (forward_end state o), w', evs)
    /\ dialled evs = dialled xevs.
Proof.
  intros Hfair Hl Ht.
  pose proof (list_length net _ _ _ _ _ Hfair Hl) as Hlen.
  unfold Forward, bind. rewrite Hl.
  apply forward_targets_run in Ht as [_ Ht].
  destruct (all_down e l) eqn:Hall.
  - destruct Ht as (pick & picks & Hr & ->).
    pose proof (list_length net _ _ _ _ _ Hfair Hr) as Hlen2.
    assert (l <> []) as Hlne.
    { intros ->. simpl in *. rewrite <- Hlen in Hlen2. discriminate. }
    destruct (forward_loop_last_try e state l 0 None w1
                pick picks w2 (all_down_Forall _ _ Hall) Hlen Hlne Hr)
      as (o & w' & xevs & evs & Htry & -> & Hd).
    by exists o, w', xevs, evs.
  - destruct Ht as [-> ->].
    destruct (not_all_down _ _ Hall) as (q & Hq & Hup).
    destruct (forward_loop_try e state l 0 None w1)
      as (o & w' & xevs & evs & Htry & -> & Hd).
    { simpl. rewrite <- Hlen. by eapply downs_lt. }
    exists o, w', xevs, evs. split; [by eapply up_proxies_nonempty|done].
Qed.

Lemma remembered_last (u : option error) (rs : list result) (err : error) :
  last rs = Some (Failure err) -> remembered u rs = Some err.
Proof. unfold remembered. by intros ->. Qed.

Lemma ServeDNS_on_all_fail (e : Edge) (w : ResponseWriter) (r : Msg)
  (world : World) l w1 qs w2 err w' xevs :
  fair_source net -> forwards e w r = true ->
  list_ net e world = (Ok l, w1, []) ->
  serve_targets net e l w1 = (Ok qs, w2, []) ->
  all_fail (serve_exchange net e (forwarded e w r)) qs w2 err w' xevs ->
  exists evs,
    ServeDNS net e w r world
    = (Ok (Return RcodeServerFailure (Some err)), w', evs)
    /\ written evs = [] /\ dialled evs = dialled xevs.
Proof.
  intros Hfair Hf Hl Ht (rs & Hx & Hall & Hlast).
  destruct (ServeDNS_try e w r world l w1 qs w2 Hfair Hf Hl Ht)
    as (o & w0 & xevs0 & evs & _ & Htry & Hrun & Hw & Hd).
  rewrite (try_each_all_fail _ _ None _ _ _ _ Hx Hall) in Htry.
  rewrite (remembered_last _ _ _ Hlast) in Htry.
  injection Htry as <- <- <-. by exists evs.
Qed.

Lemma ServeDNS_on_first_reply (e : Edge) (w : ResponseWriter) (r : Msg)
  (world : World) l w1 qs w2 pre q rest m w' xevs :
  fair_source net -> forwards e w r = true ->
  list_ net e world = (Ok l, w1, []) ->
  serve_targets net e l w1 = (Ok qs, w2, []) ->
  qs = pre ++ q :: rest ->
  first_reply (serve_exchange net e (forwarded e w r)) pre q w2 m w' xevs ->
  exists evs,
    ServeDNS net e w r world = (Ok (Return RcodeSuccess None), w', evs)
    /\ written evs = [reply_for (forwarded e w r) m]
    /\ dialled evs = dialled xevs.
Proof.
  intros Hfair Hf Hl Ht -> Hfirst.
  destruct (ServeDNS_try e w r world l w1 _ w2 Hfair Hf Hl Ht)
    as (o & w0 & xevs0 & evs & _ & Htry & Hrun & Hw & Hd).
  rewrite (try_each_first_reply _ _ _ rest None _ _ _ _ Hfirst) in Htry.
  injection Htry as <- <- <-. by exists evs.
Qed.


Lemma Forward_on_first_reply (e : Edge) (state : Request) (world : World)
  l w1 qs w2 pre q rest m w' xevs :
  fair_source net ->
  list_ net e world = (Ok l, w1, []) ->
  forward_targets net e l w1 = (Ok qs, w2, []) ->
  qs = pre ++ q :: rest ->
  first_reply (forward_exchange net e state) pre q w2 m w' xevs ->
  exists evs,
    Forward net (Some e) state world
    = (Ok (Some (forward_for state m), None), w', evs)
    /\ dialled evs = dialled xevs.
Proof.
  intros Hfair Hl Ht -> Hfirst.
  destruct (Forward_try e state world l w1 _ w2 Hfair Hl Ht)
    as (o & w0 & xevs0 & evs & _ & Htry & Hrun & Hd).
  rewrite (try_each_first_reply _ _ _ rest None _ _ _ _ Hfirst) in Htry.
  injection Htry as <- <- <-. by exists evs.
Qed.

(** ** Whom the exchanges dial *)

Lemma exchanges_forward_dialled (e : Edge) (state : Request)
  (qs : list Proxy) :
  forall w rs w' xevs,
    exchanges (forward_exchange net e state) qs w = (Ok rs, w', xevs) ->
    dialled xevs = qs.
Proof.
  induction qs as [|q qs IH]; intros w rs w' xevs Hx.
  { by injection Hx as <- <- <-. }
  apply exchanges_cons in Hx
    as (r & w1 & evs1 & rs' & evs' & Hq & Hqs & -> & ->).
  destruct (forward_exchange_run e state q w)
    as (r1 & w1' & evs1' & _ & Hq' & Hd).
  rewrite Hq in Hq'. injection Hq' as _ <- <-.
  rewrite dialled_app, Hd, (IH _ _ _ _ Hqs). done.
Qed.

Lemma exchanges_serve_dialled (e : Edge) (state : Request)
  (qs : list Proxy) :
  forall w rs w' xevs,
    exchanges (serve_exchange net e state) qs w = (Ok rs, w', xevs) ->
    (forall p, p ∈ dialled xevs -> p ∈ qs)
    /\ head (dialled xevs) = head qs.
Proof.
  induction qs as [|q qs IH]; intros w rs w' xevs Hx.
  { injection Hx as <- <- <-. split; [|done].
    intros p Hp. by apply elem_of_nil in Hp. }
  apply exchanges_cons in Hx
    as (r & w1 & evs1 & rs' & evs' & Hq & Hqs & -> & ->).
  destruct (serve_exchange_run e state q w)
    as (r1 & w1' & evs1' & _ & Hq' & Hne & Hall).
  rewrite Hq in Hq'. injection Hq' as _ <- <-.
  destruct (IH _ _ _ _ Hqs) as [Hin _].
  rewrite dialled_app. split.
  - intros p Hp. apply elem_of_app in Hp as [Hp|Hp].
    + rewrite (Hall p Hp). left.
    + right. by apply Hin.
  - destruct (dialled evs1) as [|d ds] eqn:Hd; [done|]. simpl.
    f_equal. apply Hall. left.
Qed.

Lemma first_reply_forward_dialled (e : Edge) (state : Request)
  pre q w m w' xevs :
  first_reply (forward_exchange net e state) pre q w m w' xevs ->
  dialled xevs = pre ++ [q].
Proof.
  intros (rs & w3 & pevs & qevs & Hpre & _ & Hq & ->).
  destruct (forward_exchange_run e state q w3)
    as (r1 & w1' & evs1' & _ & Hq' & Hd).
  rewrite Hq in Hq'. injection Hq' as _ <- <-.
  by rewrite dialled_app, Hd, (exchanges_forward_dialled _ _ _ _ _ _ _ Hpre).
Qed.

Lemma first_reply_serve_dialled (e : Edge) (state : Request)
  pre q w m w' xevs :
  first_reply (serve_exchange net e state) pre q w m w' xevs ->
  dialled xevs <> []
  /\ (forall p, p ∈ dialled xevs -> p ∈ pre ++ [q])
  /\ head (dialled xevs) = head (pre ++ [q]).
Proof.
  intros (rs & w3 & pevs & qevs & Hpre & _ & Hq & ->).
  destruct (serve_exchange_run e state q w3)
    as (r1 & w1' & evs1' & _ & Hq' & Hne & Hall).
  rewrite Hq in Hq'. injection Hq' as _ <- <-.
  destruct (exchanges_serve_dialled _ _ _ _ _ _ _ Hpre) as [Hin Hhead].
  rewrite dialled_app. split; [|split].
  - destruct (dialled qevs); [done|]. by destruct (dialled pevs).
  - intros p Hp. apply elem_of_app. apply elem_of_app in Hp as [Hp|Hp].
    + left. by apply Hin.
    + right. rewrite (Hall p Hp). left.
  - destruct pre as [|p0 pre].
    + injection Hpre as <- <- <-. simpl.
      destruct (dialled qevs) as [|d ds] eqn:Hd; [done|]. simpl.
      f_equal. apply Hall. left.
    + simpl in *. destruct (dialled pevs); [discriminate|done].
Qed.

(** ** When every exchange fails *)

(** C7. The loop of [ServeDNS] turns to the proxies [qs]: the proxies of
    the policy's listing that are not down, in order, or the last resort
    when all are down.  If the exchange with every one of them ends in an
    error, each made in the world the one before left, then [ServeDNS]
    returns ServerFailure (2) with the error of the last exchange.  It has
    written nothing to the client, it has dialled what those exchanges dial
    and nothing else, and it leaves the world they leave. *)
Theorem ServeDNS_all_upstreams_fail (e : Edge) (w : ResponseWriter) (r : Msg)
  (world : World) (l : list Proxy) (w1 : World) (qs : list Proxy)
  (w2 : World) (rs : list result) (err : error) (w' : World)
  (xevs : list Event) :
  let state := forwarded e w r in
  fair_source net ->
  forwards e w r = true ->
  list_ net e world = (Ok l, w1, []) ->
  serve_targets net e l w1 = (Ok qs, w2, []) ->
  exchanges (serve_exchange net e state) qs w2 = (Ok rs, w', xevs) ->
  Forall (fun r => is_Failure r = true) rs ->
  last rs = Some (Failure err) ->
  exists evs,
    ServeDNS net e w r world
    = (Ok (Return RcodeServerFailure (Some err)), w', evs)
    /\ RcodeServerFailure = 2%Z
    /\ written evs = []
    /\ dialled evs = dialled xevs
    /\ head (dialled evs) = head qs
    /\ forall p, p ∈ dialled evs -> p ∈ qs.
Proof.
  intros state Hfair Hf Hl Ht Hx Hall Hlast.
  destruct (ServeDNS_on_all_fail e w r world l w1 qs w2 err w' xevs
              Hfair Hf Hl Ht) as (evs & Hrun & Hw & Hd).
  { by exists rs. }
  destruct (exchanges_serve_dialled _ _ _ _ _ _ _ Hx) as [Hin Hhead].
  exists evs. rewrite Hd. done.
Qed.

(** ** A reply that does not match *)

(** C6. When, in the traversal of [ServeDNS], the exchanges with the
    proxies [pre] end in an error and the exchange with the next proxy [q]
    brings a reply that does not match the question of the request,
    [ServeDNS] writes the FormErr message (rcode 1) to the client, that
    message and no other, and returns; it has dialled [pre] and [q] only:
    the proxies [rest] that come after [q] are not tried.  In the same
    situation [Forward] returns the FormErr message to its caller, having
    dialled [pre] and [q] once each. *)
Theorem mismatched_reply_ends_with_FormErr (e : Edge) (w : ResponseWriter)
  (r : Msg) (fstate : Request) (world : World) (l : list Proxy)
  (w1 : World) :
  fair_source net ->
  list_ net e world = (Ok l, w1, []) ->
  (forall qs w2 pre q rest rs w3 pevs m w' qevs,
     let state := forwarded e w r in
     forwards e w r = true ->
     serve_targets net e l w1 = (Ok qs, w2, []) ->
     qs = pre ++ q :: rest ->
     exchanges (serve_exchange net e state) pre w2 = (Ok rs, w3, pevs) ->
     Forall (fun r => is_Failure r = true) rs ->
     serve_exchange net e state q w3 = (Ok (Reply m), w', qevs) ->
     Match state m = false ->
     exists evs,
       ServeDNS net e w r world = (Ok (Return RcodeSuccess None), w', evs)
       /\ written evs = [ErrorMessage state RcodeFormatError]
       /\ Rcode (ErrorMessage state RcodeFormatError) = 1%Z
       /\ dialled evs = dialled pevs ++ dialled qevs
       /\ forall p, p ∈ dialled evs -> p ∈ pre ++ [q])
  /\ (forall qs w2 pre q rest rs w3 pevs m w' qevs,
        forward_targets net e l w1 = (Ok qs, w2, []) ->
        qs = pre ++ q :: rest ->
        exchanges (forward_exchange net e fstate) pre w2 = (Ok rs, w3, pevs) ->
        Forall (fun r => is_Failure r = true) rs ->
        forward_exchange net e fstate q w3 = (Ok (Reply m), w', qevs) ->
        Match fstate m = false ->
        exists evs,
          Forward net (Some e) fstate world
          = (Ok (Some (ErrorMessage fstate RcodeFormatError), None), w', evs)
          /\ Rcode (ErrorMessage fstate RcodeFormatError) = 1%Z
          /\ dialled evs = pre ++ [q]).
Proof.
  intros Hfair Hl. split.
  - intros qs w2 pre q rest rs w3 pevs m w' qevs state Hf Ht Hqs Hpre Hall
      Hq Hm.
    assert (first_reply (serve_exchange net e state) pre q w2 m w'
              (pevs ++ qevs)) as Hfirst by (by exists rs, w3, pevs, qevs).
    destruct (ServeDNS_on_first_reply e w r world l w1 qs w2 pre q rest m w'
                (pevs ++ qevs) Hfair Hf Hl Ht Hqs Hfirst)
      as (evs & Hrun & Hw & Hd).
    destruct (first_reply_serve_dialled _ _ _ _ _ _ _ _ Hfirst)
      as (_ & Hin & _).
    exists evs. split; [done|]. split.
    { rewrite Hw. unfold reply_for. fold state. by rewrite Hm. }
    split; [done|]. rewrite Hd, dialled_app. split; [done|].
    intros p Hp. apply Hin. by rewrite dialled_app.
  - intros qs w2 pre q rest rs w3 pevs m w' qevs Ht Hqs Hpre Hall Hq Hm.
    assert (first_reply (forward_exchange net e fstate) pre q w2 m w'
              (pevs ++ qevs)) as Hfirst by (by exists rs, w3, pevs, qevs).
    destruct (Forward_on_first_reply e fstate world l w1 qs w2 pre q rest m
                w' (pevs ++ qevs) Hfair Hl Ht Hqs Hfirst)
      as (evs & Hrun & Hd).
    exists evs. split.
    { rewrite Hrun. unfold forward_for. by rewrite Hm. }
    split; [done|].
    by rewrite Hd, (first_reply_forward_dialled _ _ _ _ _ _ _ _ Hfirst).
Qed.

(** ** Proxies that are down, by their failure counters *)





(** ** [Forward] beside [ServeDNS] *)




End TraversalFacts.

(** ** The scenarios of the traversal *)

Lemma ServeDNS_all_upstreams_fail_witness :
  exists w' evs,
    @ServeDNS grid unreachable edge_two udp_client (query "bar." TypeA) start
    = (Ok (Return RcodeServerFailure (Some (errOther "dial timeout"))),
       w', evs)
    /\ written evs = []
    /\ dialled evs = [proxy_a].
Proof.
  destruct (@ServeDNS_all_upstreams_fail grid unreachable edge_two udp_client
              (query "bar." TypeA) start [proxy_a; proxy_b]
              {| now := 0; drawn := 1; robin := 0 |} [proxy_a]
              {| now := 0; drawn := 1; robin := 0 |}
              [Failure (errOther "dial timeout")] (errOther "dial timeout")
              {| now := 1; drawn := 1; robin := 0 |}
              [EvDial proxy_a "udp"])
    as (evs & Hrun & _ & Hw & Hd & _).
  - intros k n. reflexivity.
  - reflexivity.
  - reflexivity.
  - reflexivity.
  - reflexivity.
  - repeat constructor.
  - reflexivity.
  - exists {| now := 1; drawn := 1; robin := 0 |}, evs.
    split; [exact Hrun|]. split; [exact Hw|]. rewrite Hd. reflexivity.
Defined.

Lemma mismatched_reply_ends_with_FormErr_witness :
  let r := query "bar." TypeA in
  let state := @forwarded grid edge_one udp_client r in
  let w' := {| now := 3; drawn := 0; robin := 0 |} in
  (exists evs,
     @ServeDNS grid confused edge_one udp_client r start
     = (Ok (Return RcodeSuccess None), w', evs)
     /\ written evs = [ErrorMessage state RcodeFormatError]
     /\ dialled evs = [proxy_a])
  /\ (exists evs,
        @Forward grid confused (Some edge_one) state start
        = (Ok (Some (ErrorMessage state RcodeFormatError), None), w', evs)
        /\ dialled evs = [proxy_a]).
Proof.
  intros r state w'.
  destruct (@mismatched_reply_ends_with_FormErr grid confused edge_one
              udp_client r state start [proxy_a] start)
    as [Hserve Hforward].
  - intros k n. reflexivity.
  - reflexivity.
  - split.
    + destruct (Hserve [proxy_a] start [] proxy_a [] [] start []
                  (SetReply new_Msg (query "baz." TypeA)) w'
                  (@serve_exchange grid confused edge_one state proxy_a
                     start).2)
        as (evs & Hrun & Hw & _ & Hd & _);
        try reflexivity.
      { constructor. }
      exists evs. split; [exact Hrun|]. split; [exact Hw|].
      rewrite Hd. reflexivity.
    + destruct (Hforward [proxy_a] start [] proxy_a [] [] start []
                  (SetReply new_Msg (query "baz." TypeA)) w'
                  (@forward_exchange grid confused edge_one state proxy_a
                     start).2)
        as (evs & Hrun & _ & Hd);
        try reflexivity.
      { constructor. }
      exists evs. split; [exact Hrun|exact Hd].
Defined.




